(** * Microservice bottleneck detector: a shallow embedding of [mbd]

    The development follows the Python package [mbd] and its scripts:

    - [mbd/model/record.py]          -> [LogRecord]
    - [mbd/graph/graph_builder.py]   -> [GraphBuilder.build_graph]
    - [mbd/graph/bottleneck.py]      -> [sliding_windows], [records_in_window],
                                        [analyze_time_windows], [aggregate_bottlenecks]
    - [mbd/graph/analyzer.py]        -> [GraphAnalyzer]
    - [scripts/run_bottleneck_analysis.py], [scripts/runtime_server.py]

    Conventions of the embedding.

    - Python [float] values are read as exact rationals ([Q]); [int] values
      are [Z].  A [datetime] is its instant in microseconds together with
      the flag telling whether it carries a UTC offset, and the offset; an
      addition that leaves the years 1 to 9999 raises [OverflowError].
    - A raised exception is a value [Raise e] of [result]; a [while] loop
      takes a fuel argument and answers [None] when the fuel is used up.
    - A Python [dict] keeps insertion order, so dictionaries are
      association lists in insertion order. *)

From Stdlib Require Import ZArith QArith Qabs Qround Qminmax List String Ascii Bool Lia Lqa.
From Stdlib Require Import Permutation Sorting.Sorted.
Import ListNotations.

(** ** Exceptions *)

Inductive exn : Type :=
| ValueError          (* e.g. [datetime.fromisoformat] on a malformed string *)
| TypeError           (* e.g. comparing offset-naive and offset-aware datetimes *)
| NodeNotFound        (* the solver's source or sink is not a node *)
| NetworkXError       (* e.g. [G.successors(u)] on a node that is not in [G] *)
| OverflowError       (* a [timedelta] or a date out of the range of the type *)
| AlgorithmFailure.   (* any other failure of the solver *)

Inductive result (A : Type) : Type :=
| Ok (a : A)
| Raise (e : exn).

Arguments Ok {A} a.
Arguments Raise {A} e.

Definition bind {A B : Type} (c : result A) (k : A -> result B) : result B :=
  match c with
  | Ok a => k a
  | Raise e => Raise e
  end.

Declare Scope py_scope.
Delimit Scope py_scope with py.
Notation "x <- c ;; k" := (bind c (fun x => k))
  (at level 61, c at next level, right associativity) : py_scope.

(** [[f(x) for x in l]] where [f] may raise: the first exception wins. *)
Fixpoint mapM {A B : Type} (f : A -> result B) (l : list A) : result (list B) :=
  match l with
  | [] => Ok []
  | x :: l' =>
      (y <- f x ;; ys <- mapM f l' ;; Ok (y :: ys))%py
  end.

(** ** Numbers *)

Definition Qlt_bool (x y : Q) : bool := negb (Qle_bool y x).

(** [sum(xs)] of Python: left to right, starting from 0. *)
Definition py_sum (xs : list Q) : Q := fold_left Qplus xs 0.

(** The same total, summed from the right. *)
Definition sumQ (l : list Q) : Q := fold_right Qplus 0 l.

(** ** [mbd/model/record.py] *)

Record LogRecord : Type := mkLogRecord {
  timestamp    : string;
  src_service  : string;
  src_endpoint : string;
  dst_service  : string;
  dst_endpoint : string;
  latency      : Q
}.

(** ** Datetimes *)

Record datetime : Type := mkDatetime {
  tz_aware   : bool;   (* does the value carry a UTC offset? *)
  micros     : Z;      (* microseconds since the epoch (UTC when aware) *)
  utc_offset : Z       (* the offset in microseconds; 0 when naive *)
}.

(** The fields of the value that Python stores: the date and time on the
    clock of the value's own zone, in microseconds since the epoch. *)
Definition wall_clock (d : datetime) : Z := (micros d + utc_offset d)%Z.

(** [datetime.min] is 0001-01-01T00:00:00 and [datetime.max] is
    9999-12-31T23:59:59.999999, on the wall clock. *)
Definition datetime_min : Z := (-62135596800000000)%Z.
Definition datetime_max : Z := 253402300799999999%Z.

Definition in_calendar (d : datetime) : bool :=
  (datetime_min <=? wall_clock d)%Z && (wall_clock d <=? datetime_max)%Z.

(** [timedelta(seconds=s)] exists when its number of days is at most
    999999999 in magnitude. *)
Definition timedelta_ok (s : Z) : bool :=
  (-999999999 <=? s / 86400)%Z && (s / 86400 <=? 999999999)%Z.

(** The value [s] seconds after [d], in the zone of [d]. *)
Definition shift (d : datetime) (s : Z) : datetime :=
  mkDatetime (tz_aware d) (micros d + s * 1000000)%Z (utc_offset d).

(** [a < b], [a <= b]: Python refuses to compare a naive and an aware value. *)
Definition dt_lt (a b : datetime) : result bool :=
  if Bool.eqb (tz_aware a) (tz_aware b) then Ok (micros a <? micros b)%Z
  else Raise TypeError.

Definition dt_le (a b : datetime) : result bool :=
  if Bool.eqb (tz_aware a) (tz_aware b) then Ok (micros a <=? micros b)%Z
  else Raise TypeError.

(** [a - b] as a [timedelta], in microseconds. *)
Definition dt_sub (a b : datetime) : result Z :=
  if Bool.eqb (tz_aware a) (tz_aware b) then Ok (micros a - micros b)%Z
  else Raise TypeError.

(** [d + timedelta(seconds=s)]: building the [timedelta] raises
    [OverflowError] when [s] is out of its range, and so does the addition
    when the date leaves the years 1 to 9999. *)
Definition dt_add_seconds (d : datetime) (s : Z) : result datetime :=
  if timedelta_ok s then
    if in_calendar (shift d s) then Ok (shift d s) else Raise OverflowError
  else Raise OverflowError.

(** [timedelta.total_seconds()]. *)
Definition total_seconds (delta : Z) : Q := delta # 1000000.

(** [max(l)] and [min(l)] of the builtins: the first item is the running
    extremum, each later item is compared against it. *)
Fixpoint py_max_from (m : datetime) (l : list datetime) : result datetime :=
  match l with
  | [] => Ok m
  | x :: l' => (b <- dt_lt m x ;; py_max_from (if b then x else m) l')%py
  end.

Definition py_max (l : list datetime) : result datetime :=
  match l with
  | [] => Raise ValueError
  | x :: l' => py_max_from x l'
  end.

Fixpoint py_min_from (m : datetime) (l : list datetime) : result datetime :=
  match l with
  | [] => Ok m
  | x :: l' => (b <- dt_lt x m ;; py_min_from (if b then x else m) l')%py
  end.

Definition py_min (l : list datetime) : result datetime :=
  match l with
  | [] => Raise ValueError
  | x :: l' => py_min_from x l'
  end.

(** [s.replace("Z", "+00:00")]: every occurrence is replaced. *)
Fixpoint replace_Z (s : string) : string :=
  match s with
  | EmptyString => EmptyString
  | String c s' =>
      if Ascii.eqb c "Z" then ("+00:00" ++ replace_Z s')%string
      else String c (replace_Z s')
  end.

(** ** Directed graphs with attributes (the part of [networkx.DiGraph] in use) *)

Definition edge_key : Type := (string * string)%type.

Definition key_eqb (a b : edge_key) : bool :=
  String.eqb (fst a) (fst b) && String.eqb (snd a) (snd b).

Record EdgeAttrs : Type := mkEdgeAttrs {
  times               : list Q;
  count               : Z;
  avg_latency         : Q;
  throughput          : Q;
  capacity_latency    : Q;
  capacity_throughput : Q;
  capacity            : Q
}.

Record NodeAttrs : Type := mkNodeAttrs {
  load           : Q;
  in_throughput  : Q;
  out_throughput : Q
}.

(** Nodes and edges in the order of their first insertion.  Filtering
    [G_adj] on the source (target) gives the successors (predecessors) of
    a node in the order networkx iterates them. *)
Record DiGraph : Type := mkDiGraph {
  G_nodes : list (string * NodeAttrs);
  G_adj   : list (edge_key * EdgeAttrs)
}.

Definition node_names (g : DiGraph) : list string := map fst (G_nodes g).

(** [n in G.nodes] *)
Definition has_node (g : DiGraph) (n : string) : bool :=
  existsb (String.eqb n) (node_names g).

(** Looking a service pair up in a dictionary of edges. *)
Definition lookup_edge {V : Type} (es : list (edge_key * V)) (k : edge_key) : option V :=
  option_map snd (find (fun e => key_eqb k (fst e)) es).

(** [G[u][v]] *)
Definition edge_attrs (g : DiGraph) (k : edge_key) : option EdgeAttrs :=
  lookup_edge (G_adj g) k.

(** [G.nodes[n]] *)
Definition node_attrs (g : DiGraph) (n : string) : option NodeAttrs :=
  option_map snd (find (fun e => String.eqb n (fst e)) (G_nodes g)).

(** [G.successors(u)] *)
Definition successors (g : DiGraph) (u : string) : list string :=
  map (fun e => snd (fst e)) (filter (fun e => String.eqb (fst (fst e)) u) (G_adj g)).

(** [G.edges]: node by node, each node's successors in turn. *)
Definition G_edges (g : DiGraph) : list edge_key :=
  flat_map (fun u => map (fun v => (u, v)) (successors g u)) (node_names g).

(** ** [mbd/graph/graph_builder.py] *)

Module GraphBuilder.

Section Builder.

(** [datetime.fromisoformat] of the Python standard library; [None] stands
    for the [ValueError] it raises on a string it does not accept. *)
Variable fromisoformat : string -> option datetime.

(** The edges while the records are read: latencies and call count. *)
Definition raw_edges : Type := list (edge_key * (list Q * Z)).

Definition has_edge (es : raw_edges) (k : edge_key) : bool :=
  existsb (fun e => key_eqb k (fst e)) es.

(** [G[src][dst]["times"].append(latency); G[src][dst]["count"] += 1] *)
Fixpoint record_call (k : edge_key) (lat : Q) (es : raw_edges) : raw_edges :=
  match es with
  | [] => []
  | (k', (ts, c)) :: es' =>
      if key_eqb k k' then (k', (ts ++ [lat], (c + 1)%Z)) :: es'
      else (k', (ts, c)) :: record_call k lat es'
  end.

Definition add_node (n : string) (ns : list string) : list string :=
  if existsb (String.eqb n) ns then ns else ns ++ [n].

(** [G.add_edge(src, dst, times=[latency], count=1)] on a missing edge. *)
Definition add_edge (k : edge_key) (lat : Q) (ns : list string) (es : raw_edges)
  : list string * raw_edges :=
  (add_node (snd k) (add_node (fst k) ns), es ++ [(k, ([lat], 1%Z))]).

(** The state of the first loop: nodes, edges, parsed timestamps. *)
Definition pass1_state : Type := (list string * raw_edges * list datetime)%type.

Definition pass1_step (st : pass1_state) (r : LogRecord) : pass1_state :=
  let '(ns, es, tss) := st in
  let k := (src_service r, dst_service r) in
  let tss' :=
    match fromisoformat (replace_Z (timestamp r)) with
    | Some ts => tss ++ [ts]
    | None => tss              (* except Exception: pass *)
    end in
  if has_edge es k then (ns, record_call k (latency r) es, tss')
  else let '(ns', es') := add_edge k (latency r) ns es in (ns', es', tss').

Definition pass1 (records : list LogRecord) : pass1_state :=
  fold_left pass1_step records ([], [], []).

(** The observed time window, in seconds. *)
Definition duration_of (timestamps : list datetime) : result Q :=
  match timestamps with
  | [] => Ok 1
  | _ :: _ =>
      (mx <- py_max timestamps ;;
       mn <- py_min timestamps ;;
       delta <- dt_sub mx mn ;;
       let duration := total_seconds delta in
       Ok (if Qle_bool duration 0 then 1 else duration))%py
  end.

(** The second loop: the derived attributes of one edge. *)
Definition derive_edge (duration : Q) (raw : list Q * Z) : EdgeAttrs :=
  let '(ts, c) := raw in
  let avg := py_sum ts / inject_Z (Z.of_nat (List.length ts)) in
  let thr := inject_Z c / duration in
  let cap_lat := if Qlt_bool 0 avg then 1 / avg else 0 in
  mkEdgeAttrs ts c avg thr cap_lat thr
              (if Qlt_bool 0 thr then thr else cap_lat).

(** [G.in_edges(n)], [G.out_edges(n)] *)
Definition in_edges (es : list (edge_key * EdgeAttrs)) (n : string) :=
  filter (fun e => String.eqb (snd (fst e)) n) es.

Definition out_edges (es : list (edge_key * EdgeAttrs)) (n : string) :=
  filter (fun e => String.eqb (fst (fst e)) n) es.

Definition sum_throughput (es : list (edge_key * EdgeAttrs)) : Q :=
  fold_left (fun acc e => acc + throughput (snd e)) es 0.

(** The third loop: the load of one node. *)
Definition derive_node (es : list (edge_key * EdgeAttrs)) (n : string) : NodeAttrs :=
  let in_thr := sum_throughput (in_edges es n) in
  let out_thr := sum_throughput (out_edges es n) in
  let node_load := in_thr + out_thr in
  mkNodeAttrs node_load in_thr out_thr.

Definition build_graph (records : list LogRecord) : result DiGraph :=
  let '(ns, es, tss) := pass1 records in
  (duration <- duration_of tss ;;
   let es' := map (fun e => (fst e, derive_edge duration (snd e))) es in
   Ok (mkDiGraph (map (fun n => (n, derive_node es' n)) ns) es'))%py.

End Builder.

End GraphBuilder.

(** ** [mbd/graph/analyzer.py] *)

(** The per-edge flow returned by the solver: a dict of dicts. *)
Definition flow_dict : Type := list (string * list (string * Q)).

(** What [networkx.maximum_flow] and [networkx.minimum_cut] return (or raise)
    on a graph, a source, a sink and the name of the capacity attribute. *)
Definition max_flow_fn : Type :=
  DiGraph -> string -> string -> string -> result (Q * flow_dict).

Definition min_cut_fn : Type :=
  DiGraph -> string -> string -> string -> result (Q * (list string * list string)).

Module GraphAnalyzer.

Definition max_flow (nx_maximum_flow : max_flow_fn)
  (G : DiGraph) (source sink capacity_attr : string) : result (Q * flow_dict) :=
  nx_maximum_flow G source sink capacity_attr.

Definition min_cut (nx_minimum_cut : min_cut_fn)
  (G : DiGraph) (source sink capacity_attr : string)
  : result (Q * (list string * list string)) :=
  nx_minimum_cut G source sink capacity_attr.

End GraphAnalyzer.

(** ** [mbd/graph/bottleneck.py] *)

(** One entry of the list returned by [analyze_time_windows]; the sentinel
    entries have no ["cut_value"] key. *)
Record WindowResult : Type := mkWindowResult {
  w_start   : datetime;
  w_end     : datetime;
  flow      : Q;
  min_cut   : list edge_key;
  cut_value : option Q
}.

Definition sentinel (start end_ : datetime) : WindowResult :=
  mkWindowResult start end_ 0 [] None.

(** The generator [sliding_windows] between two [yield]s. *)
Record sw_state : Type := mkSw {
  sw_current : datetime;
  sw_end     : datetime
}.

Section Bottleneck.

Variable fromisoformat : string -> option datetime.
Variable nx_maximum_flow : max_flow_fn.
Variable nx_minimum_cut : min_cut_fn.

Definition parse_iso_z (s : string) : result datetime :=
  match fromisoformat (replace_Z s) with
  | Some d => Ok d
  | None => Raise ValueError
  end.

(** [sliding_windows] up to its loop: [None] when the generator returns at
    once (no records). *)
Definition sliding_windows_start (records : list LogRecord) : result (option sw_state) :=
  match records with
  | [] => Ok None
  | _ :: _ =>
      (times <- mapM (fun r => parse_iso_z (timestamp r)) records ;;
       start <- py_min times ;;
       end_ <- py_max times ;;
       Ok (Some (mkSw start end_)))%py
  end.

(** The generator from the test of the [while] loop to its [yield]: the
    window yielded, or [None] when the loop ends. *)
Definition sliding_windows_next (window_seconds : Z) (st : sw_state)
  : result (option (datetime * datetime)) :=
  (b <- dt_le (sw_current st) (sw_end st) ;;
   if b then
     window_end <- dt_add_seconds (sw_current st) window_seconds ;;
     Ok (Some (sw_current st, window_end))
   else Ok None)%py.

(** The statement after the [yield], run when the consumer asks for the
    next window. *)
Definition sliding_windows_resume (step_seconds : Z) (st : sw_state) : result sw_state :=
  (current <- dt_add_seconds (sw_current st) step_seconds ;;
   Ok (mkSw current (sw_end st)))%py.

Fixpoint sliding_windows_drain (fuel : nat) (window_seconds step_seconds : Z)
  (st : sw_state) : option (result (list (datetime * datetime))) :=
  match fuel with
  | O => None
  | S fuel' =>
      match sliding_windows_next window_seconds st with
      | Raise e => Some (Raise e)
      | Ok None => Some (Ok [])
      | Ok (Some w) =>
          match sliding_windows_resume step_seconds st with
          | Raise e => Some (Raise e)
          | Ok st' =>
              match sliding_windows_drain fuel' window_seconds step_seconds st' with
              | Some (Ok ws) => Some (Ok (w :: ws))
              | other => other
              end
          end
      end
  end.

(** [list(sliding_windows(records, window_seconds, step_seconds))] *)
Definition sliding_windows (fuel : nat) (records : list LogRecord)
  (window_seconds step_seconds : Z) : option (result (list (datetime * datetime))) :=
  match sliding_windows_start records with
  | Raise e => Some (Raise e)
  | Ok None => Some (Ok [])
  | Ok (Some st) => sliding_windows_drain fuel window_seconds step_seconds st
  end.

Fixpoint records_in_window (records : list LogRecord) (start end_ : datetime)
  : result (list LogRecord) :=
  match records with
  | [] => Ok []
  | r :: records' =>
      (ts <- parse_iso_z (timestamp r) ;;
       lo <- dt_le start ts ;;
       (* [start <= ts <= end] compares [ts] with [end] only when
          [start <= ts] holds *)
       keep <- (if lo then dt_le ts end_ else Ok false) ;;
       out <- records_in_window records' start end_ ;;
       Ok (if keep then r :: out else out))%py
  end.

(** [G.successors(u)] raises on a [u] that is not a node. *)
Definition successors_of (G : DiGraph) (u : string) : result (list string) :=
  if has_node G u then Ok (successors G u) else Raise NetworkXError.

(** The loop collecting the min-cut edges; [S_] is the set [S] in its
    iteration order, [T_] the set [T]. *)
Fixpoint collect_cut_edges (G : DiGraph) (S_ T_ : list string) : result (list edge_key) :=
  match S_ with
  | [] => Ok []
  | u :: S' =>
      (succs <- successors_of G u ;;
       rest <- collect_cut_edges G S' T_ ;;
       Ok (map (fun v => (u, v)) (filter (fun v => existsb (String.eqb v) T_) succs)
             ++ rest))%py
  end.

(** The body of the loop of [analyze_time_windows] for one window. *)
Definition analyze_window (records : list LogRecord) (source sink : string)
  (capacity_attr : string) (start end_ : datetime) : result WindowResult :=
  (window_records <- records_in_window records start end_ ;;
   match window_records with
   | [] => Ok (sentinel start end_)
   | _ :: _ =>
       G <- GraphBuilder.build_graph fromisoformat window_records ;;
       if negb (has_node G source) || negb (has_node G sink) then
         Ok (sentinel start end_)
       else
         match GraphAnalyzer.max_flow nx_maximum_flow G source sink capacity_attr with
         | Raise _ => Ok (sentinel start end_)
         | Ok (flow_value, _) =>
             match GraphAnalyzer.min_cut nx_minimum_cut G source sink capacity_attr with
             | Raise _ => Ok (sentinel start end_)
             | Ok (cut, (S_, T_)) =>
                 bottlenecks <- collect_cut_edges G S_ T_ ;;
                 Ok (mkWindowResult start end_ flow_value bottlenecks (Some cut))
             end
         end
   end)%py.

Fixpoint analyze_loop (fuel : nat) (records : list LogRecord) (source sink : string)
  (window_seconds step_seconds : Z) (capacity_attr : string) (st : sw_state)
  : option (result (list WindowResult)) :=
  match fuel with
  | O => None
  | S fuel' =>
      match sliding_windows_next window_seconds st with
      | Raise e => Some (Raise e)
      | Ok None => Some (Ok [])
      | Ok (Some (start, end_)) =>
          match analyze_window records source sink capacity_attr start end_ with
          | Raise e => Some (Raise e)
          | Ok wr =>
              (* the generator is resumed once the body of the loop is done *)
              match sliding_windows_resume step_seconds st with
              | Raise e => Some (Raise e)
              | Ok st' =>
                  match analyze_loop fuel' records source sink
                          window_seconds step_seconds capacity_attr st' with
                  | Some (Ok results) => Some (Ok (wr :: results))
                  | other => other
                  end
              end
          end
      end
  end.

Definition analyze_time_windows (fuel : nat) (records : list LogRecord)
  (source sink : string) (window_seconds step_seconds : Z) (capacity_attr : string)
  : option (result (list WindowResult)) :=
  match sliding_windows_start records with
  | Raise e => Some (Raise e)
  | Ok None => Some (Ok [])
  | Ok (Some st) =>
      analyze_loop fuel records source sink window_seconds step_seconds capacity_attr st
  end.

End Bottleneck.

(** [counter[e] = counter.get(e, 0) + 1]: a known key keeps its place, a new
    key goes to the end. *)
Fixpoint counter_incr (e : edge_key) (counter : list (edge_key * Z))
  : list (edge_key * Z) :=
  match counter with
  | [] => [(e, 1%Z)]
  | (e', c) :: counter' =>
      if key_eqb e e' then (e', (c + 1)%Z) :: counter'
      else (e', c) :: counter_incr e counter'
  end.

Definition count_edges (window_results : list WindowResult) : list (edge_key * Z) :=
  fold_left (fun counter w => fold_left (fun c e => counter_incr e c) (min_cut w) counter)
            window_results [].

(** [sorted(items, key=lambda kv: kv[1], reverse=True)].  The sort of Python
    is stable, also with [reverse=True]; a stable sort has one possible
    outcome, computed here by insertion. *)
Fixpoint insert_desc (x : edge_key * Z) (l : list (edge_key * Z)) : list (edge_key * Z) :=
  match l with
  | [] => [x]
  | y :: l' => if (snd x <? snd y)%Z then y :: insert_desc x l' else x :: y :: l'
  end.

Fixpoint sorted_desc (l : list (edge_key * Z)) : list (edge_key * Z) :=
  match l with
  | [] => []
  | x :: l' => insert_desc x (sorted_desc l')
  end.

(** [items[:k]]: a negative [k] counts from the end. *)
Definition slice_to {A : Type} (k : Z) (l : list A) : list A :=
  if (k <? 0)%Z then firstn (Z.to_nat (Z.of_nat (List.length l) + k)) l
  else firstn (Z.to_nat k) l.

Definition aggregate_bottlenecks (window_results : list WindowResult) (top_k : Z)
  : list (edge_key * Z) :=
  let counter := count_edges window_results in
  let items := sorted_desc counter in
  slice_to top_k items.

(** ** [scripts/run_bottleneck_analysis.py] *)





(** ** [scripts/runtime_server.py] *)

(** The entries of [latest_graph]; the texts ([label], [title], the colour
    strings) are kept as the numbers they are formatted from. *)
Record ViewNode : Type := mkViewNode {
  vn_id    : string;
  vn_load  : Q;
  vn_size  : Q;
  vn_color : option (Z * Z * Z)     (* [None]: the default colour *)
}.

Record ViewEdge : Type := mkViewEdge {
  ve_from  : string;
  ve_to    : string;
  ve_label : option Q;              (* the average latency, when present *)
  ve_red   : bool;                  (* ["red"] when highlighted *)
  ve_width : Q
}.

Record GraphView : Type := mkGraphView {
  v_nodes : list ViewNode;
  v_edges : list ViewEdge
}.

Definition Qmin_list (x : Q) (l : list Q) : Q :=
  fold_left (fun m y => if Qlt_bool y m then y else m) l x.

Definition Qmax_list (x : Q) (l : list Q) : Q :=
  fold_left (fun m y => if Qlt_bool m y then y else m) l x.

Definition view_node (min_load max_load : Q) (n : string * NodeAttrs) : ViewNode :=
  let ld := load (snd n) in
  let size :=
    if Qlt_bool min_load max_load
    then 10 + ((ld - min_load) / (max_load - min_load)) * 50 else 10 in
  let color :=
    if Qlt_bool 0 max_load && Qlt_bool min_load max_load then
      let intensity := Qfloor (255 * ((ld - min_load) / (max_load - min_load))) in
      Some (Z.min 255 (100 + intensity),
            Z.max 50 (200 - intensity),
            Z.max 50 (200 - intensity / 2))%Z
    else None in
  mkViewNode (fst n) ld size color.

Definition view_edge (G : DiGraph) (highlighted : list edge_key) (k : edge_key)
  : ViewEdge :=
  mkViewEdge (fst k) (snd k)
             (option_map avg_latency (edge_attrs G k))
             (existsb (key_eqb k) highlighted) 1.

(** The serialisable view built from the graph of the last window. *)
Definition graph_view (G : DiGraph) (highlighted : list edge_key) : GraphView :=
  let loads := map (fun n => load (snd n)) (G_nodes G) in
  let min_load := match loads with [] => 0 | x :: l => Qmin_list x l end in
  let max_load := match loads with [] => 0 | x :: l => Qmax_list x l end in
  mkGraphView (map (view_node min_load max_load) (G_nodes G))
              (map (view_edge G highlighted) (G_edges G)).

Module RuntimeAnalyzer.

(** The fields of the analyzer that the threads share. *)
Record shared : Type := mkShared {
  records            : list LogRecord;
  latest_windows     : list WindowResult;
  latest_bottlenecks : list (edge_key * Z);
  latest_graph       : option GraphView
}.

(** Where [analyze_loop] stands between two blocks under the lock. *)
Inductive analyze_pc : Type :=
| Sleeping
| Snapshot (records_copy : list LogRecord)
| Published (records_copy : list LogRecord)
            (windows : list WindowResult) (top : list (edge_key * Z)).

Record state : Type := mkState {
  mem : shared;
  pc  : analyze_pc
}.

Definition init : state := mkState (mkShared [] [] [] None) Sleeping.

Section Runtime.

Variable fromisoformat : string -> option datetime.
Variable nx_maximum_flow : max_flow_fn.
Variable nx_minimum_cut : min_cut_fn.
Variables (source sink : string) (window step : Z) (capacity : string).

(** [in_range] of [analyze_loop]: any exception counts as [False]. *)
Definition in_range (start end_ : datetime) (r : LogRecord) : bool :=
  match (ts <- parse_iso_z fromisoformat (timestamp r) ;;
         lo <- dt_le start ts ;;
         if lo then dt_le ts end_ else Ok false)%py with
  | Ok b => b
  | Raise _ => false
  end.

(** What the last part of a cycle assigns to [latest_graph]; [None] when it
    assigns nothing (no window, or an exception that is passed over). *)
Definition cycle_graph (records_copy : list LogRecord)
  (windows : list WindowResult) (top : list (edge_key * Z)) : option GraphView :=
  match rev windows with
  | [] => None
  | last_window :: _ =>
      let window_recs :=
        filter (in_range (w_start last_window) (w_end last_window)) records_copy in
      match GraphBuilder.build_graph fromisoformat window_recs with
      | Raise _ => None
      | Ok G => Some (graph_view G (map fst (slice_to 5 top)))
      end
  end.

(** The steps of the two background threads; each block under the lock is
    one step. *)
Inductive thread_step : state -> state -> Prop :=
| step_tail : forall m p rec,
    (* [tail_loop]: [self.records.append(rec)] *)
    thread_step (mkState m p)
         (mkState (mkShared (records m ++ [rec]) (latest_windows m)
                            (latest_bottlenecks m) (latest_graph m)) p)
| step_snapshot : forall m,
    (* [records_copy = list(self.records)] *)
    thread_step (mkState m Sleeping) (mkState m (Snapshot (records m)))
| step_skip : forall m,
    (* [if not records_copy: continue] *)
    thread_step (mkState m (Snapshot [])) (mkState m Sleeping)
| step_publish : forall m rc fuel windows,
    rc <> [] ->
    analyze_time_windows fromisoformat nx_maximum_flow nx_minimum_cut
      fuel rc source sink window step capacity = Some (Ok windows) ->
    let top := aggregate_bottlenecks windows 10 in
    thread_step (mkState m (Snapshot rc))
         (mkState (mkShared (records m) windows top (latest_graph m))
                  (Published rc windows top))
| step_publish_failed : forall m rc fuel e,
    rc <> [] ->
    analyze_time_windows fromisoformat nx_maximum_flow nx_minimum_cut
      fuel rc source sink window step capacity = Some (Raise e) ->
    (* [except Exception: windows = []; top = []] *)
    thread_step (mkState m (Snapshot rc))
         (mkState (mkShared (records m) [] [] (latest_graph m))
                  (Published rc [] []))
| step_graph : forall m rc windows top,
    thread_step (mkState m (Published rc windows top))
         (mkState (mkShared (records m) (latest_windows m) (latest_bottlenecks m)
                            (match cycle_graph rc windows top with
                             | Some v => Some v
                             | None => latest_graph m
                             end))
                  Sleeping).

Inductive reachable : state -> Prop :=
| reach_init : reachable init
| reach_step : forall s s', reachable s -> thread_step s s' -> reachable s'.

End Runtime.

(** What the readers of the server can see: [/alerts] reads the bottlenecks
    and the windows, [/graph-data] the graph. *)
Definition published (s : state)
  : list WindowResult * list (edge_key * Z) * option GraphView :=
  (latest_windows (mem s), latest_bottlenecks (mem s), latest_graph (mem s)).

End RuntimeAnalyzer.

(** ** A parser for the timestamps of the logs

    [Iso.fromisoformat] reads the layouts
    [YYYY-MM-DD], [YYYY-MM-DD(T| )HH:MM:SS], with an optional fraction of
    three or six digits and an optional offset [+HH:MM] or [-HH:MM], as
    [datetime.fromisoformat] does; it answers [None] on any other string
    (Python accepts some more layouts).  The general results below hold for
    every parser; this one serves to run the model on concrete logs. *)

Module Iso.

Definition obind {A B : Type} (o : option A) (k : A -> option B) : option B :=
  match o with
  | Some a => k a
  | None => None
  end.

Definition digit (c : ascii) : option Z :=
  let n := nat_of_ascii c in
  if ((48 <=? n) && (n <=? 57))%nat then Some (Z.of_nat (n - 48)) else None.

Fixpoint number_from (acc : Z) (cs : list ascii) : option Z :=
  match cs with
  | [] => Some acc
  | c :: cs' => obind (digit c) (fun d => number_from (10 * acc + d)%Z cs')
  end.

Definition number (cs : list ascii) : option Z := number_from 0%Z cs.

Local Open Scope Z_scope.

Definition is_leap (y : Z) : bool :=
  ((y mod 4 =? 0) && negb (y mod 100 =? 0)) || (y mod 400 =? 0).

Definition days_in_month (y m : Z) : Z :=
  if m =? 2 then (if is_leap y then 29 else 28)
  else if (m =? 4) || (m =? 6) || (m =? 9) || (m =? 11) then 30 else 31.

(** Days from 1970-01-01 to the given civil date. *)
Definition days_from_civil (y m d : Z) : Z :=
  let y' := if m <=? 2 then y - 1 else y in
  let era := y' / 400 in
  let yoe := y' - era * 400 in
  let mp := if 2 <? m then m - 3 else m + 9 in
  let doy := (153 * mp + 2) / 5 + d - 1 in
  let doe := yoe * 365 + yoe / 4 - yoe / 100 + doy in
  era * 146097 + doe - 719468.

Definition parse_date (cs : list ascii) : option (Z * list ascii) :=
  match cs with
  | y1 :: y2 :: y3 :: y4 :: "-"%char :: m1 :: m2 :: "-"%char :: d1 :: d2 :: rest =>
      obind (number [y1; y2; y3; y4]) (fun y =>
      obind (number [m1; m2]) (fun m =>
      obind (number [d1; d2]) (fun d =>
      if (1 <=? y) && (1 <=? m) && (m <=? 12) && (1 <=? d) && (d <=? days_in_month y m)
      then Some (days_from_civil y m d, rest) else None)))
  | _ => None
  end.

Definition parse_hms (cs : list ascii) : option (Z * list ascii) :=
  match cs with
  | h1 :: h2 :: ":"%char :: m1 :: m2 :: ":"%char :: s1 :: s2 :: rest =>
      obind (number [h1; h2]) (fun h =>
      obind (number [m1; m2]) (fun m =>
      obind (number [s1; s2]) (fun s =>
      if (h <=? 23) && (m <=? 59) && (s <=? 59)
      then Some (((h * 60 + m) * 60 + s) * 1000000, rest) else None)))
  | _ => None
  end.

Definition parse_fraction (cs : list ascii) : option (Z * list ascii) :=
  match cs with
  | "."%char :: f1 :: f2 :: f3 :: rest =>
      match rest with
      | f4 :: f5 :: f6 :: rest' =>
          match number [f1; f2; f3; f4; f5; f6] with
          | Some us => Some (us, rest')
          | None => obind (number [f1; f2; f3]) (fun ms => Some (ms * 1000, rest))
          end
      | _ => obind (number [f1; f2; f3]) (fun ms => Some (ms * 1000, rest))
      end
  | "."%char :: _ => None
  | _ => Some (0, cs)
  end.

(** The offset in microseconds; [None] inside [Some] for a naive value. *)
Definition parse_offset (cs : list ascii) : option (option Z) :=
  match cs with
  | [] => Some None
  | sign :: h1 :: h2 :: ":"%char :: m1 :: m2 :: [] =>
      obind (number [h1; h2]) (fun h =>
      obind (number [m1; m2]) (fun m =>
      if (h <=? 23) && (m <=? 59) then
        let off := (h * 60 + m) * 60 * 1000000 in
        if Ascii.eqb sign "+" then Some (Some off)
        else if Ascii.eqb sign "-" then Some (Some (- off))
        else None
      else None))
  | _ => None
  end.

Definition fromisoformat (s : string) : option datetime :=
  obind (parse_date (list_ascii_of_string s)) (fun '(days, rest) =>
  let day_us := days * 86400 * 1000000 in
  match rest with
  | [] => Some (mkDatetime false day_us 0)
  | sep :: rest1 =>
      if Ascii.eqb sep "T" || Ascii.eqb sep " " then
        obind (parse_hms rest1) (fun '(hms, rest2) =>
        obind (parse_fraction rest2) (fun '(frac, rest3) =>
        obind (parse_offset rest3) (fun off =>
        match off with
        | None => Some (mkDatetime false (day_us + hms + frac) 0)
        | Some o => Some (mkDatetime true (day_us + hms + frac - o) o)
        end)))
      else None
  end).

End Iso.

(** ** The flow and cut solver

    [GraphAnalyzer] hands the graph to [networkx.maximum_flow] and
    [networkx.minimum_cut], which are not part of the sources.  The module
    below is the solver as the specification describes it. *)

Module FlowCutSolver.

(** Modelled from the spec: the capacity field selects which derived metric
    of an edge gates the flow; the solver itself is missing from the
    sources.  An unknown field is reported as a failure. *)
Definition capacity_field (name : string) : option (EdgeAttrs -> Q) :=
  if String.eqb name "capacity" then Some capacity
  else if String.eqb name "capacity_throughput" then Some capacity_throughput
  else if String.eqb name "capacity_latency" then Some capacity_latency
  else None.

Section Network.

Variable nodes : list string.
Variable cap : string -> string -> Q.      (* 0 where there is no edge *)
Variables source sink : string.

(** A flow is kept as the net flow between two nodes, [f u v == - f v u]. *)
Definition flow_fn : Type := string -> string -> Q.

Definition zero_flow : flow_fn := fun _ _ => 0.

Definition residual (f : flow_fn) (u v : string) : Q := cap u v - f u v.

(** Net flow leaving a node; the value of a flow is what leaves the source. *)
Definition excess (f : flow_fn) (u : string) : Q := sumQ (map (f u) nodes).

Definition flow_value (f : flow_fn) : Q := excess f source.

(** *** Search in the residual graph

    The nodes found so far, each with a path from the source to it. *)
Definition found_set : Type := list (string * list string).

Definition is_found (fs : found_set) (v : string) : bool :=
  existsb (fun e => String.eqb v (fst e)) fs.

(** The first residual edge that leaves the found set. *)
Definition crossing_from (f : flow_fn) (fs : found_set) (e : string * list string)
  : option (string * list string) :=
  match find (fun v => negb (is_found fs v) && Qlt_bool 0 (residual f (fst e) v)) nodes with
  | Some v => Some (v, snd e ++ [v])
  | None => None
  end.

Fixpoint first_crossing (f : flow_fn) (fs todo : found_set)
  : option (string * list string) :=
  match todo with
  | [] => None
  | e :: todo' =>
      match crossing_from f fs e with
      | Some c => Some c
      | None => first_crossing f fs todo'
      end
  end.

Fixpoint grow (fuel : nat) (f : flow_fn) (fs : found_set) : found_set :=
  match fuel with
  | O => fs
  | S fuel' =>
      match first_crossing f fs fs with
      | Some c => grow fuel' f (fs ++ [c])
      | None => fs
      end
  end.

(** Every node reachable from the source in the residual graph. *)
Definition search (f : flow_fn) : found_set :=
  grow (List.length nodes) f [(source, [source])].

Definition path_to (fs : found_set) (v : string) : option (list string) :=
  option_map snd (find (fun e => String.eqb v (fst e)) fs).

(** *** Augmentation *)

(** The smallest residual capacity along a path. *)
Fixpoint bottleneck (f : flow_fn) (p : list string) : option Q :=
  match p with
  | u :: ((v :: _) as p') =>
      match bottleneck f p' with
      | Some b => Some (if Qlt_bool (residual f u v) b then residual f u v else b)
      | None => Some (residual f u v)
      end
  | _ => None
  end.

Definition push (f : flow_fn) (u v : string) (b : Q) : flow_fn :=
  fun x y =>
    if String.eqb x u && String.eqb y v then f x y + b
    else if String.eqb x v && String.eqb y u then f x y - b
    else f x y.

Fixpoint augment (f : flow_fn) (p : list string) (b : Q) : flow_fn :=
  match p with
  | u :: ((v :: _) as p') => augment (push f u v b) p' b
  | _ => f
  end.

(** One round: [inl] the flow when no augmenting path is left, [inr] the
    flow after one augmentation. *)
Definition augment_once (f : flow_fn) : flow_fn + flow_fn :=
  match path_to (search f) sink with
  | None => inl f
  | Some p =>
      match bottleneck f p with
      | Some b => inr (augment f p b)
      | None => inl f
      end
  end.

(** At most [n] rounds, for [n] in binary. *)
Fixpoint rounds (n : positive) (f : flow_fn) : flow_fn + flow_fn :=
  match n with
  | xH => augment_once f
  | xO n' =>
      match rounds n' f with
      | inl f' => inl f'
      | inr f' => rounds n' f'
      end
  | xI n' =>
      match augment_once f with
      | inl f' => inl f'
      | inr f1 =>
          match rounds n' f1 with
          | inl f' => inl f'
          | inr f2 => rounds n' f2
          end
      end
  end.

(** Every capacity is a multiple of [1 / denominator]. *)
Definition denominator : positive :=
  fold_right Pos.mul 1%positive
    (flat_map (fun u => map (fun v => Qden (cap u v)) nodes) nodes).

(** More rounds than augmentations can happen: each adds at least
    [1 / denominator] to a value that the capacity out of the source
    bounds. *)
Definition round_limit : positive :=
  Z.to_pos (Qfloor (sumQ (map (cap source) nodes) * inject_Z (Zpos denominator)) + 1).

(** The flow at convergence, [None] when the rounds do not suffice. *)
Definition converge : option flow_fn :=
  match rounds round_limit zero_flow with
  | inl f => Some f
  | inr _ => None
  end.

(** The two sides of the cut of a converged flow. *)
Definition reachable_set (f : flow_fn) : list string :=
  filter (is_found (search f)) nodes.

Definition other_set (f : flow_fn) : list string :=
  filter (fun v => negb (is_found (search f) v)) nodes.

(** The capacity of the edges from [S_] to [T_]. *)
Definition cut_capacity (S_ T_ : list string) : Q :=
  sumQ (map (fun u => sumQ (map (cap u) T_)) S_).

End Network.

(** The network of a graph under a capacity field. *)
Definition capacity_of (G : DiGraph) (field : EdgeAttrs -> Q) (u v : string) : Q :=
  match edge_attrs G (u, v) with
  | Some a => field a
  | None => 0
  end.

Definition well_formed (G : DiGraph) (field : EdgeAttrs -> Q) : bool :=
  forallb (fun e => Qle_bool 0 (field (snd e))) (G_adj G).

(** What both entry points check before they run. *)
Definition prepare (G : DiGraph) (source sink capacity_attr : string)
  : result (EdgeAttrs -> Q) :=
  if negb (has_node G source) || negb (has_node G sink) || String.eqb source sink
  then Raise NodeNotFound
  else match capacity_field capacity_attr with
       | None => Raise AlgorithmFailure
       | Some field =>
           if well_formed G field then Ok field else Raise AlgorithmFailure
       end.

(** The flow on the edges of the graph: the positive part of the net flow. *)
Definition flow_dict_of (G : DiGraph) (f : flow_fn) : flow_dict :=
  map (fun u => (u, map (fun v => (v, if Qlt_bool 0 (f u v) then f u v else 0))
                        (successors G u)))
      (node_names G).

(** Modelled from the spec: [maxFlow], an augmenting-path maximum flow over
    non-negative rational capacities (the solver is missing from the
    sources). *)
Definition maximum_flow : max_flow_fn :=
  fun G source sink capacity_attr =>
    (field <- prepare G source sink capacity_attr ;;
     match converge (node_names G) (capacity_of G field) source sink with
     | None => Raise AlgorithmFailure
     | Some f => Ok (flow_value (node_names G) source f, flow_dict_of G f)
     end)%py.

(** Modelled from the spec: [minCut], the cut read off the residual graph of
    the converged flow (the solver is missing from the sources). *)
Definition minimum_cut : min_cut_fn :=
  fun G source sink capacity_attr =>
    (field <- prepare G source sink capacity_attr ;;
     match converge (node_names G) (capacity_of G field) source sink with
     | None => Raise AlgorithmFailure
     | Some f =>
         let S_ := reachable_set (node_names G) (capacity_of G field) source f in
         let T_ := other_set (node_names G) (capacity_of G field) source f in
         Ok (cut_capacity (capacity_of G field) S_ T_, (S_, T_))
     end)%py.

End FlowCutSolver.

(** ** Notions used to state the results *)

(** The records of one service pair, in log order. *)
Definition record_key (r : LogRecord) : edge_key := (src_service r, dst_service r).

Definition calls_of (k : edge_key) (records : list LogRecord) : list LogRecord :=
  filter (fun r => key_eqb k (record_key r)) records.

(** The timestamps of a log that the parser accepts, in log order. *)
Definition parsed_timestamps (fromisoformat : string -> option datetime)
  (records : list LogRecord) : list datetime :=
  flat_map (fun r => match fromisoformat (replace_Z (timestamp r)) with
                     | Some d => [d]
                     | None => []
                     end) records.

(** All values are offset-aware, or all are naive. *)
Definition uniform (l : list datetime) : Prop :=
  forall a b, In a l -> In b l -> tz_aware a = tz_aware b.

(** The same, as a test. *)
Definition uniformb (l : list datetime) : bool :=
  match l with
  | [] => true
  | x :: l' => forallb (fun y => Bool.eqb (tz_aware y) (tz_aware x)) l'
  end.

(** Largest and smallest instant of a non-empty list. *)
Definition latest (l : list datetime) : Z :=
  match l with
  | [] => 0%Z
  | x :: l' => fold_left Z.max (map micros l') (micros x)
  end.

Definition earliest (l : list datetime) : Z :=
  match l with
  | [] => 0%Z
  | x :: l' => fold_left Z.min (map micros l') (micros x)
  end.

(** Seconds between the earliest and the latest timestamp. *)
Definition span_seconds (l : list datetime) : Q :=
  total_seconds (latest l - earliest l).

(** The span that the builder divides by, in terms of the timestamps. *)
Definition span_of (tss : list datetime) : Q :=
  match tss with
  | [] => 1
  | _ :: _ => if Qle_bool (span_seconds tss) 0 then 1 else span_seconds tss
  end.

(** What the first loop of the builder holds for a service pair with the
    given calls. *)
Definition raw_of (calls : list LogRecord) : option (list Q * Z) :=
  match calls with
  | [] => None
  | _ :: _ => Some (map latency calls, Z.of_nat (List.length calls))
  end.

(** Every timestamp of the log parses. *)
Definition all_parse (fromisoformat : string -> option datetime)
  (records : list LogRecord) : Prop :=
  forall r, In r records -> fromisoformat (replace_Z (timestamp r)) <> None.

Definition all_parseb (fromisoformat : string -> option datetime)
  (records : list LogRecord) : bool :=
  forallb (fun r => match fromisoformat (replace_Z (timestamp r)) with
                    | Some _ => true
                    | None => false
                    end) records.

(** The timestamp of the record lies in [[start, end_]], bounds included. *)
Definition in_window (fromisoformat : string -> option datetime)
  (start end_ : datetime) (r : LogRecord) : bool :=
  match fromisoformat (replace_Z (timestamp r)) with
  | Some ts => ((micros start <=? micros ts) && (micros ts <=? micros end_))%Z
  | None => false
  end.

(** [n] windows of [w] seconds, the first at [current], one every [s] seconds. *)
Fixpoint windows_from (n : nat) (current : datetime) (w s : Z)
  : list (datetime * datetime) :=
  match n with
  | O => []
  | S n' =>
      (current, shift current w) :: windows_from n' (shift current s) w s
  end.

(** The number of window starts from [current] up to [end_], bounds included. *)
Definition window_count (current end_ : datetime) (s : Z) : nat :=
  if (micros current <=? micros end_)%Z
  then S (Z.to_nat ((micros end_ - micros current) / (s * 1000000)))
  else O.

(** Where the first window starts: at the earliest timestamp, the first
    of them in the log when several are equal. *)
Fixpoint first_earliest (m : datetime) (l : list datetime) : datetime :=
  match l with
  | [] => m
  | x :: l' => first_earliest (if (micros x <? micros m)%Z then x else m) l'
  end.

Definition first_window_start (tss : list datetime) : datetime :=
  match tss with
  | [] => mkDatetime false 0 0
  | x :: l => first_earliest x l
  end.

(** The window arithmetic of a log stays within the dates that Python can
    represent: both intervals exist as [timedelta]s, and neither the end of
    a window nor the start of the next one leaves the years 1 to 9999 on the
    clock of the first window's zone. *)
Definition within_calendar (tss : list datetime) (w s : Z) : Prop :=
  timedelta_ok w = true /\ timedelta_ok s = true /\
  (datetime_min <= earliest tss + utc_offset (first_window_start tss)
                   + Z.min 0 w * 1000000)%Z /\
  (latest tss + utc_offset (first_window_start tss)
   + Z.max w s * 1000000 <= datetime_max)%Z.

(** The same for the loop of the generator when it stands at [current]. *)
Definition loop_in_calendar (current end_ : datetime) (w s : Z) : Prop :=
  timedelta_ok w = true /\ timedelta_ok s = true /\
  (datetime_min <= wall_clock current + Z.min 0 w * 1000000)%Z /\
  (micros end_ + utc_offset current + Z.max w s * 1000000 <= datetime_max)%Z.

(** The windows of a log: none for an empty log, else
    [floor (T / s) + 1] of them, [T] being the seconds the log spans. *)
Definition expected_windows (fromisoformat : string -> option datetime)
  (records : list LogRecord) (w s : Z) : list (datetime * datetime) :=
  match records with
  | [] => []
  | _ :: _ =>
      let tss := parsed_timestamps fromisoformat records in
      windows_from (S (Z.to_nat (Qfloor (span_seconds tss / inject_Z s))))
                   (first_window_start tss) w s
  end.


(** The solver hands back cut sides made of nodes of the graph (networkx
    returns a partition of the node set). *)
Definition cut_within_nodes (nx_minimum_cut : min_cut_fn) : Prop :=
  forall G source sink capacity_attr cut S_ T_,
    nx_minimum_cut G source sink capacity_attr = Ok (cut, (S_, T_)) ->
    forall u, In u S_ -> has_node G u = true.


Definition is_sentinel (wr : WindowResult) : Prop :=
  wr = sentinel (w_start wr) (w_end wr).

(** What the analysis owes for one window. *)
Definition window_outcome (fromisoformat : string -> option datetime)
  (nx_maximum_flow : max_flow_fn) (nx_minimum_cut : min_cut_fn)
  (records : list LogRecord) (source sink capacity_attr : string)
  (w : datetime * datetime) (wr : WindowResult) : Prop :=
  w_start wr = fst w /\ w_end wr = snd w /\
  match filter (in_window fromisoformat (fst w) (snd w)) records with
  | [] => is_sentinel wr
  | r :: sel =>
      exists G,
        GraphBuilder.build_graph fromisoformat (r :: sel) = Ok G /\
        if negb (has_node G source) || negb (has_node G sink) then is_sentinel wr
        else
          match nx_maximum_flow G source sink capacity_attr,
                nx_minimum_cut G source sink capacity_attr with
          | Ok (flow_value, _), Ok (cut, (S_, T_)) =>
              flow wr = flow_value /\ cut_value wr = Some cut /\
              collect_cut_edges G S_ T_ = Ok (min_cut wr) /\
              forall u v, In (u, v) (min_cut wr) <->
                          In (u, v) (G_edges G) /\ In u S_ /\ In v T_
          | _, _ => is_sentinel wr
          end
  end.

(** The cut edges of all windows, in the order the aggregation reads them. *)
Definition edge_stream (window_results : list WindowResult) : list edge_key :=
  flat_map min_cut window_results.

(** The distinct edges of a list, in the order of their first appearance. *)
Definition first_seen (l : list edge_key) : list edge_key :=
  fold_left (fun acc e => if existsb (key_eqb e) acc then acc else acc ++ [e]) l [].

(** How often an edge occurs in a list. *)
Definition occurrences (e : edge_key) (l : list edge_key) : Z :=
  Z.of_nat (List.length (filter (key_eqb e) l)).

(** In how many windows an edge is a cut edge. *)
Definition windows_containing (e : edge_key) (window_results : list WindowResult) : Z :=
  Z.of_nat (List.length (filter (fun w => existsb (key_eqb e) (min_cut w)) window_results)).

(** No window lists an edge twice. *)
Definition deduplicated (window_results : list WindowResult) : Prop :=
  Forall (fun w => NoDup (min_cut w)) window_results.

(** The same, as a test. *)
Fixpoint nodupb (l : list edge_key) : bool :=
  match l with
  | [] => true
  | e :: l' => negb (existsb (key_eqb e) l') && nodupb l'
  end.

Definition deduplicatedb (window_results : list WindowResult) : bool :=
  forallb (fun w => nodupb (min_cut w)) window_results.

Definition has_count (c : Z) (x : edge_key * Z) : bool := (snd x =? c)%Z.

(** The first entry has at least the count of the second. *)
Definition at_least (a b : edge_key * Z) : Prop := (snd b <= snd a)%Z.

(** *** Notions about flows *)

(** The consecutive pairs of a path. *)
Fixpoint steps (p : list string) : list (string * string) :=
  match p with
  | u :: ((v :: _) as p') => (u, v) :: steps p'
  | _ => []
  end.

(** [q] is a whole multiple of [1 / d]. *)
Definition multiple_of (d : positive) (q : Q) : Prop := exists z : Z, q == z # d.

Section FlowNotions.

Variable nodes : list string.
Variable cap : string -> string -> Q.
Variables source sink : string.

(** Every step of the path has room left. *)
Definition residual_path (f : FlowCutSolver.flow_fn) (p : list string) : Prop :=
  Forall (fun e => 0 < FlowCutSolver.residual cap f (fst e) (snd e)) (steps p).

(** A flow of the network: antisymmetric, within the capacities, conserved
    at every node but the source and the sink. *)
Record valid_flow (f : FlowCutSolver.flow_fn) : Prop := mkValid {
  flow_skew : forall u v, f u v == - f v u;
  flow_cap  : forall u v, f u v <= cap u v;
  flow_cons : forall u, In u nodes -> u <> source -> u <> sink ->
                        FlowCutSolver.excess nodes f u == 0;
  flow_int  : forall u v, multiple_of (FlowCutSolver.denominator nodes cap) (f u v)
}.

(** The entries of a found set: a path of the residual graph from the
    source to the node, without repetition, through found nodes. *)
Definition found_ok (f : FlowCutSolver.flow_fn) (fs : FlowCutSolver.found_set) : Prop :=
  NoDup (map fst fs)
  /\ incl (map fst fs) nodes
  /\ FlowCutSolver.is_found fs source = true
  /\ forall v p, In (v, p) fs ->
       hd_error p = Some source
       /\ last p source = v
       /\ residual_path f p
       /\ NoDup p
       /\ (forall x, In x p -> In x (map fst fs)).

(** No residual edge leaves the found set. *)
Definition closed_set (f : FlowCutSolver.flow_fn) (fs : FlowCutSolver.found_set) : Prop :=
  forall u v, In u (map fst fs) -> In v nodes -> ~ In v (map fst fs) ->
              FlowCutSolver.residual cap f u v <= 0.

(** The rounds of the solver, counted in unary. *)
Fixpoint rounds_nat (n : nat) (f : FlowCutSolver.flow_fn)
  : FlowCutSolver.flow_fn + FlowCutSolver.flow_fn :=
  match n with
  | O => inr f
  | S n' =>
      match FlowCutSolver.augment_once nodes cap source sink f with
      | inl f' => inl f'
      | inr f1 => rounds_nat n' f1
      end
  end.

End FlowNotions.

(** ** Logs used as examples *)

Definition call (ts src dst : string) (lat : Q) : LogRecord :=
  mkLogRecord ts src "/" dst "/" lat.

(** Two services in a chain, one second apart. *)
Definition log_chain : list LogRecord :=
  [ call "2024-01-01T00:00:00Z" "A" "B" 10;
    call "2024-01-01T00:00:01Z" "B" "C" 20 ].

(** Two calls of one pair, half a second apart. *)
Definition log_half_second : list LogRecord :=
  [ call "2024-01-01T00:00:00Z" "A" "B" 10;
    call "2024-01-01T00:00:00.500Z" "A" "B" 20 ].

(** The same chain, two seconds apart. *)
Definition log_two_seconds : list LogRecord :=
  [ call "2024-01-01T00:00:00Z" "A" "B" 10;
    call "2024-01-01T00:00:02Z" "B" "C" 20 ].

(** A log with a line whose timestamp is not a timestamp. *)
Definition log_bad_stamp : list LogRecord :=
  [ call "2024-01-01T00:00:00Z" "A" "B" 10;
    call "yesterday" "A" "B" 30;
    call "2024-01-01T00:00:02Z" "B" "C" 20 ].

(** Window results used as examples: the window of the [i]-th minute with
    the given cut edges. *)
Definition window_with (i : Z) (flow_value : Q) (edges : list edge_key) : WindowResult :=
  mkWindowResult (mkDatetime true (i * 60000000) 0)
                 (mkDatetime true ((i + 1) * 60000000) 0)
                 flow_value edges (Some flow_value).

(** The edge (X, Y) limits the first two windows, nothing the third. *)
Definition windows_xy : list WindowResult :=
  [ window_with 0 1 [("X", "Y")%string];
    window_with 1 1 [("X", "Y")%string];
    sentinel (mkDatetime true 120000000 0) (mkDatetime true 180000000 0) ].

(** One window with two cut edges. *)
Definition windows_two_edges : list WindowResult :=
  [ window_with 0 2 [("X", "Y")%string; ("Y", "Z")%string] ].

(** One window that lists its cut edge twice. *)
Definition windows_repeated : list WindowResult :=
  [ window_with 0 1 [("X", "Y")%string; ("X", "Y")%string] ].

(** The graph of a log, the empty graph when the builder raises. *)
(** One call in the last minute of the calendar, and the same wall-clock
    time five hours ahead of UTC. *)
Definition log_last_minute : list LogRecord :=
  [ call "9999-12-31T23:59:30Z" "A" "B" 10 ].

Definition log_last_minute_east : list LogRecord :=
  [ call "9999-12-31T23:59:30+05:00" "A" "B" 10 ].

Definition graph_of (records : list LogRecord) : DiGraph :=
  match GraphBuilder.build_graph Iso.fromisoformat records with
  | Ok g => g
  | Raise _ => mkDiGraph [] []
  end.

(** ** A run of the live analyzer used as example

    The analyzer follows the chain log from "A" to "C" with the solver of
    the specification; the states are those of its first cycle. *)

Definition live_windows : list WindowResult :=
  match analyze_time_windows Iso.fromisoformat
          FlowCutSolver.maximum_flow FlowCutSolver.minimum_cut
          5 log_chain "A" "C" 60 30 "capacity" with
  | Some (Ok windows) => windows
  | _ => []
  end.

Definition live_top : list (edge_key * Z) := aggregate_bottlenecks live_windows 10.

(** The log has been read and the cycle holds its snapshot. *)
Definition state_snapshot : RuntimeAnalyzer.state :=
  RuntimeAnalyzer.mkState
    (RuntimeAnalyzer.mkShared log_chain [] [] None)
    (RuntimeAnalyzer.Snapshot log_chain).

(** The windows and the bottlenecks are published, the graph is not yet. *)
Definition state_between : RuntimeAnalyzer.state :=
  RuntimeAnalyzer.mkState
    (RuntimeAnalyzer.mkShared log_chain live_windows live_top None)
    (RuntimeAnalyzer.Published log_chain live_windows live_top).

(** The cycle is over. *)
Definition state_done : RuntimeAnalyzer.state :=
  RuntimeAnalyzer.mkState
    (RuntimeAnalyzer.mkShared log_chain live_windows live_top
       (RuntimeAnalyzer.cycle_graph Iso.fromisoformat log_chain live_windows live_top))
    RuntimeAnalyzer.Sleeping.

(** ** Further code

    The parts of the repository that the sections above do not reach: the
    CSV parsers, the styling of the visualizer, the one-shot program and
    the handlers of the live server. *)

(** *** [mbd/parser/log_parser.py] *)

(** [s.startswith("#")] *)
Definition starts_with_hash (s : string) : bool :=
  match s with
  | String c _ => Ascii.eqb c "#"
  | EmptyString => false
  end.

Module LogParser.

Section Parser.

(** [float(s)]; [None] when it raises [ValueError].  The strings that
    Python reads as [nan] or an infinity have no rational value and are
    outside this model. *)
Variable py_float : string -> option Q.

(** The loop of [parse_csv] over the rows that [csv.reader] yields;
    unpacking a row that has not six cells raises [ValueError]. *)
Fixpoint parse_loop (rows : list (list string)) (records : list LogRecord)
  : result (list LogRecord) :=
  match rows with
  | [] => Ok records
  | row :: rows' =>
      match row with
      | [] => parse_loop rows' records
      | c0 :: _ =>
          if starts_with_hash c0 then parse_loop rows' records
          else
            match row with
            | [timestamp; src; src_ep; dst; dst_ep; latency] =>
                match py_float latency with
                | Some l =>
                    parse_loop rows'
                      (records ++ [mkLogRecord timestamp src src_ep dst dst_ep l])
                | None => Raise ValueError
                end
            | _ => Raise ValueError
            end
      end
  end.

Definition parse_csv (rows : list (list string)) : result (list LogRecord) :=
  parse_loop rows [].

End Parser.

End LogParser.

(** *** [scripts/runtime_server.py]: reading the log *)

Section Tail.

Variable py_float : string -> option Q.

(** [next(csv.reader([line]))]: the cells of one line. *)
Variable csv_row : string -> result (list string).

(** [line.strip()] *)
Variable py_strip : string -> string.

Definition parse_csv_line (line : string) : result (option LogRecord) :=
  (row <- csv_row line ;;
   match row with
   | [] => Ok None
   | c0 :: _ =>
       if starts_with_hash c0 then Ok None
       else
         match row with
         | [timestamp; src; src_ep; dst; dst_ep; latency] =>
             match py_float latency with
             | Some l => Ok (Some (mkLogRecord timestamp src src_ep dst dst_ep l))
             | None => Raise ValueError
             end
         | _ => Raise ValueError
         end
   end)%py.

(** One turn of the loop of [tail_loop] that has read [line]: the records
    after it.  An empty read, a line that raises and a line without a
    record leave the records as they are. *)
Definition tail_line (records : list LogRecord) (line : string) : list LogRecord :=
  match line with
  | EmptyString => records
  | _ =>
      match parse_csv_line (py_strip line) with
      | Raise _ => records
      | Ok None => records
      | Ok (Some rec) => records ++ [rec]
      end
  end.

Definition tail_lines (records : list LogRecord) (lines : list string)
  : list LogRecord :=
  fold_left tail_line lines records.

End Tail.

(** *** [mbd/graph/visualizer.py] *)

Module GraphVisualizer.

(** The two attributes that [render_service_graph] writes on the edges of
    the graph it is given; [None]: the edge has no such attribute. *)
Record EdgeStyle : Type := mkEdgeStyle {
  color    : option string;
  penwidth : option string
}.

Definition no_style : EdgeStyle := mkEdgeStyle None None.

(** [attrs.setdefault(key, value)] *)
Definition setdefault (old : option string) (value : string) : option string :=
  match old with
  | Some v => Some v
  | None => Some value
  end.

(** The body of the loop over the edges. *)
Definition annotate_edge (highlighted : list edge_key) (e : edge_key * EdgeStyle)
  : edge_key * EdgeStyle :=
  if existsb (key_eqb (fst e)) highlighted
  then (fst e, mkEdgeStyle (Some "red"%string) (Some "3"%string))
  else (fst e, mkEdgeStyle (setdefault (color (snd e)) "black")
                           (setdefault (penwidth (snd e)) "1")).

(** The annotation step of [render_service_graph]: the styles of the edges
    of the graph before and after.  [if bottlenecks:] passes over both
    [None] and an empty list. *)
Definition annotate (bottlenecks : option (list edge_key))
  (styles : list (edge_key * EdgeStyle)) : list (edge_key * EdgeStyle) :=
  match bottlenecks with
  | None => styles
  | Some [] => styles
  | Some highlighted => map (annotate_edge highlighted) styles
  end.

(** The node that [render_pyvis] hands to [net.add_node]. *)
Definition pyvis_node (min_load max_load : Q) (n : string * NodeAttrs) : ViewNode :=
  let ld := load (snd n) in
  let size :=
    if Qlt_bool min_load max_load
    then 10 + ((ld - min_load) / (max_load - min_load)) * 50 else 10 in
  let color :=
    if Qlt_bool 0 max_load then
      let intensity :=
        if Qlt_bool min_load max_load
        then Qfloor (255 * ((ld - min_load) / (max_load - min_load))) else 0%Z in
      Some (Z.min 255 (100 + intensity),
            Z.max 50 (200 - intensity),
            Z.max 50 (200 - intensity / 2))%Z
    else None in
  mkViewNode (fst n) ld size color.

(** What [render_pyvis] puts into the network, for the label attribute
    ["avg_latency"] with which the server calls it. *)
Definition render_pyvis (G : DiGraph) (highlighted_edges : option (list edge_key))
  : GraphView :=
  let loads := map (fun n => load (snd n)) (G_nodes G) in
  let min_load := match loads with [] => 0 | x :: l => Qmin_list x l end in
  let max_load := match loads with [] => 0 | x :: l => Qmax_list x l end in
  let highlighted := match highlighted_edges with Some h => h | None => [] end in
  mkGraphView (map (pyvis_node min_load max_load) (G_nodes G))
              (map (view_edge G highlighted) (G_edges G)).

End GraphVisualizer.

(** *** [bin/mbd_main.py] *)

(** [main] after the records are read: the cut edges it collects and the
    styles it leaves on the edges of the graph, which carry none before.
    The report of [print_stats] is not part of the result. *)
Definition mbd_main (py_float : string -> option Q)
  (fromisoformat : string -> option datetime)
  (nx_maximum_flow : max_flow_fn) (nx_minimum_cut : min_cut_fn)
  (rows : list (list string))
  : result (list edge_key * list (edge_key * GraphVisualizer.EdgeStyle)) :=
  (records <- LogParser.parse_csv py_float rows ;;
   G <- GraphBuilder.build_graph fromisoformat records ;;
   _ <- GraphAnalyzer.max_flow nx_maximum_flow G "api-gateway" "db-user" "capacity" ;;
   cut <- GraphAnalyzer.min_cut nx_minimum_cut G "api-gateway" "db-user" "capacity" ;;
   bottlenecks <- collect_cut_edges G (fst (snd cut)) (snd (snd cut)) ;;
   Ok (bottlenecks,
       GraphVisualizer.annotate (Some bottlenecks)
         (map (fun k => (k, GraphVisualizer.no_style)) (G_edges G))))%py.

(** *** [scripts/runtime_server.py]: the handlers *)

Definition empty_view : GraphView := mkGraphView [] [].

(** [/graph-data]: the status and the body. *)
Definition graph_data (m : RuntimeAnalyzer.shared) : Z * GraphView :=
  match RuntimeAnalyzer.latest_graph m with
  | None => (204%Z, empty_view)
  | Some gd => (200%Z, gd)
  end.

(** [/alerts]: the bottlenecks and the number of windows. *)
Definition alerts (m : RuntimeAnalyzer.shared) : list (edge_key * Z) * Z :=
  (RuntimeAnalyzer.latest_bottlenecks m,
   Z.of_nat (List.length (RuntimeAnalyzer.latest_windows m))).

(** [/graph-agg]: the graph of all the records read so far; an exception
    of [build_graph] leaves the handler. *)
Definition graph_agg (fromisoformat : string -> option datetime)
  (m : RuntimeAnalyzer.shared) : result (Z * GraphView) :=
  match RuntimeAnalyzer.records m with
  | [] => Ok (204%Z, empty_view)
  | _ :: _ =>
      (G <- GraphBuilder.build_graph fromisoformat (RuntimeAnalyzer.records m) ;;
       Ok (200%Z, graph_view G []))%py
  end.

(** *** [mbd/graph/dependency_graph.py] *)

Module DependencyGraph.

(** The arrow between the two services of a line (U+2192), in UTF-8. *)
Definition arrow : string :=
  String (ascii_of_nat 226) (String (ascii_of_nat 134)
    (String (ascii_of_nat 146) EmptyString)).

(** The graph of the class, an [nx.DiGraph]: the nodes in the order of
    their insertion, and the entries of the adjacency, each with its
    ["latency"], in the order of their insertion.  [G[u][v]["latency"]] is
    a lookup in the adjacency; [G.edges] lists it node by node (see
    [edges]). *)
Record graph : Type := mkGraph {
  dg_nodes : list string;
  dg_adj   : list (edge_key * Z)
}.

Definition empty : graph := mkGraph [] [].

(** The entries of the adjacency of the node [u]. *)
Definition out_of (u : string) (adj : list (edge_key * Z)) : list (edge_key * Z) :=
  filter (fun e => String.eqb (fst (fst e)) u) adj.

(** [G.edges(data="latency")]: the nodes in the order of their insertion,
    and for each node its edges in the order of their insertion. *)
Definition edges (g : graph) : list (edge_key * Z) :=
  flat_map (fun u => out_of u (dg_adj g)) (dg_nodes g).

(** The attribute of an edge is replaced where the edge exists; a new edge
    goes to the end of the adjacency. *)
Fixpoint set_latency (k : edge_key) (latency : Z) (es : list (edge_key * Z))
  : list (edge_key * Z) :=
  match es with
  | [] => [(k, latency)]
  | (k', l) :: es' =>
      if key_eqb k k' then (k', latency) :: es'
      else (k', l) :: set_latency k latency es'
  end.

(** [self.graph.add_edge(source, target, latency=latency)] *)
Definition add_edge (k : edge_key) (latency : Z) (g : graph) : graph :=
  mkGraph (GraphBuilder.add_node (snd k) (GraphBuilder.add_node (fst k) (dg_nodes g)))
          (set_latency k latency (dg_adj g)).

Section Loader.

(** The string methods and [int] of Python: [s.split(sep)], [s.strip()],
    [s.replace(old, new)], and [int(s)] with [None] for its [ValueError]. *)
Variable py_split : string -> string -> list string.
Variable py_strip : string -> string.
Variable py_replace : string -> string -> string -> string.
Variable py_int : string -> option Z.

(** The body of the [try]: the edge and the latency that a line leads to,
    [None] when an exception is caught (a line that has not exactly one
    arrow, no colon after it, or no integer before ["ms"]). *)
Definition parse_line (line : string) : option (edge_key * Z) :=
  match py_split line arrow with
  | [left_; right_] =>
      let source := py_strip left_ in
      match py_split right_ ":" with
      | target_part :: latency_str :: _ =>
          let target := py_strip target_part in
          match py_int (py_strip (py_replace latency_str "ms" "")) with
          | Some latency => Some ((source, target), latency)
          | None => None
          end
      | _ => None
      end
  | _ => None
  end.

Definition load_line (g : graph) (line : string) : graph :=
  match parse_line line with
  | Some (k, latency) => add_edge k latency g
  | None => g
  end.

Definition load_from_log_lines (g : graph) (lines : list string) : graph :=
  fold_left load_line lines g.

(** The edges that the lines lead to, in their order. *)
Definition calls_of_lines (lines : list string) : list (edge_key * Z) :=
  flat_map (fun line => match parse_line line with
                        | Some c => [c]
                        | None => []
                        end) lines.

End Loader.

(** The services that the calls name, source before target. *)
Definition services (cs : list (edge_key * Z)) : list string :=
  flat_map (fun c => [fst (fst c); snd (fst c)]) cs.

(** The items of a list, each once, in the order of their first
    appearance. *)
Definition first_appearance (l : list string) : list string :=
  rev (nodup string_dec (rev l)).

(** The pairs of the list [ks] that start at [u]. *)
Definition pairs_from (u : string) (ks : list edge_key) : list edge_key :=
  filter (fun k => String.eqb (fst k) u) ks.

End DependencyGraph.

(** Three calls, the third from the source of the first. *)
Definition ex_calls : list (edge_key * Z) :=
  [ (("A", "B")%string, 1%Z); (("C", "D")%string, 2%Z); (("A", "E")%string, 3%Z) ].

(** *** Notions for the further results *)

(** The sum of the counts of a list of entries. *)
Definition total_count (items : list (edge_key * Z)) : Z :=
  fold_right (fun x s => (snd x + s)%Z) 0%Z items.

(** [l1] is the beginning of [l2]. *)
Definition prefix_of {A : Type} (l1 l2 : list A) : Prop :=
  exists rest, l2 = l1 ++ rest.

(** A row that [parse_csv] does not pass over. *)
Definition is_data (row : list string) : bool :=
  match row with
  | [] => false
  | c0 :: _ => negb (starts_with_hash c0)
  end.

(** The record of a data row of six cells whose last one is a number. *)
Definition row_record (py_float : string -> option Q) (row : list string)
  : option LogRecord :=
  match row with
  | [timestamp; src; src_ep; dst; dst_ep; latency] =>
      option_map (mkLogRecord timestamp src src_ep dst dst_ep) (py_float latency)
  | _ => None
  end.

(** The records of the rows that are read. *)
Definition records_of_rows (py_float : string -> option Q) (rows : list (list string))
  : list LogRecord :=
  flat_map (fun row => match row_record py_float row with
                       | Some r => [r]
                       | None => []
                       end)
           (filter is_data rows).

(** The attributes of an edge that do not depend on the order in which
    its latencies are added up: the latencies themselves up to their order,
    the count, the throughput and the two capacities read off it. *)
Definition same_edge (a a' : EdgeAttrs) : Prop :=
  Permutation (times a') (times a)
  /\ count a' = count a
  /\ throughput a' = throughput a
  /\ capacity_throughput a' = capacity_throughput a
  /\ capacity a' = capacity a.

(** The throughputs that the third loop of the builder adds up for a node,
    in the order in which it adds them. *)
Definition in_throughputs (G : DiGraph) (n : string) : list Q :=
  map (fun e => throughput (snd e)) (GraphBuilder.in_edges (G_adj G) n).

Definition out_throughputs (G : DiGraph) (n : string) : list Q :=
  map (fun e => throughput (snd e)) (GraphBuilder.out_edges (G_adj G) n).

(** A log whose second timestamp carries no UTC offset. *)
Definition log_mixed : list LogRecord :=
  [ call "2024-01-01T00:00:00Z" "A" "B" 10;
    call "2024-01-01T00:00:01" "B" "C" 20 ].

(** The state after one more record has been read. *)
Definition state_later : RuntimeAnalyzer.state :=
  RuntimeAnalyzer.mkState
    (RuntimeAnalyzer.mkShared
       (RuntimeAnalyzer.records (RuntimeAnalyzer.mem state_done)
          ++ [call "2024-01-01T00:00:02Z" "C" "D" 5])
       (RuntimeAnalyzer.latest_windows (RuntimeAnalyzer.mem state_done))
       (RuntimeAnalyzer.latest_bottlenecks (RuntimeAnalyzer.mem state_done))
       (RuntimeAnalyzer.latest_graph (RuntimeAnalyzer.mem state_done)))
    RuntimeAnalyzer.Sleeping.

(** A row that [parse_csv] reads without raising: a comment, a blank row,
    or a data row that has a record. *)
Definition well_formed_row (py_float : string -> option Q) (row : list string) : bool :=
  negb (is_data row)
  || match row_record py_float row with Some _ => true | None => false end.

(** Stand-ins for [float], [csv.reader] and [str.strip] on the plain lines
    of the examples: digits only, cells without quotes, no blanks around
    the line. *)
Definition ex_float (s : string) : option Q :=
  match s with
  | EmptyString => None
  | _ => option_map inject_Z (Iso.number_from 0 (list_ascii_of_string s))
  end.

Fixpoint split_commas (cell line : string) : list string :=
  match line with
  | EmptyString => [cell]
  | String c line' =>
      if Ascii.eqb c "," then cell :: split_commas EmptyString line'
      else split_commas (cell ++ String c EmptyString)%string line'
  end.

Definition ex_csv_row (line : string) : result (list string) :=
  match line with
  | EmptyString => Ok []
  | _ => Ok (split_commas EmptyString line)
  end.

Definition ex_strip (line : string) : string := line.

(** Lines of a log file: a comment, two calls, a line with a cell too few
    and a line whose latency is no number. *)
Definition ex_lines : list string :=
  [ "# timestamp,src,src_ep,dst,dst_ep,latency";
    "2024-01-01T00:00:00Z,A,/,B,/,10";
    "2024-01-01T00:00:01Z,B,/,C,/";
    "2024-01-01T00:00:01Z,B,/,C,/,fast";
    "2024-01-01T00:00:01Z,B,/,C,/,20" ]%string.

Definition ex_rows : list (list string) :=
  map (split_commas EmptyString) ex_lines.

(** The style of a highlighted edge, and the one that an edge without
    attributes gets beside highlighted ones. *)
Definition highlight_style : GraphVisualizer.EdgeStyle :=
  GraphVisualizer.mkEdgeStyle (Some "red"%string) (Some "3"%string).

Definition plain_style : GraphVisualizer.EdgeStyle :=
  GraphVisualizer.mkEdgeStyle (Some "black"%string) (Some "1"%string).

(** Styles used as examples: one edge without attributes, one in blue. *)
Definition ex_styles : list (edge_key * GraphVisualizer.EdgeStyle) :=
  [ (("X", "Y")%string, GraphVisualizer.no_style);
    (("Y", "Z")%string,
     GraphVisualizer.mkEdgeStyle (Some "blue"%string) None) ].

(** A file for the one-shot program: two calls from its source to its
    sink. *)
Definition ex_main_rows : list (list string) :=
  map (split_commas EmptyString)
    [ "2024-01-01T00:00:00Z,api-gateway,/,user-service,/,10";
      "2024-01-01T00:00:01Z,user-service,/,db-user,/,20";
      "2024-01-01T00:00:02Z,user-service,/,db-user,/,30" ]%string.

Definition ex_main_result
  : list edge_key * list (edge_key * GraphVisualizer.EdgeStyle) :=
  match mbd_main ex_float Iso.fromisoformat
          FlowCutSolver.maximum_flow FlowCutSolver.minimum_cut ex_main_rows with
  | Ok r => r
  | Raise _ => ([], [])
  end.

(** The graph that the first cycle of the example run publishes. *)
Definition ex_live_view : GraphView :=
  match RuntimeAnalyzer.cycle_graph Iso.fromisoformat log_chain live_windows live_top with
  | Some v => v
  | None => empty_view
  end.

Section LiveNotions.

Variable fromisoformat : string -> option datetime.
Variable nx_maximum_flow : max_flow_fn.
Variable nx_minimum_cut : min_cut_fn.
Variables (source sink : string) (window step : Z) (capacity : string).

(** The states that the threads can reach from a given one. *)
Inductive runs : RuntimeAnalyzer.state -> RuntimeAnalyzer.state -> Prop :=
| runs_refl : forall s, runs s s
| runs_step : forall s s' s'',
    runs s s' ->
    RuntimeAnalyzer.thread_step fromisoformat nx_maximum_flow nx_minimum_cut
      source sink window step capacity s' s'' ->
    runs s s''.

(** The records that the analysis thread holds outside the lock. *)
Definition snapshot_of (s : RuntimeAnalyzer.state) : list LogRecord :=
  match RuntimeAnalyzer.pc s with
  | RuntimeAnalyzer.Sleeping => []
  | RuntimeAnalyzer.Snapshot rc => rc
  | RuntimeAnalyzer.Published rc _ _ => rc
  end.

End LiveNotions.

(** * Results *)

(** ** Generalities *)

Lemma key_eqb_eq (a b : edge_key) : key_eqb a b = true <-> a = b.
Proof.
  destruct a as [a1 a2], b as [b1 b2]; unfold key_eqb; simpl.
  rewrite andb_true_iff, !String.eqb_eq. split.
  - intros [-> ->]; reflexivity.
  - intros [= -> ->]; auto.
Qed.

Lemma key_eqb_refl (a : edge_key) : key_eqb a a = true.
Proof. apply key_eqb_eq; reflexivity. Qed.

Lemma key_eqb_neq (a b : edge_key) : key_eqb a b = false <-> a <> b.
Proof.
  split.
  - intros H E. apply key_eqb_eq in E. congruence.
  - intros H. destruct (key_eqb a b) eqn:E; [apply key_eqb_eq in E; contradiction | reflexivity].
Qed.

Lemma key_eqb_sym (a b : edge_key) : key_eqb a b = key_eqb b a.
Proof.
  destruct (key_eqb a b) eqn:E.
  - apply key_eqb_eq in E; subst; symmetry; apply key_eqb_refl.
  - symmetry; apply key_eqb_neq; apply key_eqb_neq in E; congruence.
Qed.

Lemma Qlt_bool_iff (x y : Q) : Qlt_bool x y = true <-> x < y.
Proof.
  unfold Qlt_bool. rewrite negb_true_iff. split.
  - intros H. apply Qnot_le_lt. intros L. apply Qle_bool_iff in L. congruence.
  - intros H. destruct (Qle_bool y x) eqn:E; [|reflexivity].
    apply Qle_bool_iff in E. exfalso. apply (Qlt_not_le _ _ H E).
Qed.

Lemma Qlt_bool_false (x y : Q) : Qlt_bool x y = false <-> y <= x.
Proof.
  unfold Qlt_bool. rewrite negb_false_iff. apply Qle_bool_iff.
Qed.

Lemma fold_left_Qplus (l : list Q) (a : Q) : fold_left Qplus l a == a + sumQ l.
Proof.
  revert a; induction l as [|x l IH]; intros a; simpl.
  - ring.
  - rewrite IH. ring.
Qed.

Lemma py_sum_sumQ (l : list Q) : py_sum l == sumQ l.
Proof. unfold py_sum. rewrite fold_left_Qplus. ring. Qed.

Lemma sumQ_app (l1 l2 : list Q) : sumQ (l1 ++ l2) == sumQ l1 + sumQ l2.
Proof.
  induction l1 as [|x l1 IH]; simpl.
  - ring.
  - rewrite IH. ring.
Qed.

(** ** Maximum and minimum of datetimes *)

Lemma py_max_from_ok (m : datetime) (l : list datetime) :
  (forall x, In x l -> tz_aware x = tz_aware m) ->
  exists m', py_max_from m l = Ok m'
             /\ tz_aware m' = tz_aware m
             /\ micros m' = fold_left Z.max (map micros l) (micros m).
Proof.
  revert m; induction l as [|x l IH]; intros m H; simpl.
  - eauto.
  - assert (Hx : tz_aware x = tz_aware m) by (apply H; left; reflexivity).
    unfold dt_lt.
    replace (Bool.eqb (tz_aware m) (tz_aware x)) with true
      by (rewrite Hx; symmetry; apply Bool.eqb_reflx).
    simpl. destruct (Z.ltb_spec (micros m) (micros x)) as [L|L].
    + destruct (IH x) as (m' & E & A & M).
      { intros y Hy. rewrite Hx. apply H; right; exact Hy. }
      exists m'. split; [exact E | split; [congruence|]].
      rewrite M. f_equal; lia.
    + destruct (IH m) as (m' & E & A & M).
      { intros y Hy. apply H; right; exact Hy. }
      exists m'. split; [exact E | split; [exact A|]].
      rewrite M. f_equal; lia.
Qed.

Lemma py_min_from_ok (m : datetime) (l : list datetime) :
  (forall x, In x l -> tz_aware x = tz_aware m) ->
  exists m', py_min_from m l = Ok m'
             /\ tz_aware m' = tz_aware m
             /\ micros m' = fold_left Z.min (map micros l) (micros m).
Proof.
  revert m; induction l as [|x l IH]; intros m H; simpl.
  - eauto.
  - assert (Hx : tz_aware x = tz_aware m) by (apply H; left; reflexivity).
    unfold dt_lt.
    replace (Bool.eqb (tz_aware x) (tz_aware m)) with true
      by (rewrite Hx; symmetry; apply Bool.eqb_reflx).
    simpl. destruct (Z.ltb_spec (micros x) (micros m)) as [L|L].
    + destruct (IH x) as (m' & E & A & M).
      { intros y Hy. rewrite Hx. apply H; right; exact Hy. }
      exists m'. split; [exact E | split; [congruence|]].
      rewrite M. f_equal; lia.
    + destruct (IH m) as (m' & E & A & M).
      { intros y Hy. apply H; right; exact Hy. }
      exists m'. split; [exact E | split; [exact A|]].
      rewrite M. f_equal; lia.
Qed.

Lemma py_min_from_first (m : datetime) (l : list datetime) :
  (forall x, In x l -> tz_aware x = tz_aware m) ->
  py_min_from m l = Ok (first_earliest m l).
Proof.
  revert m; induction l as [|x l IH]; intros m H; simpl; [reflexivity|].
  assert (Hx : tz_aware x = tz_aware m) by (apply H; left; reflexivity).
  unfold dt_lt. rewrite Hx, Bool.eqb_reflx. cbn [bind].
  apply IH. intros y Hy.
  destruct (micros x <? micros m)%Z; [rewrite Hx|]; apply H; right; exact Hy.
Qed.

Lemma py_max_ok (x : datetime) (l : list datetime) :
  uniform (x :: l) ->
  exists m, py_max (x :: l) = Ok m /\ tz_aware m = tz_aware x
            /\ micros m = latest (x :: l).
Proof.
  intros U. apply py_max_from_ok.
  intros y Hy. apply U; simpl; auto.
Qed.

Lemma py_min_ok (x : datetime) (l : list datetime) :
  uniform (x :: l) ->
  exists m, py_min (x :: l) = Ok m /\ tz_aware m = tz_aware x
            /\ micros m = earliest (x :: l).
Proof.
  intros U. apply py_min_from_ok.
  intros y Hy. apply U; simpl; auto.
Qed.

Lemma fold_max_ge (l : list Z) (a : Z) :
  (a <= fold_left Z.max l a)%Z /\ (forall x, In x l -> x <= fold_left Z.max l a)%Z.
Proof.
  revert a; induction l as [|y l IH]; intros a; simpl.
  - split; [lia | tauto].
  - destruct (IH (Z.max a y)) as [H1 H2]. split; [lia|].
    intros x [->|Hx]; [lia | auto].
Qed.

Lemma fold_min_le (l : list Z) (a : Z) :
  (fold_left Z.min l a <= a)%Z /\ (forall x, In x l -> fold_left Z.min l a <= x)%Z.
Proof.
  revert a; induction l as [|y l IH]; intros a; simpl.
  - split; [lia | tauto].
  - destruct (IH (Z.min a y)) as [H1 H2]. split; [lia|].
    intros x [->|Hx]; [lia | auto].
Qed.

Lemma fold_max_in (l : list Z) (a : Z) : In (fold_left Z.max l a) (a :: l).
Proof.
  revert a; induction l as [|y l IH]; intros a; simpl.
  - auto.
  - destruct (IH (Z.max a y)) as [E|H]; [|auto].
    rewrite <- E. destruct (Z.max_spec a y) as [[_ ->]|[_ ->]]; auto.
Qed.

Lemma fold_min_in (l : list Z) (a : Z) : In (fold_left Z.min l a) (a :: l).
Proof.
  revert a; induction l as [|y l IH]; intros a; simpl.
  - auto.
  - destruct (IH (Z.min a y)) as [E|H]; [|auto].
    rewrite <- E. destruct (Z.min_spec a y) as [[_ ->]|[_ ->]]; auto.
Qed.

Lemma earliest_le (l : list datetime) (x : datetime) :
  In x l -> (earliest l <= micros x)%Z.
Proof.
  destruct l as [|y l]; simpl; [tauto|].
  intros [->|H].
  - apply (proj1 (fold_min_le _ _)).
  - apply (proj2 (fold_min_le _ _)). apply in_map; exact H.
Qed.

Lemma latest_ge (l : list datetime) (x : datetime) :
  In x l -> (micros x <= latest l)%Z.
Proof.
  destruct l as [|y l]; simpl; [tauto|].
  intros [->|H].
  - apply (proj1 (fold_max_ge _ _)).
  - apply (proj2 (fold_max_ge _ _)). apply in_map; exact H.
Qed.

Lemma earliest_le_latest (l : list datetime) : (earliest l <= latest l)%Z.
Proof.
  destruct l as [|y l]; [simpl; lia|].
  transitivity (micros y).
  - apply earliest_le; left; reflexivity.
  - apply latest_ge; left; reflexivity.
Qed.

Lemma span_seconds_nonneg (l : list datetime) : 0 <= span_seconds l.
Proof.
  unfold span_seconds, total_seconds, Qle; simpl.
  pose proof (earliest_le_latest l). lia.
Qed.

(** ** Dictionaries of edges *)

Section EdgeDict.

Context {V : Type}.
Implicit Types (es : list (edge_key * V)) (k : edge_key).

Lemma lookup_edge_nil k : lookup_edge (@nil (edge_key * V)) k = None.
Proof. reflexivity. Qed.

Lemma lookup_edge_cons es k k' (v : V) :
  lookup_edge ((k', v) :: es) k = if key_eqb k k' then Some v else lookup_edge es k.
Proof. unfold lookup_edge; simpl. destruct (key_eqb k k'); reflexivity. Qed.

Lemma lookup_edge_None es k : lookup_edge es k = None <-> ~ In k (map fst es).
Proof.
  induction es as [|[k' v] es IH].
  - simpl. split; [tauto | reflexivity].
  - rewrite lookup_edge_cons. simpl. destruct (key_eqb k k') eqn:E.
    + apply key_eqb_eq in E. subst. split; [discriminate | tauto].
    + apply key_eqb_neq in E. rewrite IH. split; [intros H [?|?]; [congruence|tauto] | tauto].
Qed.

Lemma lookup_edge_Some_In es k (v : V) : lookup_edge es k = Some v -> In (k, v) es.
Proof.
  induction es as [|[k' v'] es IH].
  - discriminate.
  - rewrite lookup_edge_cons. destruct (key_eqb k k') eqn:E.
    + apply key_eqb_eq in E. subst. intros [= ->]. left; reflexivity.
    + intros H. right. apply IH, H.
Qed.

Lemma In_lookup_edge es k (v : V) :
  NoDup (map fst es) -> In (k, v) es -> lookup_edge es k = Some v.
Proof.
  induction es as [|[k' v'] es IH]; simpl; [tauto|].
  intros ND [H|H]; rewrite lookup_edge_cons.
  - inversion H; subst. rewrite key_eqb_refl. reflexivity.
  - inversion ND as [|? ? N ND']; subst.
    destruct (key_eqb k k') eqn:E.
    + apply key_eqb_eq in E. subst. exfalso. apply N.
      change k' with (fst (k', v)). apply in_map, H.
    + apply IH; assumption.
Qed.

Lemma lookup_edge_app es1 es2 k :
  lookup_edge (es1 ++ es2) k =
  match lookup_edge es1 k with
  | Some v => Some v
  | None => lookup_edge es2 k
  end.
Proof.
  induction es1 as [|[k' v] es1 IH]; simpl.
  - reflexivity.
  - rewrite !lookup_edge_cons. destruct (key_eqb k k'); [reflexivity | exact IH].
Qed.

End EdgeDict.

Lemma lookup_edge_map {V W : Type} (f : V -> W) (es : list (edge_key * V)) (k : edge_key) :
  lookup_edge (map (fun e => (fst e, f (snd e))) es) k = option_map f (lookup_edge es k).
Proof.
  induction es as [|[k' v] es IH]; simpl.
  - reflexivity.
  - rewrite !lookup_edge_cons. simpl. destruct (key_eqb k k'); [reflexivity | exact IH].
Qed.

Lemma map_fst_map_snd {V W : Type} (f : V -> W) (es : list (edge_key * V)) :
  map fst (map (fun e => (fst e, f (snd e))) es) = map fst es.
Proof. rewrite map_map. reflexivity. Qed.

(** ** The first loop of the builder *)

Section BuilderFacts.

Variable fromisoformat : string -> option datetime.

Import GraphBuilder.

Local Abbreviation pass1 := (GraphBuilder.pass1 fromisoformat).
Local Abbreviation pass1_step := (GraphBuilder.pass1_step fromisoformat).
Local Abbreviation build_graph := (GraphBuilder.build_graph fromisoformat).
Local Abbreviation parsed := (parsed_timestamps fromisoformat).

Lemma has_edge_In (es : raw_edges) (k : edge_key) :
  has_edge es k = true <-> In k (map fst es).
Proof.
  unfold has_edge. rewrite existsb_exists. split.
  - intros (e & He & E). apply key_eqb_eq in E. subst. apply in_map, He.
  - intros H. apply in_map_iff in H. destruct H as (e & <- & He).
    exists e. split; [exact He | apply key_eqb_refl].
Qed.

Lemma record_call_keys (k : edge_key) (lat : Q) (es : raw_edges) :
  map fst (record_call k lat es) = map fst es.
Proof.
  induction es as [|[k' [ts c]] es IH]; simpl.
  - reflexivity.
  - destruct (key_eqb k k'); simpl; [reflexivity | rewrite IH; reflexivity].
Qed.

Lemma lookup_record_call (k k0 : edge_key) (lat : Q) (es : raw_edges) :
  lookup_edge (record_call k lat es) k0 =
  if key_eqb k0 k
  then option_map (fun raw => (fst raw ++ [lat], (snd raw + 1)%Z)) (lookup_edge es k0)
  else lookup_edge es k0.
Proof.
  induction es as [|[k' [ts c]] es IH]; simpl.
  - destruct (key_eqb k0 k); reflexivity.
  - destruct (key_eqb k k') eqn:E.
    + apply key_eqb_eq in E. subst k'. rewrite !lookup_edge_cons.
      destruct (key_eqb k0 k); reflexivity.
    + rewrite !lookup_edge_cons. destruct (key_eqb k0 k') eqn:E'.
      * apply key_eqb_eq in E'. subst k'.
        rewrite key_eqb_sym, E. reflexivity.
      * exact IH.
Qed.

Lemma calls_of_snoc (k : edge_key) (l : list LogRecord) (r : LogRecord) :
  calls_of k (l ++ [r]) =
  calls_of k l ++ (if key_eqb k (record_key r) then [r] else []).
Proof. unfold calls_of. rewrite filter_app. reflexivity. Qed.

Lemma parsed_snoc (l : list LogRecord) (r : LogRecord) :
  parsed (l ++ [r]) =
  parsed l ++ match fromisoformat (replace_Z (timestamp r)) with
              | Some d => [d]
              | None => []
              end.
Proof.
  unfold parsed_timestamps. rewrite flat_map_app. simpl. rewrite app_nil_r. reflexivity.
Qed.

Lemma pass1_snoc (l : list LogRecord) (r : LogRecord) :
  pass1 (l ++ [r]) = pass1_step (pass1 l) r.
Proof. unfold GraphBuilder.pass1. rewrite fold_left_app. reflexivity. Qed.

Lemma add_node_In (n m : string) (ns : list string) :
  In m (add_node n ns) <-> m = n \/ In m ns.
Proof.
  unfold add_node. destruct (existsb (String.eqb n) ns) eqn:E.
  - split; [auto|]. intros [->|H]; [|exact H].
    apply existsb_exists in E. destruct E as (x & Hx & E).
    apply String.eqb_eq in E. subst. exact Hx.
  - rewrite in_app_iff. simpl. split; [intros [H|[H|[]]]; auto | intros [H|H]; auto].
Qed.

Lemma add_node_NoDup (n : string) (ns : list string) :
  NoDup ns -> NoDup (add_node n ns).
Proof.
  intros ND. unfold add_node. destruct (existsb (String.eqb n) ns) eqn:E; [exact ND|].
  apply NoDup_app; [exact ND | constructor; [simpl; tauto | constructor] |].
  intros x Hx [Hnx|[]]. subst x.
  assert (existsb (String.eqb n) ns = true).
  { apply existsb_exists. exists n. split; [exact Hx | apply String.eqb_refl]. }
  congruence.
Qed.

(** What the first loop has computed once the records are read. *)
Lemma pass1_spec (records : list LogRecord) :
  forall ns es tss,
    pass1 records = (ns, es, tss) ->
    tss = parsed records
    /\ NoDup (map fst es)
    /\ (forall k, lookup_edge es k = raw_of (calls_of k records))
    /\ NoDup ns
    /\ (forall n, In n ns <-> exists k, In k (map fst es) /\ (n = fst k \/ n = snd k)).
Proof.
  induction records as [|r l IH] using rev_ind; intros ns es tss E.
  - inversion E; subst. simpl. repeat split; try constructor; try tauto.
    intros (k & [] & _).
  - rewrite pass1_snoc in E.
    destruct (GraphBuilder.pass1 fromisoformat l) as [[ns0 es0] tss0] eqn:E0.
    destruct (IH _ _ _ eq_refl) as (Ht & Hk & Hl & Hn & Hm).
    unfold GraphBuilder.pass1_step in E.
    assert (Htss : tss = parsed (l ++ [r])).
    { rewrite parsed_snoc, <- Ht.
      destruct (has_edge es0 (src_service r, dst_service r));
        inversion E; subst;
        destruct (fromisoformat (replace_Z (timestamp r))); try rewrite app_nil_r; reflexivity. }
    split; [exact Htss|]. clear Htss.
    destruct (has_edge es0 (src_service r, dst_service r)) eqn:Eh.
    + inversion E; subst ns es. clear E.
      apply has_edge_In in Eh.
      split; [rewrite record_call_keys; exact Hk|].
      split.
      { intros k. rewrite lookup_record_call, calls_of_snoc, Hl.
        unfold record_key. destruct (key_eqb k (src_service r, dst_service r)) eqn:Ek.
        - apply key_eqb_eq in Ek. subst k.
          destruct (calls_of (src_service r, dst_service r) l) as [|c cs] eqn:Ec.
          + exfalso. apply (proj1 (lookup_edge_None es0 _)) in Eh; [exact Eh|].
            rewrite Hl, Ec. reflexivity.
          + simpl. rewrite map_app, length_app. simpl.
            do 3 f_equal. lia.
        - rewrite app_nil_r. reflexivity. }
      split; [exact Hn|].
      intros n. rewrite record_call_keys. apply Hm.
    + unfold add_edge in E. inversion E; subst ns es. clear E.
      assert (Hnot : ~ In (src_service r, dst_service r) (map fst es0)).
      { intros H. apply has_edge_In in H. congruence. }
      split.
      { rewrite map_app. simpl. apply NoDup_app; [exact Hk | constructor; [simpl; tauto|constructor] |].
        intros x Hx [<-|[]]. contradiction. }
      split.
      { intros k. rewrite lookup_edge_app, calls_of_snoc, Hl.
        unfold record_key. rewrite lookup_edge_cons, lookup_edge_nil.
        destruct (key_eqb k (src_service r, dst_service r)) eqn:Ek.
        - apply key_eqb_eq in Ek. subst k.
          apply lookup_edge_None in Hnot. rewrite Hl in Hnot.
          destruct (calls_of (src_service r, dst_service r) l); [|discriminate].
          reflexivity.
        - rewrite app_nil_r. destruct (raw_of (calls_of k l)); reflexivity. }
      split; [apply add_node_NoDup, add_node_NoDup, Hn|].
      intros n. simpl. rewrite !add_node_In, Hm, map_app. simpl. split.
      * intros [->|[->|(k & Hk' & Hor)]].
        -- exists (src_service r, dst_service r). rewrite in_app_iff. simpl. auto.
        -- exists (src_service r, dst_service r). rewrite in_app_iff. simpl. auto.
        -- exists k. rewrite in_app_iff. auto.
      * intros (k & Hk' & Hor). apply in_app_iff in Hk'. destruct Hk' as [Hk'|[<-|[]]].
        -- right; right. exists k; auto.
        -- simpl in Hor. destruct Hor; auto.
Qed.


Lemma py_max_from_inv (m m' : datetime) (l : list datetime) :
  py_max_from m l = Ok m' ->
  (forall x, In x l -> tz_aware x = tz_aware m)
  /\ micros m' = fold_left Z.max (map micros l) (micros m).
Proof.
  revert m; induction l as [|x l IH]; intros m; simpl.
  - intros [= ->]. split; [tauto | reflexivity].
  - unfold dt_lt. destruct (Bool.eqb (tz_aware m) (tz_aware x)) eqn:Eb; [|discriminate].
    apply Bool.eqb_prop in Eb. simpl. intros H. apply IH in H. destruct H as [H1 H2].
    destruct (Z.ltb_spec (micros m) (micros x)) as [L|L].
    + split.
      * intros y [<-|Hy]; [congruence|]. rewrite (H1 y Hy). congruence.
      * rewrite H2. f_equal; lia.
    + split.
      * intros y [<-|Hy]; [congruence | auto].
      * rewrite H2. f_equal; lia.
Qed.

Lemma py_min_from_inv (m m' : datetime) (l : list datetime) :
  py_min_from m l = Ok m' ->
  (forall x, In x l -> tz_aware x = tz_aware m)
  /\ micros m' = fold_left Z.min (map micros l) (micros m).
Proof.
  revert m; induction l as [|x l IH]; intros m; simpl.
  - intros [= ->]. split; [tauto | reflexivity].
  - unfold dt_lt. destruct (Bool.eqb (tz_aware x) (tz_aware m)) eqn:Eb; [|discriminate].
    apply Bool.eqb_prop in Eb. simpl. intros H. apply IH in H. destruct H as [H1 H2].
    destruct (Z.ltb_spec (micros x) (micros m)) as [L|L].
    + split.
      * intros y [<-|Hy]; [congruence|]. rewrite (H1 y Hy). congruence.
      * rewrite H2. f_equal; lia.
    + split.
      * intros y [<-|Hy]; [congruence | auto].
      * rewrite H2. f_equal; lia.
Qed.

Lemma duration_of_ok (tss : list datetime) :
  uniform tss -> duration_of tss = Ok (span_of tss).
Proof.
  intros U. destruct tss as [|t l]; [reflexivity|].
  unfold duration_of.
  destruct (py_max_ok t l U) as (mx & Emx & Amx & Mmx).
  destruct (py_min_ok t l U) as (mn & Emn & Amn & Mmn).
  rewrite Emx, Emn. simpl bind. unfold dt_sub.
  rewrite Amx, Amn, Bool.eqb_reflx. simpl bind.
  unfold span_of, span_seconds. rewrite Mmx, Mmn. reflexivity.
Qed.

Lemma duration_of_inv (tss : list datetime) (d : Q) :
  duration_of tss = Ok d -> d = span_of tss.
Proof.
  destruct tss as [|t l]; [intros [= <-]; reflexivity|].
  unfold duration_of.
  destruct (py_max (t :: l)) as [mx|] eqn:Emx; [|discriminate].
  destruct (py_min (t :: l)) as [mn|] eqn:Emn; [|discriminate].
  simpl bind. unfold dt_sub.
  destruct (Bool.eqb (tz_aware mx) (tz_aware mn)); [|discriminate].
  simpl bind. intros [= <-].
  apply py_max_from_inv in Emx. apply py_min_from_inv in Emn.
  destruct Emx as [_ Mmx], Emn as [_ Mmn].
  unfold span_of, span_seconds. simpl latest. simpl earliest.
  rewrite Mmx, Mmn. reflexivity.
Qed.

Lemma span_of_pos (tss : list datetime) : 0 < span_of tss.
Proof.
  unfold span_of. destruct tss as [|t l]; [reflexivity|].
  destruct (Qle_bool (span_seconds (t :: l)) 0) eqn:E; [reflexivity|].
  apply Qnot_le_lt. intros H. apply Qle_bool_iff in H. congruence.
Qed.

(** The shape of a graph that the builder returns. *)
Lemma build_graph_inv (records : list LogRecord) (g : DiGraph) :
  build_graph records = Ok g ->
  exists ns es,
    pass1 records = (ns, es, parsed records)
    /\ duration_of (parsed records) = Ok (span_of (parsed records))
    /\ G_adj g = map (fun e => (fst e, derive_edge (span_of (parsed records)) (snd e))) es
    /\ G_nodes g = map (fun n => (n, derive_node (G_adj g) n)) ns.
Proof.
  unfold GraphBuilder.build_graph.
  destruct (GraphBuilder.pass1 fromisoformat records) as [[ns es] tss] eqn:E.
  destruct (pass1_spec _ _ _ _ E) as (Ht & _). subst tss.
  destruct (duration_of (parsed records)) as [d|] eqn:Ed; [|discriminate].
  simpl bind. intros [= <-].
  pose proof (duration_of_inv _ _ Ed) as Hd. subst d.
  exists ns, es. simpl. auto.
Qed.

Lemma build_graph_ok (records : list LogRecord) :
  uniform (parsed records) -> exists g, build_graph records = Ok g.
Proof.
  intros U. unfold GraphBuilder.build_graph.
  destruct (GraphBuilder.pass1 fromisoformat records) as [[ns es] tss] eqn:E.
  destruct (pass1_spec _ _ _ _ E) as (Ht & _). subst tss.
  rewrite (duration_of_ok _ U). simpl bind. eauto.
Qed.

(** The attributes of every service pair, from the records of the pair. *)
Lemma build_graph_edge_attrs (records : list LogRecord) (g : DiGraph) (k : edge_key) :
  build_graph records = Ok g ->
  edge_attrs g k =
  option_map (derive_edge (span_of (parsed records))) (raw_of (calls_of k records)).
Proof.
  intros H. destruct (build_graph_inv _ _ H) as (ns & es & E & _ & Ha & _).
  destruct (pass1_spec _ _ _ _ E) as (_ & _ & Hl & _).
  unfold edge_attrs. rewrite Ha, lookup_edge_map, Hl. reflexivity.
Qed.

Lemma build_graph_keys_NoDup (records : list LogRecord) (g : DiGraph) :
  build_graph records = Ok g -> NoDup (map fst (G_adj g)).
Proof.
  intros H. destruct (build_graph_inv _ _ H) as (ns & es & E & _ & Ha & _).
  destruct (pass1_spec _ _ _ _ E) as (_ & Hk & _).
  rewrite Ha, map_fst_map_snd. exact Hk.
Qed.

Lemma build_graph_nodes (records : list LogRecord) (g : DiGraph) :
  build_graph records = Ok g ->
  NoDup (node_names g)
  /\ forall n, In n (node_names g) <->
               exists k, In k (map fst (G_adj g)) /\ (n = fst k \/ n = snd k).
Proof.
  intros H. destruct (build_graph_inv _ _ H) as (ns & es & E & _ & Ha & Hn).
  destruct (pass1_spec _ _ _ _ E) as (_ & _ & _ & Hnd & Hm).
  unfold node_names. rewrite Hn, map_map. simpl. rewrite map_id.
  split; [exact Hnd|].
  intros n. rewrite Hm, Ha, map_fst_map_snd. reflexivity.
Qed.

Lemma build_graph_node_attrs (records : list LogRecord) (g : DiGraph)
  (n : string) (na : NodeAttrs) :
  build_graph records = Ok g ->
  In (n, na) (G_nodes g) -> na = derive_node (G_adj g) n.
Proof.
  intros H. destruct (build_graph_inv _ _ H) as (ns & es & _ & _ & _ & Hn).
  rewrite Hn. intros Hin. apply in_map_iff in Hin.
  destruct Hin as (x & [= <- <-] & _). reflexivity.
Qed.

(** A node of a built graph is a service that some record names. *)
Lemma build_graph_has_node (records : list LogRecord) (g : DiGraph) (n : string) :
  build_graph records = Ok g ->
  (has_node g n = true <->
   exists r, In r records /\ (src_service r = n \/ dst_service r = n)).
Proof.
  intros H. destruct (build_graph_nodes _ _ H) as [_ Hn].
  unfold has_node. rewrite existsb_exists. split.
  - intros (x & Hx & E). apply String.eqb_eq in E. subst x.
    apply Hn in Hx. destruct Hx as (k & Hk & Hor).
    assert (Hl : edge_attrs g k <> None).
    { unfold edge_attrs. intros Hnone. apply lookup_edge_None in Hnone. contradiction. }
    rewrite (build_graph_edge_attrs _ _ k H) in Hl.
    destruct (calls_of k records) as [|r cs] eqn:Ec; [simpl in Hl; congruence|].
    assert (Hr : In r (calls_of k records)) by (rewrite Ec; left; reflexivity).
    apply filter_In in Hr. destruct Hr as [Hr Ek]. apply key_eqb_eq in Ek. subst k.
    exists r. split; [exact Hr|]. simpl in Hor. destruct Hor; auto.
  - intros (r & Hr & Hor).
    assert (Hk : In (record_key r) (map fst (G_adj g))).
    { destruct (lookup_edge (G_adj g) (record_key r)) eqn:El.
      - apply lookup_edge_Some_In in El. change (record_key r) with (fst (record_key r, e)).
        apply in_map, El.
      - exfalso. fold (edge_attrs g (record_key r)) in El.
        rewrite (build_graph_edge_attrs _ _ _ H) in El.
        destruct (calls_of (record_key r) records) eqn:Ec; [|discriminate].
        assert (Hin : In r (calls_of (record_key r) records)).
        { apply filter_In. split; [exact Hr | apply key_eqb_refl]. }
        rewrite Ec in Hin. exact Hin. }
    exists n. split; [|apply String.eqb_refl].
    apply Hn. exists (record_key r). split; [exact Hk|].
    unfold record_key; simpl. destruct Hor; auto.
Qed.

End BuilderFacts.

(** ** Sums over the edges of a node *)

Lemma sumQ_map_ext {A : Type} (f g : A -> Q) (l : list A) :
  (forall x, In x l -> f x == g x) -> sumQ (map f l) == sumQ (map g l).
Proof.
  induction l as [|x l IH]; intros H; simpl.
  - reflexivity.
  - rewrite (H x (or_introl eq_refl)), IH; [reflexivity|].
    intros y Hy. apply H. right; exact Hy.
Qed.

Lemma sumQ_map_plus {A : Type} (f g : A -> Q) (l : list A) :
  sumQ (map (fun x => f x + g x) l) == sumQ (map f l) + sumQ (map g l).
Proof.
  induction l as [|x l IH]; simpl.
  - ring.
  - rewrite IH. ring.
Qed.

Lemma sumQ_map_zero {A : Type} (l : list A) : sumQ (map (fun _ => 0) l) == 0.
Proof.
  induction l as [|x l IH]; simpl.
  - reflexivity.
  - rewrite IH. ring.
Qed.

(** A weight placed on one name of a duplicate-free list is counted once. *)
Lemma sumQ_indicator (n : string) (w : Q) (ns : list string) :
  NoDup ns -> In n ns ->
  sumQ (map (fun m => if String.eqb n m then w else 0) ns) == w.
Proof.
  induction ns as [|m ns IH]; intros ND Hin; [destruct Hin|].
  inversion ND as [|? ? Hm ND']; subst. simpl.
  destruct (String.eqb_spec n m) as [->|Hne].
  - rewrite (sumQ_map_ext (fun m0 => if String.eqb m m0 then w else 0) (fun _ => 0)).
    + rewrite sumQ_map_zero. ring.
    + intros x Hx. destruct (String.eqb_spec m x) as [->|_]; [contradiction | reflexivity].
  - destruct Hin as [->|Hin]; [congruence|].
    rewrite (IH ND' Hin). ring.
Qed.

(** Grouping the items of a list by a key that ranges over [ns]. *)
Lemma sumQ_by_key {A : Type} (key : A -> string) (w : A -> Q)
  (ns : list string) (es : list A) :
  NoDup ns -> (forall e, In e es -> In (key e) ns) ->
  sumQ (map (fun n => sumQ (map w (filter (fun e => String.eqb (key e) n) es))) ns)
  == sumQ (map w es).
Proof.
  intros ND. induction es as [|e es IH]; intros Hk; simpl.
  - apply sumQ_map_zero.
  - rewrite (sumQ_map_ext _
      (fun n => (if String.eqb (key e) n then w e else 0)
                + sumQ (map w (filter (fun e0 => String.eqb (key e0) n) es)))).
    + rewrite sumQ_map_plus, IH, sumQ_indicator.
      * reflexivity.
      * exact ND.
      * apply Hk; left; reflexivity.
      * intros e0 He0. apply Hk; right; exact He0.
    + intros n _. destruct (String.eqb (key e) n); simpl; ring.
Qed.

Lemma sum_throughput_sumQ (es : list (edge_key * EdgeAttrs)) :
  GraphBuilder.sum_throughput es == sumQ (map (fun e => throughput (snd e)) es).
Proof.
  unfold GraphBuilder.sum_throughput.
  assert (H : forall a, fold_left (fun acc e => acc + throughput (snd e)) es a
                        == a + sumQ (map (fun e => throughput (snd e)) es)).
  { induction es as [|e es IH]; intros a; simpl.
    - ring.
    - rewrite IH. ring. }
  rewrite H. ring.
Qed.

(** ** The edges of a graph *)

Lemma successors_In (g : DiGraph) (u v : string) :
  In v (successors g u) <-> In (u, v) (map fst (G_adj g)).
Proof.
  unfold successors. rewrite !in_map_iff. split.
  - intros ([[u' v'] a] & <- & H). apply filter_In in H. destruct H as [H E].
    simpl in E. apply String.eqb_eq in E. subst u'.
    exists (u, v', a). split; [reflexivity | exact H].
  - intros ([[u' v'] a] & [= -> ->] & H).
    exists (u, v, a). split; [reflexivity|].
    apply filter_In. split; [exact H | apply String.eqb_refl].
Qed.

Lemma G_edges_In (g : DiGraph) (u v : string) :
  In (u, v) (G_edges g) <-> In u (node_names g) /\ In (u, v) (map fst (G_adj g)).
Proof.
  unfold G_edges. rewrite in_flat_map. split.
  - intros (u' & Hu & H). apply in_map_iff in H. destruct H as (v' & [= -> ->] & H).
    split; [exact Hu | apply successors_In, H].
  - intros [Hu H]. exists u. split; [exact Hu|].
    apply in_map, successors_In, H.
Qed.

(** ** The graph builder: edges, capacities, loads *)

Section BuilderClaims.

Variable fromisoformat : string -> option datetime.

Local Abbreviation build_graph := (GraphBuilder.build_graph fromisoformat).
Local Abbreviation parsed := (parsed_timestamps fromisoformat).

Lemma build_graph_edges (records : list LogRecord) (g : DiGraph) (k : edge_key) :
  build_graph records = Ok g ->
  (In k (G_edges g) <-> In k (map fst (G_adj g))).
Proof.
  intros H. destruct k as [u v]. rewrite G_edges_In. split; [tauto|].
  intros Hk. split; [|exact Hk].
  apply (build_graph_nodes _ _ _ H). exists (u, v). auto.
Qed.

Lemma derive_edge_capacities (d : Q) (raw : list Q * Z) :
  let a := GraphBuilder.derive_edge d raw in
  (0 < avg_latency a -> capacity_latency a = 1 / avg_latency a)
  /\ (~ 0 < avg_latency a -> capacity_latency a = 0)
  /\ capacity_throughput a = throughput a
  /\ (0 < throughput a -> capacity a = throughput a)
  /\ (~ 0 < throughput a -> capacity a = capacity_latency a).
Proof.
  destruct raw as [ts c]. simpl.
  repeat split.
  - intros H. apply Qlt_bool_iff in H. rewrite H. reflexivity.
  - intros H. destruct (Qlt_bool 0 (py_sum ts / inject_Z (Z.of_nat (List.length ts)))) eqn:E;
      [apply Qlt_bool_iff in E; contradiction | reflexivity].
  - intros H. apply Qlt_bool_iff in H. rewrite H. reflexivity.
  - intros H. destruct (Qlt_bool 0 (inject_Z c / d)) eqn:E;
      [apply Qlt_bool_iff in E; contradiction | reflexivity].
Qed.

Lemma build_graph_edge_In (records : list LogRecord) (g : DiGraph)
  (k : edge_key) (a : EdgeAttrs) :
  build_graph records = Ok g ->
  edge_attrs g k = Some a ->
  calls_of k records <> []
  /\ a = GraphBuilder.derive_edge (span_of (parsed records))
           (map latency (calls_of k records),
            Z.of_nat (List.length (calls_of k records))).
Proof.
  intros H Ha. rewrite (build_graph_edge_attrs _ _ _ k H) in Ha.
  destruct (calls_of k records) as [|r cs]; [discriminate|].
  split; [discriminate|]. injection Ha as <-. reflexivity.
Qed.

(** C6.  On every edge of a graph that [build_graph] returns, the
    latency-based capacity is [1 / avg_latency] when the average latency is
    positive and [0] otherwise, the throughput-based capacity is the
    throughput, and the default capacity is the throughput when the
    throughput is positive and the latency-based capacity otherwise. *)
Theorem edge_capacities (records : list LogRecord) (g : DiGraph) (k : edge_key) :
  build_graph records = Ok g ->
  In k (G_edges g) ->
  exists a, edge_attrs g k = Some a
    /\ (0 < avg_latency a -> capacity_latency a = 1 / avg_latency a)
    /\ (~ 0 < avg_latency a -> capacity_latency a = 0)
    /\ capacity_throughput a = throughput a
    /\ (0 < throughput a -> capacity a = throughput a)
    /\ (~ 0 < throughput a -> capacity a = capacity_latency a).
Proof.
  intros H Hk. apply (build_graph_edges _ _ k H) in Hk.
  destruct (edge_attrs g k) as [a|] eqn:Ea.
  - exists a. split; [reflexivity|].
    destruct (build_graph_edge_In _ _ k a H Ea) as [_ ->].
    apply derive_edge_capacities.
  - exfalso. unfold edge_attrs in Ea. apply lookup_edge_None in Ea. contradiction.
Qed.

(** C7.  On every node of a graph that [build_graph] returns, the load is
    the incoming plus the outgoing throughput, these being the sums of the
    throughputs of the edges into and out of the node; and over all nodes
    the outgoing throughputs add up to the same total as the incoming
    ones. *)
Theorem node_load_balance (records : list LogRecord) (g : DiGraph) :
  build_graph records = Ok g ->
  (forall n na, In (n, na) (G_nodes g) ->
     load na = in_throughput na + out_throughput na
     /\ in_throughput na ==
        sumQ (map (fun e => throughput (snd e)) (GraphBuilder.in_edges (G_adj g) n))
     /\ out_throughput na ==
        sumQ (map (fun e => throughput (snd e)) (GraphBuilder.out_edges (G_adj g) n)))
  /\ sumQ (map (fun n => out_throughput (snd n)) (G_nodes g))
     == sumQ (map (fun n => in_throughput (snd n)) (G_nodes g)).
Proof.
  intros H. split.
  - intros n na Hin. rewrite (build_graph_node_attrs _ _ _ _ _ H Hin). simpl.
    split; [reflexivity|]. split; apply sum_throughput_sumQ.
  - destruct (build_graph_nodes _ _ _ H) as [ND Hn].
    assert (Hsrc : forall e, In e (G_adj g) -> In (fst (fst e)) (node_names g)).
    { intros e He. apply Hn. exists (fst e). split; [apply in_map, He | auto]. }
    assert (Hdst : forall e, In e (G_adj g) -> In (snd (fst e)) (node_names g)).
    { intros e He. apply Hn. exists (fst e). split; [apply in_map, He | auto]. }
    assert (Hout : sumQ (map (fun n => out_throughput (snd n)) (G_nodes g))
                   == sumQ (map (fun e => throughput (snd e)) (G_adj g))).
    { rewrite <- (sumQ_by_key (fun e => fst (fst e)) (fun e => throughput (snd e)) _ _ ND Hsrc).
      unfold node_names. rewrite map_map. apply sumQ_map_ext.
      intros [n na] Hin. rewrite (build_graph_node_attrs _ _ _ _ _ H Hin). simpl.
      apply sum_throughput_sumQ. }
    assert (Hinc : sumQ (map (fun n => in_throughput (snd n)) (G_nodes g))
                   == sumQ (map (fun e => throughput (snd e)) (G_adj g))).
    { rewrite <- (sumQ_by_key (fun e => snd (fst e)) (fun e => throughput (snd e)) _ _ ND Hdst).
      unfold node_names. rewrite map_map. apply sumQ_map_ext.
      intros [n na] Hin. rewrite (build_graph_node_attrs _ _ _ _ _ H Hin). simpl.
      apply sum_throughput_sumQ. }
    rewrite Hout, Hinc. reflexivity.
Qed.

(** C2 (as the code has it).  When the timestamps that parse are all
    offset-aware or all naive, [build_graph] returns a graph, and every
    edge's throughput is its call count divided by a span [d] that is: 1
    when no timestamp parses; the seconds between the earliest and the
    latest parsed timestamp when that difference is positive; 1 when the
    difference is zero.  A positive difference below one second is used as
    it is. *)
Theorem observation_span (records : list LogRecord) :
  uniform (parsed records) ->
  exists g d,
    build_graph records = Ok g
    /\ (forall k a, edge_attrs g k = Some a -> throughput a = inject_Z (count a) / d)
    /\ (parsed records = [] -> d = 1)
    /\ (parsed records <> [] -> 0 < span_seconds (parsed records) ->
        d = span_seconds (parsed records))
    /\ (parsed records <> [] -> ~ 0 < span_seconds (parsed records) -> d = 1).
Proof.
  intros U. destruct (build_graph_ok fromisoformat _ U) as [g H].
  exists g, (span_of (parsed records)). split; [exact H|]. split.
  - intros k a Ha. destruct (build_graph_edge_In _ _ k a H Ha) as [_ ->]. reflexivity.
  - unfold span_of. destruct (parsed records) as [|t l]; [tauto|].
    split; [discriminate|]. split.
    + intros _ Hp. destruct (Qle_bool (span_seconds (t :: l)) 0) eqn:E; [|reflexivity].
      apply Qle_bool_iff in E. exfalso. apply (Qlt_not_le _ _ Hp E).
    + intros _ Hp. destruct (Qle_bool (span_seconds (t :: l)) 0) eqn:E; [reflexivity|].
      exfalso. apply Hp. apply Qnot_le_lt. intros L. apply Qle_bool_iff in L. congruence.
Qed.

Lemma parsed_skip (l1 l2 : list LogRecord) (r : LogRecord) :
  fromisoformat (replace_Z (timestamp r)) = None ->
  parsed (l1 ++ r :: l2) = parsed (l1 ++ l2).
Proof.
  intros E. unfold parsed_timestamps. rewrite !flat_map_app. simpl. rewrite E. reflexivity.
Qed.

Lemma calls_of_insert (l1 l2 : list LogRecord) (r : LogRecord) :
  calls_of (record_key r) (l1 ++ r :: l2)
  = calls_of (record_key r) l1 ++ r :: calls_of (record_key r) l2.
Proof. unfold calls_of. rewrite filter_app. simpl. rewrite key_eqb_refl. reflexivity. Qed.

Lemma throughput_grows (n : nat) (d : Q) :
  0 < d -> inject_Z (Z.of_nat n) / d < inject_Z (Z.of_nat (S n)) / d.
Proof.
  intros Hd. unfold Qdiv. apply Qmult_lt_compat_r.
  - apply Qinv_lt_0_compat, Hd.
  - rewrite <- Zlt_Qlt. lia.
Qed.

Lemma throughput_pos (n : nat) (d : Q) :
  0 < d -> 0 < inject_Z (Z.of_nat (S n)) / d.
Proof.
  intros Hd. unfold Qdiv. apply Qmult_lt_0_compat.
  - change 0 with (inject_Z 0). rewrite <- Zlt_Qlt. lia.
  - apply Qinv_lt_0_compat, Hd.
Qed.

Lemma derive_edge_fields (d : Q) (ts : list Q) (c : Z) :
  let a := GraphBuilder.derive_edge d (ts, c) in
  times a = ts
  /\ count a = c
  /\ avg_latency a = py_sum ts / inject_Z (Z.of_nat (List.length ts))
  /\ throughput a = inject_Z c / d
  /\ capacity_throughput a = inject_Z c / d
  /\ (0 < inject_Z c / d -> capacity a = inject_Z c / d).
Proof.
  simpl. repeat split. intros H. apply Qlt_bool_iff in H. rewrite H. reflexivity.
Qed.

Lemma raw_of_nonempty (cs : list LogRecord) :
  cs <> [] -> raw_of cs = Some (map latency cs, Z.of_nat (List.length cs)).
Proof. destruct cs; [congruence | reflexivity]. Qed.

Lemma build_graph_uniform (records : list LogRecord) (g : DiGraph) :
  build_graph records = Ok g -> uniform (parsed records).
Proof.
  intros H. destruct (build_graph_inv _ _ _ H) as (ns & es & _ & Hd & _).
  unfold uniform. intros a b Ha Hb.
  destruct (parsed records) as [|t l] eqn:Et; [destruct Ha|].
  unfold GraphBuilder.duration_of in Hd.
  destruct (py_max (t :: l)) as [mx|] eqn:Emx; [|discriminate].
  apply py_max_from_inv in Emx. destruct Emx as [Hu _].
  assert (Ht : forall x, In x (t :: l) -> tz_aware x = tz_aware t).
  { intros x [<-|Hx]; [reflexivity | apply Hu, Hx]. }
  rewrite (Ht a Ha), (Ht b Hb). reflexivity.
Qed.

(** C10.  A record whose timestamp does not parse still enters the latency
    list and the call count of its edge: only the span ignores it.  With the
    record, the edge has one call more than without it, the span is the
    same, and so the throughput of the edge, its throughput-based capacity
    and its default capacity are larger than without the record (the
    latency-based capacity follows the latencies, the record's included). *)
Theorem unparsable_timestamp_still_counted
  (l1 l2 : list LogRecord) (r : LogRecord) (g : DiGraph) :
  fromisoformat (replace_Z (timestamp r)) = None ->
  build_graph (l1 ++ r :: l2) = Ok g ->
  let k := record_key r in
  exists a g0,
    edge_attrs g k = Some a
    /\ times a = map latency (calls_of k l1) ++ latency r :: map latency (calls_of k l2)
    /\ count a = (Z.of_nat (List.length (calls_of k (l1 ++ l2))) + 1)%Z
    /\ avg_latency a = py_sum (times a) / inject_Z (Z.of_nat (List.length (times a)))
    /\ build_graph (l1 ++ l2) = Ok g0
    /\ span_of (parsed (l1 ++ r :: l2)) = span_of (parsed (l1 ++ l2))
    /\ throughput a = inject_Z (count a) / span_of (parsed (l1 ++ l2))
    /\ match edge_attrs g0 k with
       | Some a0 =>
           count a = (count a0 + 1)%Z
           /\ throughput a0 < throughput a
           /\ capacity_throughput a0 < capacity_throughput a
           /\ capacity a0 < capacity a
       | None => 0 < throughput a /\ 0 < capacity_throughput a /\ 0 < capacity a
       end.
Proof.
  intros Er H k.
  pose proof (parsed_skip l1 l2 r Er) as Hp.
  assert (U : uniform (parsed (l1 ++ l2))).
  { rewrite <- Hp. apply (build_graph_uniform _ _ H). }
  destruct (build_graph_ok fromisoformat _ U) as [g0 H0].
  pose proof (build_graph_edge_attrs _ _ _ k H) as Ea.
  pose proof (build_graph_edge_attrs _ _ _ k H0) as Ea0.
  unfold k in Ea. rewrite calls_of_insert in Ea. fold k in Ea.
  rewrite Hp in Ea.
  set (d := span_of (parsed (l1 ++ l2))) in *.
  assert (Hpos : 0 < d) by apply span_of_pos.
  set (CS := calls_of k l1 ++ r :: calls_of k l2) in *.
  assert (Elen : List.length CS = S (List.length (calls_of k (l1 ++ l2)))).
  { unfold CS, calls_of. rewrite filter_app, !length_app. simpl. lia. }
  rewrite raw_of_nonempty in Ea by (unfold CS; destruct (calls_of k l1); discriminate).
  cbn [option_map] in Ea.
  destruct (derive_edge_fields d (map latency CS) (Z.of_nat (List.length CS)))
    as (Ft & Fc & Fa & Fth & Fct & Fcap).
  assert (Hthr : 0 < inject_Z (Z.of_nat (List.length CS)) / d).
  { rewrite Elen. apply throughput_pos, Hpos. }
  specialize (Fcap Hthr).
  eexists. exists g0. split; [exact Ea|].
  rewrite Ft, Fc, Fa, Fth, Fct, Fcap, Hp.
  split; [unfold CS; rewrite map_app; reflexivity|].
  split; [rewrite Elen; lia|]. split; [reflexivity|]. split; [exact H0|].
  split; [reflexivity|]. split; [reflexivity|].
  rewrite Ea0. fold d.
  destruct (calls_of k (l1 ++ l2)) as [|c0 cs0] eqn:Ec0.
  - simpl. auto.
  - rewrite raw_of_nonempty by discriminate. cbn [option_map].
    destruct (derive_edge_fields d (map latency (c0 :: cs0))
                (Z.of_nat (List.length (c0 :: cs0))))
      as (_ & Fc0 & _ & Fth0 & Fct0 & Fcap0).
    assert (Hthr0 : 0 < inject_Z (Z.of_nat (List.length (c0 :: cs0))) / d).
    { apply throughput_pos, Hpos. }
    specialize (Fcap0 Hthr0).
    rewrite Fc0, Fth0, Fct0, Fcap0, Elen.
    pose proof (throughput_grows (List.length (c0 :: cs0)) d Hpos) as Hg.
    split; [lia|]. auto.
Qed.

End BuilderClaims.

Lemma uniformb_spec (l : list datetime) : uniformb l = true -> uniform l.
Proof.
  destruct l as [|x l]; intros H a b Ha Hb; [destruct Ha|].
  simpl in H. rewrite forallb_forall in H.
  assert (Hx : forall y, In y (x :: l) -> tz_aware y = tz_aware x).
  { intros y [<-|Hy]; [reflexivity | apply Bool.eqb_prop, H, Hy]. }
  rewrite (Hx a Ha), (Hx b Hb). reflexivity.
Qed.

Lemma edge_capacities_witness :
  GraphBuilder.build_graph Iso.fromisoformat log_chain = Ok (graph_of log_chain)
  /\ exists a, edge_attrs (graph_of log_chain) ("B", "C")%string = Some a
       /\ (0 < avg_latency a -> capacity_latency a = 1 / avg_latency a)
       /\ (~ 0 < avg_latency a -> capacity_latency a = 0)
       /\ capacity_throughput a = throughput a
       /\ (0 < throughput a -> capacity a = throughput a)
       /\ (~ 0 < throughput a -> capacity a = capacity_latency a).
Proof.
  split; [vm_compute; reflexivity|].
  apply (edge_capacities Iso.fromisoformat log_chain).
  - vm_compute; reflexivity.
  - vm_compute; auto.
Defined.

Lemma node_load_balance_witness :
  sumQ (map (fun n => out_throughput (snd n)) (G_nodes (graph_of log_chain)))
  == sumQ (map (fun n => in_throughput (snd n)) (G_nodes (graph_of log_chain))).
Proof.
  apply (node_load_balance Iso.fromisoformat log_chain).
  vm_compute; reflexivity.
Defined.

Lemma observation_span_witness :
  uniform (parsed_timestamps Iso.fromisoformat log_bad_stamp)
  /\ exists g d,
       GraphBuilder.build_graph Iso.fromisoformat log_bad_stamp = Ok g
       /\ (forall k a, edge_attrs g k = Some a -> throughput a = inject_Z (count a) / d)
       /\ d = span_seconds (parsed_timestamps Iso.fromisoformat log_bad_stamp).
Proof.
  assert (U : uniform (parsed_timestamps Iso.fromisoformat log_bad_stamp)).
  { apply uniformb_spec. vm_compute; reflexivity. }
  split; [exact U|].
  destruct (observation_span Iso.fromisoformat log_bad_stamp U)
    as (g & d & Hg & Ht & _ & Hd & _).
  exists g, d. split; [exact Hg|]. split; [exact Ht|].
  apply Hd.
  - vm_compute; discriminate.
  - vm_compute; reflexivity.
Defined.

(** C2 as it is stated fails: two calls half a second apart are divided by
    the half second, not by a span raised to one second. *)
Lemma observation_span_floor_counterexample :
  exists g a,
    GraphBuilder.build_graph Iso.fromisoformat log_half_second = Ok g
    /\ edge_attrs g ("A", "B")%string = Some a
    /\ count a = 2%Z
    /\ span_seconds (parsed_timestamps Iso.fromisoformat log_half_second) == 1 # 2
    /\ throughput a == 4
    /\ ~ throughput a ==
         inject_Z (count a)
         / Qmax 1 (span_seconds (parsed_timestamps Iso.fromisoformat log_half_second)).
Proof.
  exists (graph_of log_half_second).
  eexists. split; [vm_compute; reflexivity|].
  split; [vm_compute; reflexivity|].
  split; [vm_compute; reflexivity|].
  split; [vm_compute; reflexivity|].
  split; [vm_compute; reflexivity|].
  vm_compute. discriminate.
Qed.

Lemma unparsable_timestamp_witness :
  Iso.fromisoformat (replace_Z "yesterday") = None
  /\ exists a,
       edge_attrs (graph_of log_bad_stamp) ("A", "B")%string = Some a
       /\ times a = [10; 30]
       /\ count a = 2%Z
       /\ throughput a
          = inject_Z 2 / span_of (parsed_timestamps Iso.fromisoformat log_two_seconds).
Proof.
  split; [vm_compute; reflexivity|].
  destruct (unparsable_timestamp_still_counted Iso.fromisoformat
              [call "2024-01-01T00:00:00Z" "A" "B" 10]
              [call "2024-01-01T00:00:02Z" "B" "C" 20]
              (call "yesterday" "A" "B" 30)
              (graph_of log_bad_stamp))
    as (a & g0 & Ha & Ht & Hc & _ & _ & _ & Hthr & _).
  - vm_compute; reflexivity.
  - vm_compute; reflexivity.
  - exists a. split; [exact Ha|]. split; [exact Ht|].
    split; [exact Hc|]. rewrite Hthr, Hc. reflexivity.
Defined.

(** ** Sliding windows *)

Lemma all_parseb_spec (fromisoformat : string -> option datetime)
  (records : list LogRecord) :
  all_parseb fromisoformat records = true -> all_parse fromisoformat records.
Proof.
  unfold all_parseb, all_parse. rewrite forallb_forall. intros H r Hr E.
  specialize (H r Hr). rewrite E in H. discriminate.
Qed.

Lemma window_count_step (current end_ : datetime) (s : Z) :
  (0 < s)%Z -> (micros current <= micros end_)%Z ->
  window_count current end_ s = S (window_count (shift current s) end_ s).
Proof.
  intros Hs Hle. unfold window_count. simpl micros.
  destruct (Z.leb_spec (micros current) (micros end_)) as [_|?]; [|lia].
  f_equal.
  set (d := (s * 1000000)%Z). assert (Hd : (0 < d)%Z) by (unfold d; lia).
  destruct (Z.leb_spec (micros current + d) (micros end_)) as [L|L].
  - replace (micros end_ - micros current)%Z
      with ((micros end_ - (micros current + d)) + 1 * d)%Z by lia.
    rewrite Z.div_add by lia.
    assert (Hq : (0 <= (micros end_ - (micros current + d)) / d)%Z)
      by (apply Z.div_pos; lia).
    rewrite Z2Nat.inj_add by lia. simpl. lia.
  - rewrite Z.div_small by lia. reflexivity.
Qed.

Lemma window_count_done (current end_ : datetime) (s : Z) :
  (micros end_ < micros current)%Z -> window_count current end_ s = O.
Proof.
  intros H. unfold window_count.
  destruct (Z.leb_spec (micros current) (micros end_)); [lia | reflexivity].
Qed.

Lemma windows_from_length (n : nat) (current : datetime) (w s : Z) :
  List.length (windows_from n current w s) = n.
Proof.
  revert current; induction n as [|n IH]; intros current; simpl; [reflexivity|].
  rewrite IH. reflexivity.
Qed.

(** Start and end of the [i]-th window. *)
Lemma windows_from_nth (n i : nat) (current : datetime) (w s : Z) :
  (i < n)%nat ->
  nth_error (windows_from n current w s) i
  = Some (shift current (Z.of_nat i * s), shift current (Z.of_nat i * s + w)).
Proof.
  revert i current; induction n as [|n IH]; intros i current Hi; [lia|].
  destruct i as [|i]; cbn [windows_from nth_error].
  - unfold shift. destruct current as [a m o]; cbn [tz_aware micros utc_offset].
    f_equal. f_equal; f_equal; lia.
  - rewrite IH by lia. unfold shift. cbn [tz_aware micros utc_offset].
    rewrite Nat2Z.inj_succ. f_equal. f_equal; f_equal; lia.
Qed.

(** ** Additions that stay within the calendar *)

Lemma shift_0 (d : datetime) : shift d 0 = d.
Proof.
  destruct d as [a m o]. unfold shift. cbn [tz_aware micros utc_offset].
  f_equal. lia.
Qed.

Lemma dt_add_seconds_ok (d : datetime) (s : Z) :
  timedelta_ok s = true -> in_calendar (shift d s) = true ->
  dt_add_seconds d s = Ok (shift d s).
Proof. intros H1 H2. unfold dt_add_seconds. rewrite H1, H2. reflexivity. Qed.

(** An addition returns the shifted value or raises [OverflowError]. *)
Lemma dt_add_seconds_cases (d : datetime) (s : Z) :
  dt_add_seconds d s = Ok (shift d s) \/ dt_add_seconds d s = Raise OverflowError.
Proof.
  unfold dt_add_seconds.
  destruct (timedelta_ok s); [|right; reflexivity].
  destruct (in_calendar (shift d s)); [left | right]; reflexivity.
Qed.

Lemma in_calendar_bounds (d : datetime) :
  (datetime_min <= wall_clock d <= datetime_max)%Z -> in_calendar d = true.
Proof.
  intros [H1 H2]. unfold in_calendar.
  apply andb_true_intro. split; apply Z.leb_le; assumption.
Qed.

(** While the loop runs, both additions of a turn succeed and the next
    turn stays within the calendar. *)
Lemma loop_in_calendar_step (current end_ : datetime) (w s : Z) :
  loop_in_calendar current end_ w s ->
  (0 <= s)%Z ->
  (micros current <= micros end_)%Z ->
  dt_add_seconds current w = Ok (shift current w)
  /\ dt_add_seconds current s = Ok (shift current s)
  /\ loop_in_calendar (shift current s) end_ w s.
Proof.
  intros (Hw & Hs & Hlo & Hhi) Hpos Hle. unfold wall_clock in Hlo.
  split; [|split].
  - apply dt_add_seconds_ok; [exact Hw|]. apply in_calendar_bounds.
    unfold wall_clock, shift. cbn [micros utc_offset]. lia.
  - apply dt_add_seconds_ok; [exact Hs|]. apply in_calendar_bounds.
    unfold wall_clock, shift. cbn [micros utc_offset]. lia.
  - unfold loop_in_calendar, wall_clock, shift. cbn [micros utc_offset].
    repeat split; try assumption; lia.
Qed.

Lemma has_node_In (G : DiGraph) (u : string) :
  has_node G u = true <-> In u (node_names G).
Proof.
  unfold has_node. rewrite existsb_exists. split.
  - intros (x & Hx & E). apply String.eqb_eq in E. subst. exact Hx.
  - intros H. exists u. split; [exact H | apply String.eqb_refl].
Qed.

Lemma G_edges_successors (G : DiGraph) (u v : string) :
  In (u, v) (G_edges G) <-> In u (node_names G) /\ In v (successors G u).
Proof. rewrite G_edges_In, successors_In. reflexivity. Qed.

(** The loop over [S] and the successors collects the edges from [S] to [T]. *)
Lemma collect_cut_edges_spec (G : DiGraph) (S_ T_ : list string) :
  (forall u, In u S_ -> has_node G u = true) ->
  exists l,
    collect_cut_edges G S_ T_ = Ok l
    /\ forall u v, In (u, v) l <-> In (u, v) (G_edges G) /\ In u S_ /\ In v T_.
Proof.
  induction S_ as [|x S' IH]; intros H.
  - exists []. split; [reflexivity|]. simpl. tauto.
  - destruct IH as (l & El & Hl).
    { intros u Hu. apply H. right; exact Hu. }
    cbn [collect_cut_edges]. unfold successors_of.
    rewrite (H x (or_introl eq_refl)). cbn [bind]. rewrite El. cbn [bind].
    eexists. split; [reflexivity|].
    intros u v. rewrite in_app_iff, in_map_iff, Hl. split.
    + intros [(v' & [= <- <-] & Hv)|(He & Hu & Hv)].
      * apply filter_In in Hv. destruct Hv as [Hs Ht].
        apply existsb_exists in Ht. destruct Ht as (y & Hy & E).
        apply String.eqb_eq in E. subst y.
        split; [|split; [left; reflexivity | exact Hy]].
        apply G_edges_successors. split; [|exact Hs].
        apply has_node_In, H. left; reflexivity.
      * split; [exact He|]. split; [right; exact Hu | exact Hv].
    + intros (He & [->|Hu] & Hv).
      * left. exists v. split; [reflexivity|]. apply filter_In. split.
        -- apply G_edges_successors in He. tauto.
        -- apply existsb_exists. exists v. split; [exact Hv | apply String.eqb_refl].
      * right. tauto.
Qed.

Section WindowFacts.

Variable fromisoformat : string -> option datetime.
Variable nx_maximum_flow : max_flow_fn.
Variable nx_minimum_cut : min_cut_fn.

Local Abbreviation parsed := (parsed_timestamps fromisoformat).
Local Abbreviation parse := (parse_iso_z fromisoformat).

Lemma mapM_parse_ok (records : list LogRecord) :
  all_parse fromisoformat records ->
  mapM (fun r => parse (timestamp r)) records = Ok (parsed records).
Proof.
  induction records as [|r l IH]; intros H; simpl; [reflexivity|].
  unfold parse_iso_z at 1.
  destruct (fromisoformat (replace_Z (timestamp r))) as [d|] eqn:E.
  - simpl. rewrite IH; [reflexivity|]. intros x Hx. apply H. right; exact Hx.
  - exfalso. apply (H r (or_introl eq_refl) E).
Qed.

Lemma mapM_parse_raises (records : list LogRecord) :
  ~ all_parse fromisoformat records ->
  mapM (fun r => parse (timestamp r)) records = Raise ValueError.
Proof.
  induction records as [|r l IH]; intros H; simpl.
  - exfalso. apply H. intros r [].
  - unfold parse_iso_z at 1.
    destruct (fromisoformat (replace_Z (timestamp r))) as [d|] eqn:E; [|reflexivity].
    simpl. rewrite IH; [reflexivity|].
    intros Hl. apply H. intros x [<-|Hx]; [congruence | apply Hl, Hx].
Qed.

Lemma parsed_nonempty (records : list LogRecord) :
  all_parse fromisoformat records -> records <> [] -> parsed records <> [].
Proof.
  destruct records as [|r l]; [congruence|]. intros H _.
  unfold parsed_timestamps. simpl.
  destruct (fromisoformat (replace_Z (timestamp r))) eqn:E; [discriminate|].
  exfalso. apply (H r (or_introl eq_refl) E).
Qed.

Lemma parsed_In (records : list LogRecord) (r : LogRecord) (d : datetime) :
  In r records -> fromisoformat (replace_Z (timestamp r)) = Some d ->
  In d (parsed records).
Proof.
  intros Hr E. unfold parsed_timestamps. apply in_flat_map.
  exists r. split; [exact Hr|]. rewrite E. left; reflexivity.
Qed.

(** The generator starts at the earliest timestamp and ends at the latest. *)
Lemma sliding_windows_start_ok (records : list LogRecord) :
  records <> [] ->
  all_parse fromisoformat records ->
  uniform (parsed records) ->
  exists start end_,
    sliding_windows_start fromisoformat records = Ok (Some (mkSw start end_))
    /\ micros start = earliest (parsed records)
    /\ micros end_ = latest (parsed records)
    /\ tz_aware end_ = tz_aware start
    /\ (forall t, In t (parsed records) -> tz_aware t = tz_aware start).
Proof.
  intros Hne Hall U.
  unfold sliding_windows_start. destruct records as [|r0 l0] eqn:Er; [congruence|].
  rewrite <- Er in *. rewrite (mapM_parse_ok _ Hall). simpl bind.
  pose proof (parsed_nonempty _ Hall Hne) as Hp.
  destruct (parsed records) as [|t l] eqn:Et; [congruence|].
  destruct (py_min_ok t l U) as (mn & Emn & Amn & Mmn).
  destruct (py_max_ok t l U) as (mx & Emx & Amx & Mmx).
  rewrite Emn, Emx. simpl bind.
  exists mn, mx. repeat split; auto; try congruence.
  intros x Hx. rewrite Amn. apply U; [exact Hx | left; reflexivity].
Qed.

(** The first window starts at the first of the earliest timestamps. *)
Lemma sliding_windows_start_first (records : list LogRecord) (start end_ : datetime) :
  all_parse fromisoformat records ->
  uniform (parsed records) ->
  sliding_windows_start fromisoformat records = Ok (Some (mkSw start end_)) ->
  start = first_window_start (parsed records).
Proof.
  intros Hall U. unfold sliding_windows_start.
  destruct records as [|r0 l0] eqn:Er; [discriminate|].
  rewrite <- Er in *. rewrite (mapM_parse_ok _ Hall). cbn [bind].
  destruct (parsed records) as [|t l] eqn:Et; [discriminate|].
  unfold py_min. rewrite (py_min_from_first t l).
  2:{ intros x Hx. apply U; [right; exact Hx | left; reflexivity]. }
  cbn [bind]. destruct (py_max (t :: l)); cbn [bind]; [|discriminate].
  intros E. injection E as E _. symmetry. exact E.
Qed.

Lemma sliding_windows_start_raises (records : list LogRecord) :
  ~ all_parse fromisoformat records ->
  sliding_windows_start fromisoformat records = Raise ValueError.
Proof.
  intros H. unfold sliding_windows_start. destruct records as [|r0 l0] eqn:Er.
  - exfalso. apply H. intros r [].
  - rewrite <- Er in *. rewrite (mapM_parse_raises _ H). reflexivity.
Qed.

Lemma sliding_windows_next_spec (w : Z) (current end_ : datetime) :
  tz_aware end_ = tz_aware current ->
  sliding_windows_next w (mkSw current end_)
  = if (micros current <=? micros end_)%Z
    then (window_end <- dt_add_seconds current w ;; Ok (Some (current, window_end)))%py
    else Ok None.
Proof.
  intros A. unfold sliding_windows_next, dt_le. simpl.
  rewrite A, Bool.eqb_reflx. simpl. reflexivity.
Qed.

(** With a positive step, and within the calendar, the generator yields
    [window_count] windows. *)
Lemma sliding_windows_drain_spec (w s : Z) (end_ : datetime) :
  (0 < s)%Z ->
  forall fuel current,
    tz_aware end_ = tz_aware current ->
    loop_in_calendar current end_ w s ->
    (window_count current end_ s < fuel)%nat ->
    sliding_windows_drain fuel w s (mkSw current end_)
    = Some (Ok (windows_from (window_count current end_ s) current w s)).
Proof.
  intros Hs. induction fuel as [|fuel IH]; intros current A Hcal Hf; [lia|].
  simpl sliding_windows_drain. rewrite (sliding_windows_next_spec w _ _ A).
  destruct (Z.leb_spec (micros current) (micros end_)) as [L|L].
  - destruct (loop_in_calendar_step _ _ _ _ Hcal (Z.lt_le_incl _ _ Hs) L)
      as (Ew & Es & Hcal').
    rewrite Ew. cbn [bind]. unfold sliding_windows_resume. cbn [sw_current sw_end].
    rewrite Es. cbn [bind].
    rewrite (window_count_step _ _ _ Hs L) in *.
    rewrite IH; [reflexivity | exact A | exact Hcal' | lia].
  - rewrite (window_count_done _ _ s L). reflexivity.
Qed.

(** With a step that is not positive the generator never comes to its
    end: it yields windows for ever, or an addition raises. *)
Lemma sliding_windows_drain_no_result (w s : Z) (end_ : datetime) :
  (s <= 0)%Z ->
  forall fuel current windows,
    (micros current <= micros end_)%Z ->
    sliding_windows_drain fuel w s (mkSw current end_) <> Some (Ok windows).
Proof.
  intros Hs. induction fuel as [|fuel IH]; intros current windows L; [discriminate|].
  simpl sliding_windows_drain. unfold sliding_windows_next, dt_le.
  cbn [sw_current sw_end].
  destruct (Bool.eqb (tz_aware current) (tz_aware end_)); cbn [bind]; [|discriminate].
  destruct (Z.leb_spec (micros current) (micros end_)) as [_|?]; [|lia].
  destruct (dt_add_seconds current w) as [window_end|e]; cbn [bind]; [|discriminate].
  unfold sliding_windows_resume. cbn [sw_current sw_end].
  destruct (dt_add_seconds_cases current s) as [E|E]; rewrite E; cbn [bind];
    [|discriminate].
  destruct (sliding_windows_drain fuel w s (mkSw (shift current s) end_))
    as [[ws|e]|] eqn:Ed; try discriminate.
  exfalso. apply (IH (shift current s) ws); [|exact Ed].
  unfold shift. cbn [micros]. nia.
Qed.

(** With a step of zero seconds the generator yields its first window for
    ever. *)
Lemma sliding_windows_drain_diverges (w : Z) (end_ : datetime) :
  forall fuel current,
    tz_aware end_ = tz_aware current ->
    loop_in_calendar current end_ w 0 ->
    (micros current <= micros end_)%Z ->
    sliding_windows_drain fuel w 0 (mkSw current end_) = None.
Proof.
  induction fuel as [|fuel IH]; intros current A Hcal L; [reflexivity|].
  simpl sliding_windows_drain. rewrite (sliding_windows_next_spec w _ _ A).
  destruct (Z.leb_spec (micros current) (micros end_)) as [_|?]; [|lia].
  destruct (loop_in_calendar_step _ _ _ _ Hcal (Z.le_refl 0) L) as (Ew & Es & _).
  rewrite Ew. cbn [bind]. unfold sliding_windows_resume. cbn [sw_current sw_end].
  rewrite Es, shift_0. cbn [bind].
  rewrite IH; [reflexivity | exact A | exact Hcal | exact L].
Qed.


Lemma parsed_filter_incl (p : LogRecord -> bool) (records : list LogRecord) (d : datetime) :
  In d (parsed (filter p records)) -> In d (parsed records).
Proof.
  unfold parsed_timestamps. rewrite !in_flat_map.
  intros (r & Hr & Hd). apply filter_In in Hr. exists r. tauto.
Qed.

Lemma records_in_window_ok (records : list LogRecord) (start end_ : datetime) :
  all_parse fromisoformat records ->
  (forall t, In t (parsed records) -> tz_aware t = tz_aware start) ->
  tz_aware end_ = tz_aware start ->
  records_in_window fromisoformat records start end_
  = Ok (filter (in_window fromisoformat start end_) records).
Proof.
  intros Hall Htz A. induction records as [|r l IH]; [reflexivity|].
  cbn [records_in_window filter]. unfold parse_iso_z, in_window.
  destruct (fromisoformat (replace_Z (timestamp r))) as [ts|] eqn:E.
  2:{ exfalso. apply (Hall r (or_introl eq_refl) E). }
  assert (Hts : tz_aware ts = tz_aware start).
  { apply Htz. apply (parsed_In (r :: l) r ts); [left; reflexivity | exact E]. }
  cbn [bind]. unfold dt_le. rewrite Hts, A, Bool.eqb_reflx. cbn [bind].
  rewrite IH.
  - cbn [bind].
    destruct (micros start <=? micros ts)%Z; cbn [bind andb]; [|reflexivity].
    destruct (micros ts <=? micros end_)%Z; reflexivity.
  - intros x Hx. apply Hall. right; exact Hx.
  - intros t Ht. apply Htz. unfold parsed_timestamps in *. simpl.
    apply in_or_app. right; exact Ht.
Qed.

Section Analysis.

Variables (records : list LogRecord) (source sink capacity_attr : string).
Variables (window_seconds step_seconds : Z).

Hypothesis Hall : all_parse fromisoformat records.
Hypothesis Huniform : uniform (parsed records).
(** On the graphs of the analysis on which the solver is called, the side
    [S] of a cut is made of nodes. *)
Hypothesis Hcut :
  forall sel G cut S_ T_,
    incl sel records ->
    GraphBuilder.build_graph fromisoformat sel = Ok G ->
    has_node G source = true ->
    nx_minimum_cut G source sink capacity_attr = Ok (cut, (S_, T_)) ->
    forall u, In u S_ -> has_node G u = true.

(** No window makes the analysis raise; each gets its outcome. *)
Lemma analyze_window_ok (start end_ : datetime) :
  (forall t, In t (parsed records) -> tz_aware t = tz_aware start) ->
  tz_aware end_ = tz_aware start ->
  exists wr,
    analyze_window fromisoformat nx_maximum_flow nx_minimum_cut
      records source sink capacity_attr start end_ = Ok wr
    /\ window_outcome fromisoformat nx_maximum_flow nx_minimum_cut
         records source sink capacity_attr (start, end_) wr.
Proof.
  intros Htz A. unfold analyze_window, window_outcome. cbn [fst snd].
  rewrite (records_in_window_ok records start end_ Hall Htz A). cbn [bind].
  destruct (filter (in_window fromisoformat start end_) records) as [|r sel] eqn:Esel.
  { exists (sentinel start end_). repeat split. }
  assert (U : uniform (parsed (r :: sel))).
  { rewrite <- Esel. intros a b Ha Hb. apply Huniform; eapply parsed_filter_incl; eassumption. }
  destruct (build_graph_ok fromisoformat _ U) as [G HG].
  rewrite HG. cbn [bind].
  destruct (negb (has_node G source) || negb (has_node G sink)) eqn:Enodes.
  { exists (sentinel start end_). split; [reflexivity|]. split; [reflexivity|].
    split; [reflexivity|]. exists G. split; [reflexivity|]. rewrite Enodes. reflexivity. }
  unfold GraphAnalyzer.max_flow, GraphAnalyzer.min_cut.
  destruct (nx_maximum_flow G source sink capacity_attr) as [[fv fd]|e] eqn:Emf.
  2:{ exists (sentinel start end_). split; [reflexivity|]. split; [reflexivity|].
      split; [reflexivity|]. exists G. split; [reflexivity|].
      rewrite Enodes, Emf. reflexivity. }
  destruct (nx_minimum_cut G source sink capacity_attr) as [[cv [S_ T_]]|e] eqn:Emc.
  2:{ exists (sentinel start end_). split; [reflexivity|]. split; [reflexivity|].
      split; [reflexivity|]. exists G. split; [reflexivity|].
      rewrite Enodes, Emf, Emc. reflexivity. }
  assert (Hsrc : has_node G source = true).
  { apply orb_false_elim in Enodes. destruct Enodes as [E1 _].
    apply negb_false_iff in E1. exact E1. }
  assert (Hincl : incl (r :: sel) records).
  { rewrite <- Esel. intros x Hx. apply filter_In in Hx. tauto. }
  destruct (collect_cut_edges_spec G S_ T_ (Hcut _ _ _ _ _ Hincl HG Hsrc Emc)) as (l & El & Hl).
  rewrite El. cbn [bind].
  eexists. split; [reflexivity|]. cbn [w_start w_end].
  split; [reflexivity|]. split; [reflexivity|].
  exists G. split; [reflexivity|]. rewrite Enodes, Emf, Emc.
  cbn [flow cut_value min_cut]. auto.
Qed.

Lemma analyze_loop_spec (end_ : datetime) :
  (0 < step_seconds)%Z ->
  forall n current,
    window_count current end_ step_seconds = n ->
    (forall t, In t (parsed records) -> tz_aware t = tz_aware current) ->
    tz_aware end_ = tz_aware current ->
    loop_in_calendar current end_ window_seconds step_seconds ->
    exists results,
      (forall fuel, (n < fuel)%nat ->
         analyze_loop fromisoformat nx_maximum_flow nx_minimum_cut fuel records
           source sink window_seconds step_seconds capacity_attr (mkSw current end_)
         = Some (Ok results))
      /\ Forall2 (window_outcome fromisoformat nx_maximum_flow nx_minimum_cut
                    records source sink capacity_attr)
           (windows_from n current window_seconds step_seconds)
           results.
Proof.
  intros Hs. induction n as [|n IH]; intros current Hn Htz A Hcal.
  - exists []. split; [|constructor].
    intros [|fuel] Hf; [lia|]. cbn [analyze_loop].
    rewrite (sliding_windows_next_spec _ _ _ A).
    unfold window_count in Hn.
    destruct (micros current <=? micros end_)%Z; [discriminate | reflexivity].
  - assert (L : (micros current <= micros end_)%Z).
    { unfold window_count in Hn.
      destruct (Z.leb_spec (micros current) (micros end_)); [assumption | discriminate]. }
    rewrite (window_count_step _ _ _ Hs L) in Hn. injection Hn as Hn.
    destruct (loop_in_calendar_step _ _ _ _ Hcal (Z.lt_le_incl _ _ Hs) L)
      as (Ew & Es & Hcal').
    destruct (analyze_window_ok current (shift current window_seconds) Htz eq_refl)
      as (wr & Ewr & Hwr).
    destruct (IH (shift current step_seconds) Hn Htz A Hcal') as (results & Er & HF).
    exists (wr :: results). split.
    + intros [|fuel] Hf; [lia|]. cbn [analyze_loop].
      rewrite (sliding_windows_next_spec _ _ _ A).
      destruct (Z.leb_spec (micros current) (micros end_)) as [_|?]; [|lia].
      rewrite Ew. cbn [bind]. rewrite Ewr.
      unfold sliding_windows_resume. cbn [sw_current sw_end]. rewrite Es. cbn [bind].
      rewrite Er by lia. reflexivity.
    + cbn [windows_from]. constructor; assumption.
Qed.

(** With a step of zero seconds the analysis never returns. *)
Lemma analyze_loop_diverges (end_ : datetime) :
  step_seconds = 0%Z ->
  forall fuel current,
    (forall t, In t (parsed records) -> tz_aware t = tz_aware current) ->
    tz_aware end_ = tz_aware current ->
    loop_in_calendar current end_ window_seconds step_seconds ->
    (micros current <= micros end_)%Z ->
    analyze_loop fromisoformat nx_maximum_flow nx_minimum_cut fuel records
      source sink window_seconds step_seconds capacity_attr (mkSw current end_)
    = None.
Proof.
  intros Hs. induction fuel as [|fuel IH]; intros current Htz A Hcal L; [reflexivity|].
  cbn [analyze_loop]. rewrite (sliding_windows_next_spec _ _ _ A).
  destruct (Z.leb_spec (micros current) (micros end_)) as [_|?]; [|lia].
  assert (Hpos : (0 <= step_seconds)%Z) by lia.
  destruct (loop_in_calendar_step _ _ _ _ Hcal Hpos L) as (Ew & Es & _).
  destruct (analyze_window_ok current (shift current window_seconds) Htz eq_refl)
    as (wr & Ewr & _).
  rewrite Ew. cbn [bind]. rewrite Ewr.
  unfold sliding_windows_resume. cbn [sw_current sw_end]. rewrite Es. cbn [bind].
  assert (E0 : shift current step_seconds = current) by (rewrite Hs; apply shift_0).
  rewrite E0, IH; [reflexivity | exact Htz | exact A | exact Hcal | exact L].
Qed.

End Analysis.

(** With a step that is not positive the analysis never returns a list:
    it runs for ever or raises. *)
Lemma analyze_loop_no_result (records : list LogRecord) (source sink capacity_attr : string)
  (w s : Z) (end_ : datetime) :
  (s <= 0)%Z ->
  forall fuel current results,
    (micros current <= micros end_)%Z ->
    analyze_loop fromisoformat nx_maximum_flow nx_minimum_cut fuel records
      source sink w s capacity_attr (mkSw current end_)
    <> Some (Ok results).
Proof.
  intros Hs. induction fuel as [|fuel IH]; intros current results L; [discriminate|].
  cbn [analyze_loop]. unfold sliding_windows_next, dt_le. cbn [sw_current sw_end].
  destruct (Bool.eqb (tz_aware current) (tz_aware end_)); cbn [bind]; [|discriminate].
  destruct (Z.leb_spec (micros current) (micros end_)) as [_|?]; [|lia].
  destruct (dt_add_seconds current w) as [window_end|e]; cbn [bind]; [|discriminate].
  destruct (analyze_window _ _ _ _ _ _ _ _ _) as [wr|e]; [|discriminate].
  unfold sliding_windows_resume. cbn [sw_current sw_end].
  destruct (dt_add_seconds_cases current s) as [E|E]; rewrite E; cbn [bind];
    [|discriminate].
  destruct (analyze_loop _ _ _ fuel _ _ _ _ _ _ _) as [[rs|e]|] eqn:Ed; try discriminate.
  exfalso. apply (IH (shift current s) rs); [|exact Ed].
  unfold shift. cbn [micros]. nia.
Qed.

End WindowFacts.

(** ** The analysis of a whole log *)

Lemma Qfloor_span (x s : Z) :
  (0 < s)%Z -> Qfloor (total_seconds x / inject_Z s) = (x / (s * 1000000))%Z.
Proof.
  intros Hs. destruct s as [|p|p]; try lia.
  unfold total_seconds, Qdiv, Qinv, inject_Z, Qmult, Qfloor. simpl.
  f_equal; lia.
Qed.

Lemma window_count_start (tss : list datetime) (start end_ : datetime) (s : Z) :
  (0 < s)%Z ->
  micros start = earliest tss -> micros end_ = latest tss ->
  window_count start end_ s
  = S (Z.to_nat (Qfloor (span_seconds tss / inject_Z s))).
Proof.
  intros Hs Hst Hen. unfold window_count, span_seconds.
  rewrite (Qfloor_span _ _ Hs), Hst, Hen.
  pose proof (earliest_le_latest tss).
  destruct (Z.leb_spec (earliest tss) (latest tss)); [reflexivity | lia].
Qed.



Lemma cut_within_nodes_local (fromisoformat : string -> option datetime)
  (mc : min_cut_fn) (records : list LogRecord) (source sink capacity_attr : string) :
  cut_within_nodes mc ->
  forall sel G cut S_ T_,
    incl sel records ->
    GraphBuilder.build_graph fromisoformat sel = Ok G ->
    has_node G source = true ->
    mc G source sink capacity_attr = Ok (cut, (S_, T_)) ->
    forall u, In u S_ -> has_node G u = true.
Proof. intros H sel G cut S_ T_ _ _ _ E. exact (H _ _ _ _ _ _ _ E). Qed.



(** The analysis of a log whose timestamps parse, with a positive step. *)
Lemma analysis_runs (fromisoformat : string -> option datetime)
  (mf : max_flow_fn) (mc : min_cut_fn) (records : list LogRecord)
  (source sink : string) (w s : Z) (capacity_attr : string) :
  all_parse fromisoformat records ->
  uniform (parsed_timestamps fromisoformat records) ->
  (0 < s)%Z ->
  within_calendar (parsed_timestamps fromisoformat records) w s ->
  (forall sel G cut S_ T_,
     incl sel records ->
     GraphBuilder.build_graph fromisoformat sel = Ok G ->
     has_node G source = true ->
     mc G source sink capacity_attr = Ok (cut, (S_, T_)) ->
     forall u, In u S_ -> has_node G u = true) ->
  exists results,
    (forall fuel, (List.length (expected_windows fromisoformat records w s) < fuel)%nat ->
       sliding_windows fromisoformat fuel records w s
       = Some (Ok (expected_windows fromisoformat records w s))
       /\ analyze_time_windows fromisoformat mf mc fuel records source sink w s capacity_attr
          = Some (Ok results))
    /\ Forall2 (window_outcome fromisoformat mf mc records source sink capacity_attr)
         (expected_windows fromisoformat records w s) results.
Proof.
  intros Hall U Hs Hcal Hcut.
  destruct records as [|r0 l0] eqn:Er.
  { exists []. split; [|constructor]. intros fuel _. split; reflexivity. }
  rewrite <- Er in *.
  assert (Hne : records <> []) by (rewrite Er; discriminate).
  destruct (sliding_windows_start_ok fromisoformat records Hne Hall U)
    as (start & end_ & Est & Hst & Hen & A & Htz).
  pose proof (window_count_start _ start end_ s Hs Hst Hen) as Hn.
  assert (Hstart : first_window_start (parsed_timestamps fromisoformat records) = start).
  { symmetry. apply (sliding_windows_start_first fromisoformat records start end_ Hall U Est). }
  assert (Hloop : loop_in_calendar start end_ w s).
  { destruct Hcal as (Hw & Hs' & Hlo & Hhi). rewrite Hstart in Hlo, Hhi.
    unfold loop_in_calendar, wall_clock. rewrite Hst, Hen. repeat split; assumption. }
  assert (Hexp : expected_windows fromisoformat records w s
                 = windows_from (window_count start end_ s) start w s).
  { unfold expected_windows. rewrite Er at 1. rewrite Hstart, Hn. reflexivity. }
  destruct (analyze_loop_spec fromisoformat mf mc records source sink capacity_attr w s
              Hall U Hcut end_ Hs (window_count start end_ s) start eq_refl Htz A Hloop)
    as (results & Hrun & HF).
  exists results. rewrite Hexp. split; [|exact HF].
  intros fuel Hf. rewrite windows_from_length in Hf.
  unfold sliding_windows, analyze_time_windows. rewrite Est. split.
  - apply sliding_windows_drain_spec; assumption.
  - apply Hrun, Hf.
Qed.


Lemma Forall2_nth_error {A B : Type} (R : A -> B -> Prop) (l1 : list A) (l2 : list B) :
  Forall2 R l1 l2 ->
  forall i a, nth_error l1 i = Some a ->
              exists b, nth_error l2 i = Some b /\ R a b.
Proof.
  induction 1 as [|x y l1 l2 Hxy HF IH]; intros i a Hi.
  - destruct i; discriminate.
  - destruct i as [|i]; simpl in *.
    + injection Hi as <-. eauto.
    + apply IH, Hi.
Qed.


(** The cuts of the solver of the specification are made of nodes. *)
Lemma minimum_cut_within_nodes : cut_within_nodes FlowCutSolver.minimum_cut.
Proof.
  intros G source sink capacity_attr cut S_ T_ E u Hu.
  unfold FlowCutSolver.minimum_cut in E.
  destruct (FlowCutSolver.prepare G source sink capacity_attr) as [field|]; [|discriminate].
  cbn [bind] in E.
  destruct (FlowCutSolver.converge (node_names G) (FlowCutSolver.capacity_of G field)
              source sink) as [f|]; [|discriminate].
  injection E as _ <- _.
  unfold FlowCutSolver.reachable_set in Hu. apply filter_In in Hu.
  apply has_node_In. tauto.
Qed.






Lemma log_chain_parses : all_parse Iso.fromisoformat log_chain.
Proof. apply all_parseb_spec. vm_compute; reflexivity. Qed.

Lemma log_chain_uniform : uniform (parsed_timestamps Iso.fromisoformat log_chain).
Proof. apply uniformb_spec. vm_compute; reflexivity. Qed.

(** ** The start of the windows and their zone *)

Lemma first_earliest_In (m : datetime) (l : list datetime) :
  In (first_earliest m l) (m :: l).
Proof.
  revert m; induction l as [|x l IH]; intros m; simpl; [left; reflexivity|].
  destruct (IH (if (micros x <? micros m)%Z then x else m)) as [E|H].
  - destruct (micros x <? micros m)%Z; [right; left | left]; exact E.
  - right; right; exact H.
Qed.

Lemma first_window_start_In (tss : list datetime) :
  tss <> [] -> In (first_window_start tss) tss.
Proof.
  destruct tss as [|x l]; [congruence|]. intros _. apply first_earliest_In.
Qed.

Lemma windows_from_tz (n : nat) :
  forall current w s win,
    In win (windows_from n current w s) ->
    tz_aware (fst win) = tz_aware current /\ tz_aware (snd win) = tz_aware current.
Proof.
  induction n as [|n IH]; intros current w s win Hin; [destruct Hin|].
  destruct Hin as [<-|Hin]; [split; reflexivity|].
  apply (IH (shift current s) w s win Hin).
Qed.

Lemma expected_windows_tz (fromisoformat : string -> option datetime)
  (records : list LogRecord) (w s : Z) (win : datetime * datetime) :
  uniform (parsed_timestamps fromisoformat records) ->
  In win (expected_windows fromisoformat records w s) ->
  (forall t, In t (parsed_timestamps fromisoformat records) ->
             tz_aware t = tz_aware (fst win))
  /\ tz_aware (snd win) = tz_aware (fst win).
Proof.
  intros Hu Hin. unfold expected_windows in Hin.
  destruct records as [|r0 rs] eqn:Er; [destruct Hin|]. rewrite <- Er in *.
  apply windows_from_tz in Hin. destruct Hin as [H1 H2]. rewrite H1, H2.
  split; [|reflexivity].
  intros t Ht. apply Hu; [exact Ht|].
  apply first_window_start_In. intros E. rewrite E in Ht. destruct Ht.
Qed.





(** The raise does not depend on the fuel: the first window is yielded and
    analysed, and the addition of the step ends the run. *)
Example huge_step_overflows (fuel : nat) :
  analyze_time_windows Iso.fromisoformat
    FlowCutSolver.maximum_flow FlowCutSolver.minimum_cut
    (S fuel) log_chain "A" "C" 60 1000000000000 "capacity" = Some (Raise OverflowError).
Proof.
  unfold analyze_time_windows.
  replace (sliding_windows_start Iso.fromisoformat log_chain)
    with (Ok (Some (mkSw (mkDatetime true 1704067200000000 0)
                         (mkDatetime true 1704067201000000 0))))
    by (vm_compute; reflexivity).
  cbn [analyze_loop].
  replace (sliding_windows_next 60 _)
    with (Ok (Some (mkDatetime true 1704067200000000 0,
                    mkDatetime true 1704067260000000 0)))
    by (vm_compute; reflexivity).
  destruct (analyze_window _ _ _ _ _ _ _ _ _) as [wr|e] eqn:Ew.
  - replace (sliding_windows_resume 1000000000000 _)
      with (@Raise sw_state OverflowError) by (vm_compute; reflexivity).
    reflexivity.
  - exfalso. vm_compute in Ew. discriminate.
Qed.

(** The end of the calendar is 9999-12-31T23:59:59.999999 on the clock of
    the timestamp's own zone.  A log stamped thirty seconds before midnight
    has one window when the window and the step are 29 seconds; a window of
    30 seconds (and the default of 60) raises before the first [yield], and
    a step of 30 seconds raises after the first window. *)
Example last_minute_of_the_calendar :
  sliding_windows Iso.fromisoformat 5 log_last_minute 29 29
  = Some (Ok [(mkDatetime true 253402300770000000 0,
               mkDatetime true 253402300799000000 0)])
  /\ sliding_windows Iso.fromisoformat 5 log_last_minute 30 29
     = Some (Raise OverflowError)
  /\ sliding_windows Iso.fromisoformat 5 log_last_minute 29 30
     = Some (Raise OverflowError)
  /\ analyze_time_windows Iso.fromisoformat
       FlowCutSolver.maximum_flow FlowCutSolver.minimum_cut
       5 log_last_minute "A" "B" 60 30 "capacity" = Some (Raise OverflowError)
  /\ sliding_windows Iso.fromisoformat 5 log_last_minute_east 29 29
     = Some (Ok [(mkDatetime true 253402282770000000 18000000000,
                  mkDatetime true 253402282799000000 18000000000)])
  /\ sliding_windows Iso.fromisoformat 5 log_last_minute_east 30 29
     = Some (Raise OverflowError).
Proof. repeat split; vm_compute; reflexivity. Qed.

(** With a step of zero seconds the same window is yielded again and
    again: whatever the number of turns, no list is returned. *)
Example zero_step_never_returns (fuel : nat) :
  sliding_windows Iso.fromisoformat fuel log_chain 60 0 = None
  /\ analyze_time_windows Iso.fromisoformat
       FlowCutSolver.maximum_flow FlowCutSolver.minimum_cut
       fuel log_chain "A" "C" 60 0 "capacity" = None.
Proof.
  assert (Est : sliding_windows_start Iso.fromisoformat log_chain
                = Ok (Some (mkSw (mkDatetime true 1704067200000000 0)
                                 (mkDatetime true 1704067201000000 0)))).
  { vm_compute; reflexivity. }
  assert (Hcal : loop_in_calendar (mkDatetime true 1704067200000000 0)
                   (mkDatetime true 1704067201000000 0) 60 0).
  { repeat split; vm_compute; congruence. }
  split.
  - unfold sliding_windows. rewrite Est.
    apply sliding_windows_drain_diverges; [reflexivity | exact Hcal | simpl; lia].
  - unfold analyze_time_windows. rewrite Est.
    apply analyze_loop_diverges.
    + exact log_chain_parses.
    + exact log_chain_uniform.
    + apply cut_within_nodes_local, minimum_cut_within_nodes.
    + reflexivity.
    + intros t Ht. vm_compute in Ht.
      destruct Ht as [<-|[<-|[]]]; reflexivity.
    + reflexivity.
    + exact Hcal.
    + simpl; lia.
Qed.



(** ** The aggregation over the windows *)

Lemma fold_left_flat_map {A B C : Type} (f : A -> B -> A) (g : C -> list B)
  (l : list C) (a : A) :
  fold_left f (flat_map g l) a = fold_left (fun acc x => fold_left f (g x) acc) l a.
Proof.
  revert a; induction l as [|x l IH]; intros a; simpl; [reflexivity|].
  rewrite fold_left_app. apply IH.
Qed.

Lemma count_edges_stream (results : list WindowResult) :
  count_edges results
  = fold_left (fun c e => counter_incr e c) (edge_stream results) [].
Proof. unfold count_edges, edge_stream. rewrite fold_left_flat_map. reflexivity. Qed.

Lemma existsb_key_In (e : edge_key) (l : list edge_key) :
  existsb (key_eqb e) l = true <-> In e l.
Proof.
  rewrite existsb_exists. split.
  - intros (x & Hx & E). apply key_eqb_eq in E. subst. exact Hx.
  - intros H. exists e. split; [exact H | apply key_eqb_refl].
Qed.

Lemma first_seen_snoc (l : list edge_key) (x : edge_key) :
  first_seen (l ++ [x])
  = if existsb (key_eqb x) (first_seen l) then first_seen l else first_seen l ++ [x].
Proof. unfold first_seen. rewrite fold_left_app. reflexivity. Qed.

Lemma first_seen_spec (l : list edge_key) :
  NoDup (first_seen l) /\ forall e, In e (first_seen l) <-> In e l.
Proof.
  induction l as [|x l [ND Hin]] using rev_ind.
  - split; [constructor | reflexivity].
  - rewrite first_seen_snoc. destruct (existsb (key_eqb x) (first_seen l)) eqn:E.
    + apply existsb_key_In in E. split; [exact ND|].
      intros e. rewrite in_app_iff, Hin. simpl. split; [tauto|].
      intros [H|[<-|[]]]; [exact H | apply Hin, E].
    + assert (Hx : ~ In x (first_seen l)).
      { intros H. apply existsb_key_In in H. congruence. }
      split.
      * apply NoDup_app; [exact ND | constructor; [simpl; tauto | constructor] |].
        intros a Ha [<-|[]]. contradiction.
      * intros e. rewrite !in_app_iff, Hin. reflexivity.
Qed.

Lemma occurrences_snoc (e x : edge_key) (l : list edge_key) :
  occurrences e (l ++ [x])
  = (occurrences e l + if key_eqb e x then 1 else 0)%Z.
Proof.
  unfold occurrences. rewrite filter_app, length_app. simpl.
  destruct (key_eqb e x); simpl; lia.
Qed.

Lemma occurrences_absent (e : edge_key) (l : list edge_key) :
  ~ In e l -> occurrences e l = 0%Z.
Proof.
  intros H. unfold occurrences.
  replace (filter (key_eqb e) l) with (@nil edge_key); [reflexivity|].
  symmetry. induction l as [|x l IH]; [reflexivity|]. simpl.
  destruct (key_eqb e x) eqn:E.
  - apply key_eqb_eq in E. subst. exfalso. apply H. left; reflexivity.
  - apply IH. intros Hl. apply H. right; exact Hl.
Qed.

Lemma counter_incr_known (x : edge_key) (f : edge_key -> Z) (keys : list edge_key) :
  NoDup keys -> In x keys ->
  counter_incr x (map (fun e => (e, f e)) keys)
  = map (fun e => (e, (f e + if key_eqb e x then 1 else 0)%Z)) keys.
Proof.
  induction keys as [|k keys IH]; intros ND Hin; [destruct Hin|].
  inversion ND as [|? ? Hk ND']; subst. simpl.
  destruct (key_eqb x k) eqn:E.
  - apply key_eqb_eq in E. subst k. rewrite key_eqb_refl. f_equal.
    apply map_ext_in. intros e He.
    destruct (key_eqb e x) eqn:E'.
    + apply key_eqb_eq in E'. subst. contradiction.
    + f_equal. lia.
  - rewrite key_eqb_sym, E. rewrite Z.add_0_r. f_equal.
    apply IH; [exact ND'|]. destruct Hin as [->|H]; [|exact H].
    rewrite key_eqb_refl in E. discriminate.
Qed.

Lemma counter_incr_fresh (x : edge_key) (f : edge_key -> Z) (keys : list edge_key) :
  ~ In x keys ->
  counter_incr x (map (fun e => (e, f e)) keys)
  = map (fun e => (e, f e)) keys ++ [(x, 1%Z)].
Proof.
  induction keys as [|k keys IH]; intros Hin; [reflexivity|]. simpl.
  destruct (key_eqb x k) eqn:E.
  - apply key_eqb_eq in E. subst. exfalso. apply Hin. left; reflexivity.
  - f_equal. apply IH. intros H. apply Hin. right; exact H.
Qed.

(** The counter after the loops: every distinct edge with the number of its
    occurrences, in the order of first appearance. *)
Lemma counter_spec (l : list edge_key) :
  fold_left (fun c e => counter_incr e c) l []
  = map (fun e => (e, occurrences e l)) (first_seen l).
Proof.
  induction l as [|x l IH] using rev_ind; [reflexivity|].
  rewrite fold_left_app. cbn [fold_left]. rewrite IH, first_seen_snoc.
  destruct (first_seen_spec l) as [ND Hin].
  destruct (existsb (key_eqb x) (first_seen l)) eqn:E.
  - apply existsb_key_In in E. rewrite (counter_incr_known _ _ _ ND E).
    apply map_ext. intros e. rewrite occurrences_snoc. reflexivity.
  - assert (Hx : ~ In x (first_seen l)).
    { intros H. apply existsb_key_In in H. congruence. }
    rewrite (counter_incr_fresh _ _ _ Hx), map_app. cbn [map]. f_equal.
    + apply map_ext_in. intros e He. rewrite occurrences_snoc.
      destruct (key_eqb e x) eqn:E'; [|rewrite Z.add_0_r; reflexivity].
      apply key_eqb_eq in E'. subst. contradiction.
    + rewrite occurrences_snoc, key_eqb_refl, occurrences_absent; [reflexivity|].
      intros H. apply Hx, Hin, H.
Qed.

(** In deduplicated windows an edge occurs once per window that has it. *)
Lemma occurrences_windows (e : edge_key) (results : list WindowResult) :
  deduplicated results ->
  occurrences e (edge_stream results) = windows_containing e results.
Proof.
  unfold deduplicated, occurrences, windows_containing, edge_stream.
  induction 1 as [|w l Hw HF IH]; [reflexivity|].
  cbn [flat_map filter]. rewrite filter_app, length_app, Nat2Z.inj_add, IH.
  assert (Hone : List.length (filter (key_eqb e) (min_cut w))
                 = if existsb (key_eqb e) (min_cut w) then 1%nat else 0%nat).
  { clear -Hw. induction (min_cut w) as [|x m IHm]; [reflexivity|].
    inversion Hw as [|? ? Hx Hm]; subst. simpl.
    destruct (key_eqb e x) eqn:E; simpl.
    - apply key_eqb_eq in E. subst x. rewrite (IHm Hm).
      destruct (existsb (key_eqb e) m) eqn:E'; [|reflexivity].
      apply existsb_key_In in E'. contradiction.
    - apply IHm, Hm. }
  rewrite Hone. destruct (existsb (key_eqb e) (min_cut w)); simpl List.length; lia.
Qed.

(** *** The stable sort and the slice *)

Lemma insert_desc_perm (x : edge_key * Z) (l : list (edge_key * Z)) :
  Permutation (insert_desc x l) (x :: l).
Proof.
  induction l as [|y l IH]; simpl; [reflexivity|].
  destruct (snd x <? snd y)%Z; [|reflexivity].
  rewrite IH. apply perm_swap.
Qed.

Lemma sorted_desc_perm (l : list (edge_key * Z)) : Permutation (sorted_desc l) l.
Proof.
  induction l as [|x l IH]; simpl; [reflexivity|].
  rewrite insert_desc_perm. constructor. exact IH.
Qed.

Lemma insert_desc_sorted (x : edge_key * Z) (l : list (edge_key * Z)) :
  StronglySorted at_least l -> StronglySorted at_least (insert_desc x l).
Proof.
  induction 1 as [|y l Hl IH Hy]; simpl.
  - constructor; constructor.
  - destruct (Z.ltb_spec (snd x) (snd y)) as [L|L].
    + constructor; [exact IH|].
      apply (Permutation_Forall (Permutation_sym (insert_desc_perm x l))).
      constructor; [unfold at_least; lia | exact Hy].
    + constructor; [constructor; assumption|].
      constructor; [exact L|].
      eapply Forall_impl; [|exact Hy]. unfold at_least. intros z Hz. lia.
Qed.

Lemma sorted_desc_sorted (l : list (edge_key * Z)) :
  StronglySorted at_least (sorted_desc l).
Proof.
  induction l as [|x l IH]; simpl; [constructor|].
  apply insert_desc_sorted, IH.
Qed.

(** The sort is stable: among the entries of one count nothing moves. *)
Lemma insert_desc_stable (c : Z) (x : edge_key * Z) (l : list (edge_key * Z)) :
  filter (has_count c) (insert_desc x l)
  = (if has_count c x then [x] else []) ++ filter (has_count c) l.
Proof.
  induction l as [|y l IH]; simpl.
  - destruct (has_count c x); reflexivity.
  - destruct (Z.ltb_spec (snd x) (snd y)) as [L|L]; simpl.
    + rewrite IH. unfold has_count.
      destruct (Z.eqb_spec (snd x) c), (Z.eqb_spec (snd y) c); simpl; try reflexivity.
      lia.
    + destruct (has_count c x); reflexivity.
Qed.

Lemma sorted_desc_stable (c : Z) (l : list (edge_key * Z)) :
  filter (has_count c) (sorted_desc l) = filter (has_count c) l.
Proof.
  induction l as [|x l IH]; simpl; [reflexivity|].
  rewrite insert_desc_stable, IH. destruct (has_count c x); reflexivity.
Qed.

Lemma StronglySorted_firstn {A : Type} (R : A -> A -> Prop) (n : nat) (l : list A) :
  StronglySorted R l -> StronglySorted R (firstn n l).
Proof.
  revert l; induction n as [|n IH]; intros l H; [constructor|].
  destruct l as [|x l]; [constructor|]. simpl.
  inversion H as [|? ? Hl Hx]; subst. constructor; [apply IH, Hl|].
  rewrite <- (firstn_skipn n l) in Hx. apply Forall_app in Hx. tauto.
Qed.

Lemma StronglySorted_nth_error {A : Type} (R : A -> A -> Prop) (l : list A) :
  StronglySorted R l ->
  forall i j a b, (i < j)%nat ->
    nth_error l i = Some a -> nth_error l j = Some b -> R a b.
Proof.
  induction 1 as [|x l Hl IH Hx]; intros i j a b Hij Hi Hj.
  - destruct i; discriminate.
  - destruct j as [|j]; [lia|]. simpl in Hj.
    destruct i as [|i]; simpl in Hi.
    + injection Hi as <-. rewrite Forall_forall in Hx.
      apply Hx. eapply nth_error_In, Hj.
    + apply (IH i j); [lia | assumption | assumption].
Qed.

Lemma slice_to_nonneg {A : Type} (k : Z) (l : list A) :
  (0 <= k)%Z -> slice_to k l = firstn (Z.to_nat k) l.
Proof.
  intros H. unfold slice_to. destruct (Z.ltb_spec k 0); [lia | reflexivity].
Qed.

Lemma filter_counted (f : edge_key -> Z) (c : Z) (keys : list edge_key) :
  map fst (filter (has_count c) (map (fun e => (e, f e)) keys))
  = filter (fun e => (f e =? c)%Z) keys.
Proof.
  induction keys as [|k keys IH]; simpl; [reflexivity|].
  unfold has_count at 1. simpl. destruct (f k =? c)%Z; simpl; rewrite IH; reflexivity.
Qed.

(** C4.  On the windows that the analysis hands over, which list no edge
    twice (see [analysis_deduplicated]), and for a [top_k] that is a number
    of entries (the callers pass 10 and 20), [aggregate_bottlenecks]
    returns [min (top_k, number of distinct cut edges)] entries, one per
    edge; the count of an edge is the number of windows whose min-cut has
    it; the counts go down along the list; and the entries of one count are
    the edges of that count in the order of their first appearance (the
    first of them, when [top_k] cuts the list). *)
Theorem aggregate_bottlenecks_ranked (window_results : list WindowResult) (top_k : Z) :
  deduplicated window_results ->
  (0 <= top_k)%Z ->
  let out := aggregate_bottlenecks window_results top_k in
  let seen := first_seen (edge_stream window_results) in
  Z.of_nat (List.length out) = Z.min top_k (Z.of_nat (List.length seen))
  /\ NoDup (map fst out)
  /\ (forall e c, In (e, c) out ->
        In e (edge_stream window_results)
        /\ c = windows_containing e window_results)
  /\ (forall i j a b, (i < j)%nat ->
        nth_error out i = Some a -> nth_error out j = Some b ->
        (snd b <= snd a)%Z)
  /\ (forall c, exists rest,
        filter (fun e => (windows_containing e window_results =? c)%Z) seen
        = map fst (filter (has_count c) out) ++ rest).
Proof.
  intros Hdd Hk out seen.
  set (counter := map (fun e => (e, windows_containing e window_results)) seen).
  assert (Hcounter : count_edges window_results = counter).
  { rewrite count_edges_stream, counter_spec. unfold counter, seen.
    apply map_ext. intros e. rewrite (occurrences_windows e _ Hdd). reflexivity. }
  assert (Hout : out = firstn (Z.to_nat top_k) (sorted_desc counter)).
  { unfold out, aggregate_bottlenecks. rewrite Hcounter. apply slice_to_nonneg, Hk. }
  destruct (first_seen_spec (edge_stream window_results)) as [ND Hin].
  fold seen in ND, Hin.
  pose proof (sorted_desc_perm counter) as Hperm.
  assert (Hlen : List.length (sorted_desc counter) = List.length seen).
  { rewrite (Permutation_length Hperm). unfold counter. apply length_map. }
  assert (Hsplit : sorted_desc counter = out ++ skipn (Z.to_nat top_k) (sorted_desc counter)).
  { rewrite Hout. symmetry. apply firstn_skipn. }
  split; [|split; [|split; [|split]]].
  - rewrite Hout, length_firstn, Hlen. lia.
  - assert (NDs : NoDup (map fst (sorted_desc counter))).
    { apply (Permutation_NoDup (l := map fst counter)).
      - apply Permutation_map, Permutation_sym, Hperm.
      - unfold counter. rewrite map_map. simpl. rewrite map_id. exact ND. }
    rewrite Hsplit, map_app in NDs. apply NoDup_app_remove_r in NDs. exact NDs.
  - intros e c He.
    assert (Hc : In (e, c) counter).
    { apply (Permutation_in _ Hperm). rewrite Hsplit. apply in_or_app. left; exact He. }
    unfold counter in Hc. apply in_map_iff in Hc. destruct Hc as (e' & [= -> <-] & He').
    split; [apply Hin, He' | reflexivity].
  - intros i j a b Hij Hi Hj.
    assert (Hs : StronglySorted at_least out).
    { rewrite Hout. apply StronglySorted_firstn, sorted_desc_sorted. }
    apply (StronglySorted_nth_error _ _ Hs i j a b Hij Hi Hj).
  - intros c.
    exists (map fst (filter (has_count c) (skipn (Z.to_nat top_k) (sorted_desc counter)))).
    rewrite <- map_app, <- filter_app, <- Hsplit, sorted_desc_stable.
    unfold counter. rewrite filter_counted. reflexivity.
Qed.

Lemma nodupb_spec (l : list edge_key) : nodupb l = true -> NoDup l.
Proof.
  induction l as [|e l IH]; simpl; intros H; [constructor|].
  apply andb_true_iff in H. destruct H as [H1 H2].
  constructor; [|apply IH, H2].
  intros Hin. apply existsb_key_In in Hin. rewrite Hin in H1. discriminate.
Qed.

Lemma deduplicatedb_spec (window_results : list WindowResult) :
  deduplicatedb window_results = true -> deduplicated window_results.
Proof.
  unfold deduplicatedb, deduplicated. rewrite forallb_forall, Forall_forall.
  intros H w Hw. apply nodupb_spec, H, Hw.
Qed.

Lemma aggregate_bottlenecks_witness :
  aggregate_bottlenecks windows_xy 1 = [(("X", "Y")%string, 2%Z)]
  /\ Z.of_nat (List.length (aggregate_bottlenecks windows_xy 1))
     = Z.min 1 (Z.of_nat (List.length (first_seen (edge_stream windows_xy)))).
Proof.
  split; [vm_compute; reflexivity|].
  apply (aggregate_bottlenecks_ranked windows_xy 1).
  - apply deduplicatedb_spec. vm_compute; reflexivity.
  - lia.
Defined.

(** ** The live analyzer *)

Section LiveFacts.

Variable fromisoformat : string -> option datetime.
Variable nx_maximum_flow : max_flow_fn.
Variable nx_minimum_cut : min_cut_fn.
Variables (source sink : string) (window step : Z) (capacity : string).

Local Abbreviation reachable :=
  (RuntimeAnalyzer.reachable fromisoformat nx_maximum_flow nx_minimum_cut
     source sink window step capacity).

(** C9 (as the code has it).  The windows and the bottlenecks are assigned
    in one block under the lock, so in every state that the threads can
    reach the published bottlenecks are the aggregation of the published
    windows: a reader of the two never sees them from different cycles.
    The graph is assigned in a later block of its own and is not part of
    this guarantee. *)
Theorem windows_and_bottlenecks_published_together (s : RuntimeAnalyzer.state) :
  reachable s ->
  RuntimeAnalyzer.latest_bottlenecks (RuntimeAnalyzer.mem s)
  = aggregate_bottlenecks (RuntimeAnalyzer.latest_windows (RuntimeAnalyzer.mem s)) 10.
Proof.
  induction 1 as [|s s' Hs IH Hstep].
  - reflexivity.
  - destruct Hstep; simpl in *; try exact IH; reflexivity.
Qed.

End LiveFacts.

Lemma live_windows_run :
  analyze_time_windows Iso.fromisoformat
    FlowCutSolver.maximum_flow FlowCutSolver.minimum_cut
    5 log_chain "A" "C" 60 30 "capacity" = Some (Ok live_windows).
Proof. vm_compute; reflexivity. Qed.

Lemma state_snapshot_reachable :
  RuntimeAnalyzer.reachable Iso.fromisoformat
    FlowCutSolver.maximum_flow FlowCutSolver.minimum_cut
    "A" "C" 60 30 "capacity" state_snapshot.
Proof.
  eapply RuntimeAnalyzer.reach_step;
    [|apply (RuntimeAnalyzer.step_snapshot _ _ _ _ _ _ _ _
               (RuntimeAnalyzer.mkShared log_chain [] [] None))].
  eapply RuntimeAnalyzer.reach_step;
    [|apply (RuntimeAnalyzer.step_tail _ _ _ _ _ _ _ _
               (RuntimeAnalyzer.mkShared [call "2024-01-01T00:00:00Z" "A" "B" 10] [] [] None)
               RuntimeAnalyzer.Sleeping
               (call "2024-01-01T00:00:01Z" "B" "C" 20))].
  eapply RuntimeAnalyzer.reach_step;
    [|apply (RuntimeAnalyzer.step_tail _ _ _ _ _ _ _ _
               (RuntimeAnalyzer.mkShared [] [] [] None)
               RuntimeAnalyzer.Sleeping
               (call "2024-01-01T00:00:00Z" "A" "B" 10))].
  apply RuntimeAnalyzer.reach_init.
Qed.

Lemma state_between_step :
  RuntimeAnalyzer.thread_step Iso.fromisoformat
    FlowCutSolver.maximum_flow FlowCutSolver.minimum_cut
    "A" "C" 60 30 "capacity" state_snapshot state_between.
Proof.
  apply (RuntimeAnalyzer.step_publish Iso.fromisoformat
           FlowCutSolver.maximum_flow FlowCutSolver.minimum_cut
           "A" "C" 60 30 "capacity"
           (RuntimeAnalyzer.mkShared log_chain [] [] None) log_chain 5 live_windows).
  - discriminate.
  - exact live_windows_run.
Qed.

Lemma state_between_reachable :
  RuntimeAnalyzer.reachable Iso.fromisoformat
    FlowCutSolver.maximum_flow FlowCutSolver.minimum_cut
    "A" "C" 60 30 "capacity" state_between.
Proof.
  eapply RuntimeAnalyzer.reach_step;
    [exact state_snapshot_reachable | exact state_between_step].
Qed.

Lemma state_done_step :
  RuntimeAnalyzer.thread_step Iso.fromisoformat
    FlowCutSolver.maximum_flow FlowCutSolver.minimum_cut
    "A" "C" 60 30 "capacity" state_between state_done.
Proof.
  assert (E : RuntimeAnalyzer.cycle_graph Iso.fromisoformat log_chain live_windows live_top
              = match RuntimeAnalyzer.cycle_graph Iso.fromisoformat
                        log_chain live_windows live_top with
                | Some v => Some v
                | None => None
                end).
  { destruct (RuntimeAnalyzer.cycle_graph _ _ _ _); reflexivity. }
  unfold state_done. rewrite E.
  apply (RuntimeAnalyzer.step_graph Iso.fromisoformat
           FlowCutSolver.maximum_flow FlowCutSolver.minimum_cut
           "A" "C" 60 30 "capacity"
           (RuntimeAnalyzer.mkShared log_chain live_windows live_top None)).
Qed.

Lemma published_together_witness :
  RuntimeAnalyzer.latest_bottlenecks (RuntimeAnalyzer.mem state_between)
  = aggregate_bottlenecks
      (RuntimeAnalyzer.latest_windows (RuntimeAnalyzer.mem state_between)) 10.
Proof.
  apply (windows_and_bottlenecks_published_together Iso.fromisoformat
           FlowCutSolver.maximum_flow FlowCutSolver.minimum_cut
           "A" "C" 60 30 "capacity" state_between).
  exact state_between_reachable.
Defined.

(** C9 as it is stated fails: in the first cycle on the chain log the state
    between the two blocks shows the windows and the bottlenecks of the
    cycle with the graph of before the cycle; it is neither the triple of
    before nor the triple of after. *)
Lemma torn_publication_counterexample :
  RuntimeAnalyzer.reachable Iso.fromisoformat
    FlowCutSolver.maximum_flow FlowCutSolver.minimum_cut
    "A" "C" 60 30 "capacity" state_between
  /\ RuntimeAnalyzer.thread_step Iso.fromisoformat
       FlowCutSolver.maximum_flow FlowCutSolver.minimum_cut
       "A" "C" 60 30 "capacity" state_snapshot state_between
  /\ RuntimeAnalyzer.thread_step Iso.fromisoformat
       FlowCutSolver.maximum_flow FlowCutSolver.minimum_cut
       "A" "C" 60 30 "capacity" state_between state_done
  /\ RuntimeAnalyzer.published state_between <> RuntimeAnalyzer.published state_snapshot
  /\ RuntimeAnalyzer.published state_between <> RuntimeAnalyzer.published state_done
  /\ fst (RuntimeAnalyzer.published state_between)
     = fst (RuntimeAnalyzer.published state_done)
  /\ snd (RuntimeAnalyzer.published state_between)
     = snd (RuntimeAnalyzer.published state_snapshot).
Proof.
  split; [exact state_between_reachable|].
  split; [exact state_between_step|].
  split; [exact state_done_step|].
  split.
  { intros H. apply (f_equal (fun t => List.length (fst (fst t)))) in H.
    vm_compute in H. discriminate. }
  split.
  { intros H. apply (f_equal snd) in H. vm_compute in H. discriminate. }
  split; reflexivity.
Qed.

(** ** The solver of the specification: search in the residual graph *)

Lemma steps_snoc (p : list string) (v d : string) :
  p <> [] -> steps (p ++ [v]) = steps p ++ [(last p d, v)].
Proof.
  induction p as [|u p IH]; intros Hp; [congruence|].
  destruct p as [|u' p]; [reflexivity|].
  change (steps ((u :: u' :: p) ++ [v])) with ((u, u') :: steps ((u' :: p) ++ [v])).
  rewrite IH by discriminate. reflexivity.
Qed.

Lemma steps_In_l (p : list string) (u v : string) : In (u, v) (steps p) -> In u p.
Proof.
  induction p as [|x p IH]; [intros []|].
  destruct p as [|y p]; [intros []|].
  intros [[= -> ->]|H]; [left; reflexivity | right; apply IH, H].
Qed.

Lemma steps_In_r (p : list string) (u v : string) : In (u, v) (steps p) -> In v p.
Proof.
  induction p as [|x p IH]; [intros []|].
  destruct p as [|y p]; [intros []|].
  intros [[= -> ->]|H]; [right; left; reflexivity | right; apply IH, H].
Qed.

Lemma is_found_In (fs : FlowCutSolver.found_set) (v : string) :
  FlowCutSolver.is_found fs v = true <-> In v (map fst fs).
Proof.
  unfold FlowCutSolver.is_found. rewrite existsb_exists, in_map_iff. split.
  - intros (e & He & E). apply String.eqb_eq in E. exists e. auto.
  - intros (e & E & He). exists e. split; [exact He|]. apply String.eqb_eq. auto.
Qed.

Lemma is_found_false (fs : FlowCutSolver.found_set) (v : string) :
  FlowCutSolver.is_found fs v = false <-> ~ In v (map fst fs).
Proof.
  rewrite <- is_found_In. destruct (FlowCutSolver.is_found fs v); split; congruence.
Qed.

Lemma path_to_Some (fs : FlowCutSolver.found_set) (v : string) (p : list string) :
  FlowCutSolver.path_to fs v = Some p -> In (v, p) fs.
Proof.
  unfold FlowCutSolver.path_to.
  destruct (find (fun e => String.eqb v (fst e)) fs) as [[v' p']|] eqn:E; [|discriminate].
  intros [= <-]. apply find_some in E. destruct E as [Hin E].
  apply String.eqb_eq in E. simpl in E. subst. exact Hin.
Qed.

Lemma path_to_None (fs : FlowCutSolver.found_set) (v : string) :
  FlowCutSolver.path_to fs v = None -> ~ In v (map fst fs).
Proof.
  unfold FlowCutSolver.path_to.
  destruct (find (fun e => String.eqb v (fst e)) fs) as [e|] eqn:E; [discriminate|].
  intros _ Hin. apply in_map_iff in Hin. destruct Hin as (e & <- & He).
  pose proof (find_none _ _ E e He) as H. simpl in H.
  rewrite String.eqb_refl in H. discriminate.
Qed.

Section SearchFacts.

Variable nodes : list string.
Variable cap : string -> string -> Q.
Variables source sink : string.

Hypothesis source_node : In source nodes.

Local Abbreviation residual := (FlowCutSolver.residual cap).
Local Abbreviation found_ok := (found_ok nodes cap source).
Local Abbreviation closed_set := (closed_set nodes cap).

Lemma crossing_from_Some (f : FlowCutSolver.flow_fn) (fs : FlowCutSolver.found_set)
  (e c : string * list string) :
  FlowCutSolver.crossing_from nodes cap f fs e = Some c ->
  exists v, c = (v, snd e ++ [v]) /\ In v nodes /\ ~ In v (map fst fs)
            /\ 0 < residual f (fst e) v.
Proof.
  unfold FlowCutSolver.crossing_from.
  destruct (find _ nodes) as [v|] eqn:E; [|discriminate].
  intros [= <-]. apply find_some in E. destruct E as [Hv E].
  apply andb_true_iff in E. destruct E as [E1 E2].
  apply negb_true_iff, is_found_false in E1. apply Qlt_bool_iff in E2.
  exists v. auto.
Qed.

Lemma crossing_from_None (f : FlowCutSolver.flow_fn) (fs : FlowCutSolver.found_set)
  (e : string * list string) :
  FlowCutSolver.crossing_from nodes cap f fs e = None ->
  forall v, In v nodes -> ~ In v (map fst fs) -> residual f (fst e) v <= 0.
Proof.
  unfold FlowCutSolver.crossing_from.
  destruct (find _ nodes) as [v|] eqn:E; [discriminate|].
  intros _ v Hv Hnot. pose proof (find_none _ _ E v Hv) as H. simpl in H.
  apply is_found_false in Hnot. rewrite Hnot in H. simpl in H.
  apply Qlt_bool_false in H. exact H.
Qed.

Lemma first_crossing_Some (f : FlowCutSolver.flow_fn) (fs todo : FlowCutSolver.found_set)
  (c : string * list string) :
  FlowCutSolver.first_crossing nodes cap f fs todo = Some c ->
  exists e v, In e todo /\ c = (v, snd e ++ [v]) /\ In v nodes
              /\ ~ In v (map fst fs) /\ 0 < residual f (fst e) v.
Proof.
  induction todo as [|e todo IH]; [discriminate|]. simpl.
  destruct (FlowCutSolver.crossing_from nodes cap f fs e) as [c'|] eqn:E.
  - intros [= <-]. destruct (crossing_from_Some _ _ _ _ E) as (v & H).
    exists e, v. split; [left; reflexivity | exact H].
  - intros H. destruct (IH H) as (e' & v & He' & H').
    exists e', v. split; [right; exact He' | exact H'].
Qed.

Lemma first_crossing_None (f : FlowCutSolver.flow_fn) (fs todo : FlowCutSolver.found_set) :
  FlowCutSolver.first_crossing nodes cap f fs todo = None ->
  forall e v, In e todo -> In v nodes -> ~ In v (map fst fs) ->
              residual f (fst e) v <= 0.
Proof.
  induction todo as [|e0 todo IH]; [intros _ e v []|]. simpl.
  destruct (FlowCutSolver.crossing_from nodes cap f fs e0) as [c'|] eqn:E; [discriminate|].
  intros H e v [<-|He] Hv Hnot.
  - apply (crossing_from_None _ _ _ E v Hv Hnot).
  - apply (IH H e v He Hv Hnot).
Qed.

Lemma found_ok_step (f : FlowCutSolver.flow_fn) (fs : FlowCutSolver.found_set)
  (c : string * list string) :
  found_ok f fs ->
  FlowCutSolver.first_crossing nodes cap f fs fs = Some c ->
  found_ok f (fs ++ [c]).
Proof.
  intros (ND & Hincl & Hsrc & Hent) Hc.
  destruct (first_crossing_Some _ _ _ _ Hc) as ([u p] & v & He & -> & Hv & Hnot & Hres).
  simpl in Hres. simpl snd.
  destruct (Hent u p He) as (Hhd & Hlast & Hpath & NDp & Hp).
  assert (Hpne : p <> []) by (destruct p; discriminate).
  split; [|split; [|split]].
  - rewrite map_app. simpl. apply NoDup_app; [exact ND | constructor; [simpl; tauto|constructor] |].
    intros x Hx [Hv'|[]]. subst x. contradiction.
  - rewrite map_app. simpl. intros x Hx. apply in_app_iff in Hx.
    destruct Hx as [Hx|[<-|[]]]; [apply Hincl, Hx | exact Hv].
  - apply is_found_In. rewrite map_app. apply in_or_app. left.
    apply is_found_In, Hsrc.
  - intros v' p' Hin. apply in_app_iff in Hin. destruct Hin as [Hin|[[= <- <-]|[]]].
    + destruct (Hent v' p' Hin) as (H1 & H2 & H3 & H4 & H5).
      repeat split; auto.
      intros x Hx. rewrite map_app. apply in_or_app. left. apply H5, Hx.
    + split; [destruct p; [congruence | exact Hhd]|].
      split; [apply last_last|].
      split.
      { unfold residual_path. rewrite (steps_snoc p v source Hpne).
        apply Forall_app. split; [exact Hpath|].
        constructor; [|constructor]. simpl. rewrite Hlast. exact Hres. }
      split.
      { apply NoDup_app; [exact NDp | constructor; [simpl; tauto|constructor] |].
        intros x Hx [Hv'|[]]. subst x. apply Hnot, Hp, Hx. }
      intros x Hx. rewrite map_app. apply in_app_iff in Hx. apply in_or_app.
      destruct Hx as [Hx|[<-|[]]]; [left; apply Hp, Hx | right; left; reflexivity].
Qed.

Lemma grow_ok (f : FlowCutSolver.flow_fn) (fuel : nat) (fs : FlowCutSolver.found_set) :
  found_ok f fs -> found_ok f (FlowCutSolver.grow nodes cap fuel f fs).
Proof.
  revert fs; induction fuel as [|fuel IH]; intros fs H; [exact H|]. simpl.
  destruct (FlowCutSolver.first_crossing nodes cap f fs fs) as [c|] eqn:E; [|exact H].
  apply IH, (found_ok_step _ _ _ H E).
Qed.

Lemma first_crossing_closed (f : FlowCutSolver.flow_fn) (fs : FlowCutSolver.found_set) :
  FlowCutSolver.first_crossing nodes cap f fs fs = None -> closed_set f fs.
Proof.
  intros H u v Hu Hv Hnot. apply in_map_iff in Hu. destruct Hu as (e & <- & He).
  apply (first_crossing_None _ _ _ H e v He Hv Hnot).
Qed.

Lemma grow_closed (f : FlowCutSolver.flow_fn) (fuel : nat) (fs : FlowCutSolver.found_set) :
  found_ok f fs ->
  (List.length nodes < List.length fs + fuel)%nat ->
  closed_set f (FlowCutSolver.grow nodes cap fuel f fs).
Proof.
  revert fs; induction fuel as [|fuel IH]; intros fs H Hlen.
  - exfalso. destruct H as (ND & Hincl & _).
    pose proof (NoDup_incl_length ND Hincl) as L. rewrite length_map in L. lia.
  - simpl.
    destruct (FlowCutSolver.first_crossing nodes cap f fs fs) as [c|] eqn:E.
    + apply IH; [apply (found_ok_step _ _ _ H E)|]. rewrite length_app. simpl. lia.
    + apply first_crossing_closed, E.
Qed.

Lemma found_ok_init (f : FlowCutSolver.flow_fn) : found_ok f [(source, [source])].
Proof.
  split; [|split; [|split]].
  - simpl. constructor; [simpl; tauto | constructor].
  - intros x [<-|[]]. exact source_node.
  - unfold FlowCutSolver.is_found. simpl. rewrite String.eqb_refl. reflexivity.
  - intros v p [[= <- <-]|[]].
    split; [reflexivity|]. split; [reflexivity|].
    split; [constructor|]. split; [constructor; [simpl; tauto | constructor]|].
    intros x [<-|[]]. left; reflexivity.
Qed.

(** The search finds paths of the residual graph, and nothing leaves what
    it has found. *)
Lemma search_ok (f : FlowCutSolver.flow_fn) :
  found_ok f (FlowCutSolver.search nodes cap source f)
  /\ closed_set f (FlowCutSolver.search nodes cap source f).
Proof.
  unfold FlowCutSolver.search. split.
  - apply grow_ok, found_ok_init.
  - apply grow_closed; [apply found_ok_init | simpl; lia].
Qed.

End SearchFacts.

(** ** Sums over nodes *)

Lemma sumQ_map_le {A : Type} (f g : A -> Q) (l : list A) :
  (forall x, In x l -> f x <= g x) -> sumQ (map f l) <= sumQ (map g l).
Proof.
  induction l as [|x l IH]; intros H; simpl.
  - apply Qle_refl.
  - apply Qplus_le_compat.
    + apply H. left; reflexivity.
    + apply IH. intros y Hy. apply H. right; exact Hy.
Qed.

Lemma sumQ_map_minus {A : Type} (f g : A -> Q) (l : list A) :
  sumQ (map (fun x => f x - g x) l) == sumQ (map f l) - sumQ (map g l).
Proof.
  induction l as [|x l IH]; simpl.
  - ring.
  - rewrite IH. ring.
Qed.

Lemma sumQ_filter_split {A : Type} (p : A -> bool) (g : A -> Q) (l : list A) :
  sumQ (map g l)
  == sumQ (map g (filter p l)) + sumQ (map g (filter (fun x => negb (p x)) l)).
Proof.
  induction l as [|x l IH]; simpl.
  - ring.
  - rewrite IH. destruct (p x); simpl; ring.
Qed.

Lemma sumQ_indicator_r (n : string) (w : Q) (ns : list string) :
  NoDup ns -> In n ns ->
  sumQ (map (fun m => if String.eqb m n then w else 0) ns) == w.
Proof.
  intros ND Hin.
  rewrite (sumQ_map_ext (fun m => if String.eqb m n then w else 0)
                        (fun m => if String.eqb n m then w else 0)).
  - apply sumQ_indicator; assumption.
  - intros m _. rewrite String.eqb_sym. reflexivity.
Qed.

Lemma sumQ_single (a : string) (g : string -> Q) (l : list string) :
  NoDup l -> In a l ->
  (forall x, In x l -> x <> a -> g x == 0) ->
  sumQ (map g l) == g a.
Proof.
  intros ND Hin H.
  rewrite (sumQ_map_ext g (fun m => if String.eqb m a then g a else 0)).
  - apply sumQ_indicator_r; assumption.
  - intros x Hx. destruct (String.eqb_spec x a) as [->|Hne]; [reflexivity | apply H; assumption].
Qed.

(** An antisymmetric table adds up to nothing over a square. *)
Lemma sumQ_skew (f : string -> string -> Q) (l : list string) :
  (forall u v, f u v == - f v u) ->
  sumQ (map (fun u => sumQ (map (f u) l)) l) == 0.
Proof.
  intros Hskew. induction l as [|a l IH]; [reflexivity|].
  cbn [map sumQ fold_right].
  rewrite (sumQ_map_ext (fun u => sumQ (map (f u) (a :: l)))
                        (fun u => f u a + sumQ (map (f u) l)))
    by (intros; reflexivity).
  rewrite sumQ_map_plus. unfold sumQ in IH. unfold sumQ. rewrite IH.
  assert (Haa : f a a == 0) by (pose proof (Hskew a a); lra).
  assert (Hcross : fold_right Qplus 0 (map (f a) l)
                   + fold_right Qplus 0 (map (fun u => f u a) l) == 0).
  { clear IH. induction l as [|b l IHl]; simpl; [ring|].
    pose proof (Hskew a b). lra. }
  lra.
Qed.

(** ** The solver of the specification: augmentation *)

Lemma multiple_of_plus (d : positive) (a b : Q) :
  multiple_of d a -> multiple_of d b -> multiple_of d (a + b).
Proof.
  intros [x Hx] [y Hy]. exists (x + y)%Z. rewrite Hx, Hy.
  unfold Qeq, Qplus. simpl. nia.
Qed.

Lemma multiple_of_minus (d : positive) (a b : Q) :
  multiple_of d a -> multiple_of d b -> multiple_of d (a - b).
Proof.
  intros [x Hx] [y Hy]. exists (x - y)%Z. rewrite Hx, Hy.
  unfold Qeq, Qminus, Qplus, Qopp. simpl. nia.
Qed.

Lemma multiple_of_zero (d : positive) : multiple_of d 0.
Proof. exists 0%Z. reflexivity. Qed.

Lemma multiple_of_pos (d : positive) (a : Q) :
  multiple_of d a -> 0 < a -> 1 # d <= a.
Proof.
  intros [z Hz] Ha. rewrite Hz in *. unfold Qlt, Qle in *. simpl in *. nia.
Qed.

Lemma fold_mul_divides (d : positive) (l : list positive) :
  In d l -> exists k, fold_right Pos.mul 1%positive l = (d * k)%positive.
Proof.
  induction l as [|x l IH]; intros Hin; [destruct Hin|].
  destruct Hin as [->|Hin].
  - exists (fold_right Pos.mul 1%positive l). reflexivity.
  - destruct (IH Hin) as [k Hk]. exists (x * k)%positive. simpl. rewrite Hk. lia.
Qed.

Lemma push_pointwise (f : FlowCutSolver.flow_fn) (u v : string) (b : Q) (x y : string) :
  u <> v ->
  FlowCutSolver.push f u v b x y
  == f x y + (if String.eqb x u && String.eqb y v then b else 0)
           - (if String.eqb x v && String.eqb y u then b else 0).
Proof.
  intros Huv. unfold FlowCutSolver.push.
  destruct (String.eqb_spec x u), (String.eqb_spec y v),
           (String.eqb_spec x v), (String.eqb_spec y u);
    simpl; try ring; subst; congruence.
Qed.

Lemma push_skew (f : FlowCutSolver.flow_fn) (u v : string) (b : Q) :
  u <> v ->
  (forall x y, f x y == - f y x) ->
  forall x y, FlowCutSolver.push f u v b x y == - FlowCutSolver.push f u v b y x.
Proof.
  intros Huv H x y. rewrite !push_pointwise by exact Huv. rewrite (H x y).
  destruct (String.eqb x u), (String.eqb y v), (String.eqb x v), (String.eqb y u);
    simpl; ring.
Qed.

Lemma augment_skew (b : Q) (p : list string) :
  NoDup p ->
  forall f, (forall x y, f x y == - f y x) ->
  forall x y, FlowCutSolver.augment f p b x y == - FlowCutSolver.augment f p b y x.
Proof.
  induction p as [|u p IH]; intros ND f H; [exact H|].
  destruct p as [|v p]; [exact H|].
  cbn [FlowCutSolver.augment]. inversion ND as [|? ? Hu ND']; subst.
  apply IH; [exact ND'|]. apply push_skew; [|exact H].
  intros ->. apply Hu. left; reflexivity.
Qed.

Lemma augment_int (d : positive) (b : Q) (p : list string) :
  multiple_of d b ->
  forall f, (forall x y, multiple_of d (f x y)) ->
  forall x y, multiple_of d (FlowCutSolver.augment f p b x y).
Proof.
  intros Hb. induction p as [|u p IH]; intros f H; [exact H|].
  destruct p as [|v p]; [exact H|].
  cbn [FlowCutSolver.augment]. apply IH. intros x y. unfold FlowCutSolver.push.
  destruct (String.eqb x u && String.eqb y v); [apply multiple_of_plus; auto|].
  destruct (String.eqb x v && String.eqb y u); [apply multiple_of_minus; auto | auto].
Qed.

Section AugmentFacts.

Variable nodes : list string.
Variable cap : string -> string -> Q.

Hypothesis nodes_nodup : NoDup nodes.

Local Abbreviation residual := (FlowCutSolver.residual cap).
Local Abbreviation excess := (FlowCutSolver.excess nodes).

Lemma augment_cap (b : Q) (p : list string) :
  0 <= b -> NoDup p ->
  forall f,
    (forall x y, f x y <= cap x y) ->
    (forall e, In e (steps p) -> f (fst e) (snd e) + b <= cap (fst e) (snd e)) ->
    forall x y, FlowCutSolver.augment f p b x y <= cap x y.
Proof.
  intros Hb. induction p as [|u p IH]; intros ND f Hc Hs; [exact Hc|].
  destruct p as [|v p]; [exact Hc|].
  cbn [FlowCutSolver.augment]. inversion ND as [|? ? Hu ND']; subst.
  assert (Huv : u <> v) by (intros ->; apply Hu; left; reflexivity).
  apply IH; [exact ND' | |].
  - intros x y. unfold FlowCutSolver.push.
    destruct (String.eqb_spec x u) as [->|?], (String.eqb_spec y v) as [->|?]; simpl.
    + apply (Hs (u, v)). left; reflexivity.
    + destruct (String.eqb u v && String.eqb y u); [pose proof (Hc u y); lra | apply Hc].
    + destruct (String.eqb x v && String.eqb v u); [pose proof (Hc x v); lra | apply Hc].
    + destruct (String.eqb x v && String.eqb y u); [pose proof (Hc x y); lra | apply Hc].
  - intros [x y] He. simpl.
    assert (Hx : x <> u).
    { intros ->. apply Hu. apply (steps_In_l _ _ _ He). }
    assert (Hy : y <> u).
    { intros ->. apply Hu. apply (steps_In_r _ _ _ He). }
    unfold FlowCutSolver.push.
    destruct (String.eqb_spec x u); [contradiction|].
    destruct (String.eqb_spec y u); [contradiction|].
    rewrite andb_false_r. simpl.
    apply (Hs (x, y)). right; exact He.
Qed.

Lemma excess_push (f : FlowCutSolver.flow_fn) (u v : string) (b : Q) (x : string) :
  In u nodes -> In v nodes -> u <> v ->
  excess (FlowCutSolver.push f u v b) x
  == excess f x + (if String.eqb x u then b else 0) - (if String.eqb x v then b else 0).
Proof.
  intros Hu Hv Huv. unfold FlowCutSolver.excess.
  rewrite (sumQ_map_ext _ _ nodes (fun y _ => push_pointwise f u v b x y Huv)).
  rewrite sumQ_map_minus, sumQ_map_plus.
  assert (H1 : sumQ (map (fun y => if String.eqb x u && String.eqb y v then b else 0) nodes)
               == if String.eqb x u then b else 0).
  { destruct (String.eqb x u); simpl.
    - apply sumQ_indicator_r; assumption.
    - apply sumQ_map_zero. }
  assert (H2 : sumQ (map (fun y => if String.eqb x v && String.eqb y u then b else 0) nodes)
               == if String.eqb x v then b else 0).
  { destruct (String.eqb x v); simpl.
    - apply sumQ_indicator_r; assumption.
    - apply sumQ_map_zero. }
  rewrite H1, H2. reflexivity.
Qed.

(** Along a path the excess changes at the two ends only. *)
Lemma excess_augment (b : Q) (p : list string) (d : string) :
  NoDup p -> incl p nodes -> p <> [] ->
  forall f x,
    excess (FlowCutSolver.augment f p b) x
    == excess f x + (if String.eqb x (hd d p) then b else 0)
                  - (if String.eqb x (last p d) then b else 0).
Proof.
  induction p as [|u p IH]; intros ND Hincl Hne f x; [congruence|].
  destruct p as [|v p].
  - simpl. destruct (String.eqb x u); ring.
  - cbn [FlowCutSolver.augment]. inversion ND as [|? ? Hu ND']; subst.
    assert (Huv : u <> v) by (intros ->; apply Hu; left; reflexivity).
    assert (Hincl' : incl (v :: p) nodes) by (intros y Hy; apply Hincl; right; exact Hy).
    assert (Hne' : v :: p <> []) by discriminate.
    pose proof (IH ND' Hincl' Hne' (FlowCutSolver.push f u v b) x) as H1.
    pose proof (excess_push f u v b x (Hincl u (or_introl eq_refl))
                  (Hincl v (or_intror (or_introl eq_refl))) Huv) as H2.
    change (hd d (v :: p)) with v in H1. change (hd d (u :: v :: p)) with u.
    change (last (u :: v :: p) d) with (last (v :: p) d).
    rewrite H1, H2. ring.
Qed.

Lemma bottleneck_cons (f : FlowCutSolver.flow_fn) (u v : string) (p : list string) :
  FlowCutSolver.bottleneck cap f (u :: v :: p)
  = match FlowCutSolver.bottleneck cap f (v :: p) with
    | Some b => Some (if Qlt_bool (residual f u v) b then residual f u v else b)
    | None => Some (residual f u v)
    end.
Proof. reflexivity. Qed.

Lemma bottleneck_spec (f : FlowCutSolver.flow_fn) (p : list string) :
  steps p <> [] ->
  exists b, FlowCutSolver.bottleneck cap f p = Some b
            /\ (exists e, In e (steps p) /\ b = residual f (fst e) (snd e))
            /\ forall e, In e (steps p) -> b <= residual f (fst e) (snd e).
Proof.
  induction p as [|u p IH]; intros Hne; [simpl in Hne; congruence|].
  destruct p as [|v p]; [simpl in Hne; congruence|].
  rewrite bottleneck_cons.
  destruct (steps (v :: p)) as [|e0 es] eqn:Es.
  - assert (Hb : FlowCutSolver.bottleneck cap f (v :: p) = None).
    { destruct p as [|w p]; [reflexivity | discriminate]. }
    rewrite Hb. exists (residual f u v). split; [reflexivity|].
    change (steps (u :: v :: p)) with ((u, v) :: steps (v :: p)). rewrite Es. split.
    + exists (u, v). split; [left; reflexivity | reflexivity].
    + intros e [<-|[]]. apply Qle_refl.
  - destruct IH as (b & Eb & (e & He & Hbe) & Hle); [discriminate|].
    rewrite Eb. change (steps (u :: v :: p)) with ((u, v) :: steps (v :: p)). rewrite Es.
    eexists. split; [reflexivity|].
    destruct (Qlt_bool (residual f u v) b) eqn:El.
    + apply Qlt_bool_iff in El. split.
      * exists (u, v). split; [left; reflexivity | reflexivity].
      * intros e' [<-|He']; [apply Qle_refl|].
        apply Qle_trans with b; [apply Qlt_le_weak, El | apply Hle, He'].
    + apply Qlt_bool_false in El. split.
      * exists e. split; [right; exact He | exact Hbe].
      * intros e' [<-|He']; [exact El | apply Hle, He'].
Qed.

End AugmentFacts.

(** ** The solver of the specification: convergence *)

Lemma rounds_nat_add (nodes : list string) (cap : string -> string -> Q)
  (source sink : string) (a b : nat) (f : FlowCutSolver.flow_fn) :
  rounds_nat nodes cap source sink (a + b) f
  = match rounds_nat nodes cap source sink a f with
    | inl f' => inl f'
    | inr f' => rounds_nat nodes cap source sink b f'
    end.
Proof.
  revert f; induction a as [|a IH]; intros f; simpl; [reflexivity|].
  destruct (FlowCutSolver.augment_once nodes cap source sink f); [reflexivity | apply IH].
Qed.

(** The rounds in binary are the rounds in unary. *)
Lemma rounds_to_nat (nodes : list string) (cap : string -> string -> Q)
  (source sink : string) (n : positive) (f : FlowCutSolver.flow_fn) :
  FlowCutSolver.rounds nodes cap source sink n f
  = rounds_nat nodes cap source sink (Pos.to_nat n) f.
Proof.
  revert f; induction n as [n IH|n IH|]; intros f.
  - rewrite Pos2Nat.inj_xI. cbn [FlowCutSolver.rounds rounds_nat].
    destruct (FlowCutSolver.augment_once nodes cap source sink f) as [f'|f1]; [reflexivity|].
    replace (2 * Pos.to_nat n)%nat with (Pos.to_nat n + Pos.to_nat n)%nat by lia.
    rewrite rounds_nat_add, <- IH.
    destruct (FlowCutSolver.rounds nodes cap source sink n f1); [reflexivity | apply IH].
  - rewrite Pos2Nat.inj_xO.
    replace (2 * Pos.to_nat n)%nat with (Pos.to_nat n + Pos.to_nat n)%nat by lia.
    rewrite rounds_nat_add, <- IH. cbn [FlowCutSolver.rounds].
    destruct (FlowCutSolver.rounds nodes cap source sink n f); [reflexivity | apply IH].
  - simpl. destruct (FlowCutSolver.augment_once nodes cap source sink f); reflexivity.
Qed.

Section FlowFacts.

Variable nodes : list string.
Variable cap : string -> string -> Q.
Variables source sink : string.

Hypothesis nodes_nodup : NoDup nodes.
Hypothesis cap_nonneg : forall u v, 0 <= cap u v.
Hypothesis source_node : In source nodes.
Hypothesis sink_node : In sink nodes.
Hypothesis source_not_sink : source <> sink.

Local Abbreviation residual := (FlowCutSolver.residual cap).
Local Abbreviation excess := (FlowCutSolver.excess nodes).
Local Abbreviation flow_value := (FlowCutSolver.flow_value nodes source).
Local Abbreviation search := (FlowCutSolver.search nodes cap source).
Local Abbreviation valid := (valid_flow nodes cap source sink).
Local Abbreviation denominator := (FlowCutSolver.denominator nodes cap).
Local Abbreviation cap_out := (sumQ (map (cap source) nodes)).

Lemma cap_multiple (u v : string) :
  In u nodes -> In v nodes -> multiple_of denominator (cap u v).
Proof.
  intros Hu Hv.
  assert (Hin : In (Qden (cap u v))
                   (flat_map (fun u => map (fun v => Qden (cap u v)) nodes) nodes)).
  { apply in_flat_map. exists u. split; [exact Hu|].
    apply (in_map (fun v => Qden (cap u v))), Hv. }
  destruct (fold_mul_divides _ _ Hin) as [k Hk].
  unfold FlowCutSolver.denominator. rewrite Hk.
  destruct (cap u v) as [n d]. simpl. exists (n * Zpos k)%Z.
  unfold Qeq. simpl. lia.
Qed.

Lemma zero_valid : valid FlowCutSolver.zero_flow.
Proof.
  constructor; unfold FlowCutSolver.zero_flow.
  - intros. ring.
  - intros. apply cap_nonneg.
  - intros. unfold FlowCutSolver.excess. apply sumQ_map_zero.
  - intros. apply multiple_of_zero.
Qed.

Lemma flow_value_le (f : FlowCutSolver.flow_fn) : valid f -> flow_value f <= cap_out.
Proof.
  intros V. unfold FlowCutSolver.flow_value, FlowCutSolver.excess.
  apply sumQ_map_le. intros v _. apply (flow_cap _ _ _ _ _ V).
Qed.

(** What the search hands to the augmentation. *)
Lemma found_path (f : FlowCutSolver.flow_fn) (p : list string) :
  FlowCutSolver.path_to (search f) sink = Some p ->
  hd source p = source
  /\ last p source = sink
  /\ residual_path cap f p
  /\ NoDup p
  /\ incl p nodes
  /\ p <> []
  /\ steps p <> [].
Proof.
  intros Hp. apply path_to_Some in Hp.
  destruct (search_ok nodes cap source source_node f) as [(ND & Hincl & Hsrc & Hent) _].
  destruct (Hent sink p Hp) as (Hhd & Hlast & Hpath & NDp & Hkeys).
  destruct p as [|x p]; [discriminate|].
  simpl in Hhd. injection Hhd as ->.
  repeat split; auto.
  - intros y Hy. apply Hincl, Hkeys, Hy.
  - discriminate.
  - destruct p as [|y p]; [simpl in Hlast; congruence | discriminate].
Qed.

Lemma augment_once_inl (f f' : FlowCutSolver.flow_fn) :
  FlowCutSolver.augment_once nodes cap source sink f = inl f' ->
  f' = f /\ FlowCutSolver.path_to (search f) sink = None.
Proof.
  unfold FlowCutSolver.augment_once.
  destruct (FlowCutSolver.path_to (search f) sink) as [p|] eqn:Ep.
  - destruct (found_path f p Ep) as (_ & _ & _ & _ & _ & _ & Hs).
    destruct (bottleneck_spec cap f p Hs) as (b & Eb & _). rewrite Eb. discriminate.
  - intros [= <-]. auto.
Qed.

(** One augmentation keeps the flow valid and adds to its value. *)
Lemma augment_once_inr (f f' : FlowCutSolver.flow_fn) :
  valid f ->
  FlowCutSolver.augment_once nodes cap source sink f = inr f' ->
  valid f' /\ flow_value f + (1 # denominator) <= flow_value f'.
Proof.
  intros V. unfold FlowCutSolver.augment_once.
  destruct (FlowCutSolver.path_to (search f) sink) as [p|] eqn:Ep; [|discriminate].
  destruct (found_path f p Ep) as (Hhd & Hlast & Hpath & NDp & Hincl & Hne & Hs).
  destruct (bottleneck_spec cap f p Hs) as (b & Eb & (e & He & Hbe) & Hle).
  rewrite Eb. intros [= <-].
  unfold residual_path in Hpath. rewrite Forall_forall in Hpath.
  assert (Hbpos : 0 < b) by (rewrite Hbe; apply Hpath, He).
  assert (Hbint : multiple_of denominator b).
  { rewrite Hbe. destruct e as [x y]. simpl. unfold FlowCutSolver.residual.
    apply multiple_of_minus; [|apply (flow_int _ _ _ _ _ V)].
    apply cap_multiple; apply Hincl;
      [apply (steps_In_l _ _ _ He) | apply (steps_In_r _ _ _ He)]. }
  assert (Hex : forall x,
             excess (FlowCutSolver.augment f p b) x
             == excess f x + (if String.eqb x source then b else 0)
                           - (if String.eqb x sink then b else 0)).
  { intros x.
    pose proof (excess_augment nodes nodes_nodup b p source NDp Hincl Hne f x) as H.
    rewrite Hhd, Hlast in H. exact H. }
  split.
  - constructor.
    + apply augment_skew; [exact NDp | apply (flow_skew _ _ _ _ _ V)].
    + apply augment_cap; [apply Qlt_le_weak, Hbpos | exact NDp | apply (flow_cap _ _ _ _ _ V) |].
      intros e' He'. pose proof (Hle e' He') as H. unfold FlowCutSolver.residual in H. lra.
    + intros u Hu Hus Hut. rewrite Hex.
      destruct (String.eqb_spec u source); [contradiction|].
      destruct (String.eqb_spec u sink); [contradiction|].
      rewrite (flow_cons _ _ _ _ _ V u Hu Hus Hut). ring.
    + apply augment_int; [exact Hbint | apply (flow_int _ _ _ _ _ V)].
  - unfold FlowCutSolver.flow_value. rewrite Hex, String.eqb_refl.
    destruct (String.eqb_spec source sink); [contradiction|].
    pose proof (multiple_of_pos _ _ Hbint Hbpos). lra.
Qed.

Lemma rounds_nat_converges (n : nat) :
  forall f,
    valid f ->
    (cap_out - flow_value f) * inject_Z (Zpos denominator) < inject_Z (Z.of_nat n) ->
    exists f', rounds_nat nodes cap source sink n f = inl f'
               /\ valid f'
               /\ FlowCutSolver.path_to (search f') sink = None.
Proof.
  induction n as [|n IH]; intros f V Hn.
  - exfalso. pose proof (flow_value_le f V) as Hle.
    assert (Hd : 0 < inject_Z (Zpos denominator)) by reflexivity.
    assert (0 <= (cap_out - flow_value f) * inject_Z (Zpos denominator)).
    { apply Qmult_le_0_compat; [lra | apply Qlt_le_weak, Hd]. }
    change (inject_Z (Z.of_nat 0)) with 0 in Hn. lra.
  - cbn [rounds_nat].
    destruct (FlowCutSolver.augment_once nodes cap source sink f) as [f'|f1] eqn:E.
    + destruct (augment_once_inl f f' E) as [-> Hnone]. exists f. auto.
    + destruct (augment_once_inr f f1 V E) as [V1 Hval].
      apply IH; [exact V1|].
      rewrite Nat2Z.inj_succ in Hn. unfold Z.succ in Hn. rewrite inject_Z_plus in Hn.
      assert (Hone : (1 # denominator) * inject_Z (Zpos denominator) == 1).
      { unfold Qeq, Qmult, inject_Z. simpl. lia. }
      assert (Hd : 0 <= inject_Z (Zpos denominator)) by (unfold Qle; simpl; lia).
      assert (Hstep : (cap_out - flow_value f1) * inject_Z (Zpos denominator)
                      <= (cap_out - flow_value f) * inject_Z (Zpos denominator)
                         - (1 # denominator) * inject_Z (Zpos denominator)).
      { setoid_replace ((cap_out - flow_value f) * inject_Z (Zpos denominator)
                        - (1 # denominator) * inject_Z (Zpos denominator))
          with ((cap_out - flow_value f - (1 # denominator))
                * inject_Z (Zpos denominator)) by ring.
        apply Qmult_le_compat_r; [lra | exact Hd]. }
      change (inject_Z 1) with 1 in Hn. lra.
Qed.

(** The rounds allowed are enough: the solver converges to a valid flow
    that leaves no augmenting path. *)
Lemma converge_ok :
  exists f, FlowCutSolver.converge nodes cap source sink = Some f
            /\ valid f
            /\ FlowCutSolver.path_to (search f) sink = None.
Proof.
  unfold FlowCutSolver.converge. rewrite rounds_to_nat.
  destruct (rounds_nat_converges
              (Pos.to_nat (FlowCutSolver.round_limit nodes cap source))
              FlowCutSolver.zero_flow zero_valid) as (f & E & V & Hnone).
  - unfold FlowCutSolver.round_limit.
    assert (Hzero : flow_value FlowCutSolver.zero_flow == 0).
    { unfold FlowCutSolver.flow_value, FlowCutSolver.excess, FlowCutSolver.zero_flow.
      apply sumQ_map_zero. }
    set (x := cap_out * inject_Z (Zpos denominator)).
    assert (Hx : 0 <= x).
    { unfold x. apply Qmult_le_0_compat; [|unfold Qle; simpl; lia].
      rewrite <- (sumQ_map_zero nodes). apply sumQ_map_le. intros v _. apply cap_nonneg. }
    assert (Hfl : (0 <= Qfloor x)%Z).
    { change 0%Z with (Qfloor 0). apply Qfloor_resp_le, Hx. }
    rewrite positive_nat_Z, Z2Pos.id by lia.
    pose proof (Qlt_floor x) as Hlt.
    setoid_replace ((cap_out - flow_value FlowCutSolver.zero_flow)
                    * inject_Z (Zpos denominator)) with x
      by (unfold x; rewrite Hzero; ring).
    exact Hlt.
  - rewrite E. exists f. auto.
Qed.

Local Abbreviation reachable_set := (FlowCutSolver.reachable_set nodes cap source).
Local Abbreviation other_set := (FlowCutSolver.other_set nodes cap source).

Lemma reachable_set_In (f : FlowCutSolver.flow_fn) (u : string) :
  In u (reachable_set f) <-> In u nodes /\ In u (map fst (search f)).
Proof.
  unfold FlowCutSolver.reachable_set. rewrite filter_In, is_found_In. reflexivity.
Qed.

Lemma other_set_In (f : FlowCutSolver.flow_fn) (v : string) :
  In v (other_set f) <-> In v nodes /\ ~ In v (map fst (search f)).
Proof.
  unfold FlowCutSolver.other_set. rewrite filter_In, negb_true_iff, is_found_false.
  reflexivity.
Qed.

(** The two sides part the nodes; the source is on the first side, and at
    convergence the sink is on the second. *)
Lemma cut_sides (f : FlowCutSolver.flow_fn) :
  FlowCutSolver.path_to (search f) sink = None ->
  In source (reachable_set f)
  /\ In sink (other_set f)
  /\ (forall n, In n nodes <-> In n (reachable_set f) \/ In n (other_set f))
  /\ (forall n, In n (reachable_set f) -> ~ In n (other_set f))
  /\ NoDup (reachable_set f)
  /\ NoDup (other_set f).
Proof.
  intros Hnone.
  destruct (search_ok nodes cap source source_node f) as [(_ & _ & Hsrc & _) _].
  split; [apply reachable_set_In; split; [exact source_node | apply is_found_In, Hsrc]|].
  split; [apply other_set_In; split; [exact sink_node | apply path_to_None, Hnone]|].
  split.
  { intros n. rewrite reachable_set_In, other_set_In.
    destruct (FlowCutSolver.is_found (search f) n) eqn:E.
    - apply is_found_In in E. tauto.
    - apply is_found_false in E. tauto. }
  split.
  { intros n. rewrite reachable_set_In, other_set_In. tauto. }
  split; apply NoDup_filter, nodes_nodup.
Qed.

(** Max-flow / min-cut: at convergence the value of the flow is the
    capacity of the cut between what the search reaches and the rest. *)
Lemma flow_is_cut (f : FlowCutSolver.flow_fn) :
  valid f ->
  FlowCutSolver.path_to (search f) sink = None ->
  flow_value f
  == FlowCutSolver.cut_capacity cap (reachable_set f) (other_set f).
Proof.
  intros V Hnone.
  destruct (cut_sides f Hnone) as (Hs & Ht & _ & _ & NDs & _).
  destruct (search_ok nodes cap source source_node f) as [_ Hclosed].
  (* the excess of the source is the excess of the whole first side *)
  assert (H1 : sumQ (map (excess f) (reachable_set f)) == flow_value f).
  { unfold FlowCutSolver.flow_value. apply sumQ_single; [exact NDs | exact Hs|].
    intros x Hx Hne. apply reachable_set_In in Hx. destruct Hx as [Hx Hfound].
    apply (flow_cons _ _ _ _ _ V x Hx Hne).
    intros ->. apply (path_to_None _ _ Hnone), Hfound. }
  (* inside the first side the flow cancels; across it fills the edges *)
  assert (H2 : sumQ (map (excess f) (reachable_set f))
               == sumQ (map (fun u => sumQ (map (f u) (reachable_set f))) (reachable_set f))
                  + sumQ (map (fun u => sumQ (map (f u) (other_set f))) (reachable_set f))).
  { rewrite <- sumQ_map_plus. apply sumQ_map_ext. intros u _.
    unfold FlowCutSolver.excess.
    apply (sumQ_filter_split (FlowCutSolver.is_found (search f)) (f u) nodes). }
  assert (H3 : sumQ (map (fun u => sumQ (map (f u) (reachable_set f))) (reachable_set f))
               == 0).
  { apply sumQ_skew, (flow_skew _ _ _ _ _ V). }
  assert (H4 : sumQ (map (fun u => sumQ (map (f u) (other_set f))) (reachable_set f))
               == FlowCutSolver.cut_capacity cap (reachable_set f) (other_set f)).
  { unfold FlowCutSolver.cut_capacity. apply sumQ_map_ext. intros u Hu.
    apply sumQ_map_ext. intros v Hv.
    apply reachable_set_In in Hu. apply other_set_In in Hv.
    pose proof (Hclosed u v (proj2 Hu) (proj1 Hv) (proj2 Hv)) as Hres.
    pose proof (flow_cap _ _ _ _ _ V u v) as Hcap.
    unfold FlowCutSolver.residual in Hres. lra. }
  rewrite <- H1, H2, H3, H4. ring.
Qed.

(** No flow is worth more than a cut: the side of the source may be any
    set of nodes with the source and without the sink. *)
Lemma flow_le_cut (side : string -> bool) (g : FlowCutSolver.flow_fn) :
  valid g ->
  side source = true -> side sink = false ->
  flow_value g
  <= FlowCutSolver.cut_capacity cap (filter side nodes)
       (filter (fun v => negb (side v)) nodes).
Proof.
  intros V Hs Ht.
  assert (NDs : NoDup (filter side nodes)) by apply NoDup_filter, nodes_nodup.
  assert (H1 : sumQ (map (excess g) (filter side nodes)) == flow_value g).
  { unfold FlowCutSolver.flow_value. apply sumQ_single; [exact NDs | |].
    - apply filter_In. split; [exact source_node | exact Hs].
    - intros x Hx Hne. apply filter_In in Hx. destruct Hx as [Hx Hside].
      apply (flow_cons _ _ _ _ _ V x Hx Hne). intros ->. congruence. }
  assert (H2 : sumQ (map (excess g) (filter side nodes))
               == sumQ (map (fun u => sumQ (map (g u) (filter side nodes)))
                            (filter side nodes))
                  + sumQ (map (fun u => sumQ (map (g u)
                                                 (filter (fun v => negb (side v)) nodes)))
                              (filter side nodes))).
  { rewrite <- sumQ_map_plus. apply sumQ_map_ext. intros u _.
    unfold FlowCutSolver.excess. apply (sumQ_filter_split side (g u) nodes). }
  assert (H3 : sumQ (map (fun u => sumQ (map (g u) (filter side nodes)))
                         (filter side nodes)) == 0).
  { apply sumQ_skew, (flow_skew _ _ _ _ _ V). }
  assert (H4 : sumQ (map (fun u => sumQ (map (g u)
                                            (filter (fun v => negb (side v)) nodes)))
                         (filter side nodes))
               <= FlowCutSolver.cut_capacity cap (filter side nodes)
                    (filter (fun v => negb (side v)) nodes)).
  { unfold FlowCutSolver.cut_capacity. apply sumQ_map_le. intros u _.
    apply sumQ_map_le. intros v _. apply (flow_cap _ _ _ _ _ V). }
  rewrite <- H1, H2, H3. lra.
Qed.

(** So the flow at convergence is a maximum flow, and its cut a minimum
    cut. *)
Lemma converged_flow_is_maximum (f g : FlowCutSolver.flow_fn) :
  valid f ->
  FlowCutSolver.path_to (search f) sink = None ->
  valid g ->
  flow_value g <= flow_value f.
Proof.
  intros Vf Hnone Vg.
  destruct (cut_sides f Hnone) as (Hs & Ht & _).
  rewrite (flow_is_cut f Vf Hnone).
  apply (flow_le_cut (FlowCutSolver.is_found (search f)) g Vg).
  - apply filter_In in Hs. tauto.
  - apply filter_In in Ht. destruct Ht as [_ Ht]. apply negb_true_iff, Ht.
Qed.

Lemma converged_cut_is_minimum (f : FlowCutSolver.flow_fn) (side : string -> bool) :
  valid f ->
  FlowCutSolver.path_to (search f) sink = None ->
  side source = true -> side sink = false ->
  FlowCutSolver.cut_capacity cap (reachable_set f) (other_set f)
  <= FlowCutSolver.cut_capacity cap (filter side nodes)
       (filter (fun v => negb (side v)) nodes).
Proof.
  intros Vf Hnone Hs Ht. rewrite <- (flow_is_cut f Vf Hnone).
  apply flow_le_cut; assumption.
Qed.

End FlowFacts.

(** ** Flow and cut on the graphs of the builder *)

Lemma derive_edge_nonneg (d : Q) (ts : list Q) (c : Z) :
  0 < d -> (0 <= c)%Z ->
  let a := GraphBuilder.derive_edge d (ts, c) in
  0 <= capacity a /\ 0 <= capacity_throughput a /\ 0 <= capacity_latency a.
Proof.
  intros Hd Hc. simpl.
  assert (Hthr : 0 <= inject_Z c / d).
  { unfold Qdiv. apply Qmult_le_0_compat.
    - change 0 with (inject_Z 0). rewrite <- Zle_Qle. exact Hc.
    - apply Qlt_le_weak, Qinv_lt_0_compat, Hd. }
  assert (Hlat : 0 <= (if Qlt_bool 0 (py_sum ts / inject_Z (Z.of_nat (List.length ts)))
                       then 1 / (py_sum ts / inject_Z (Z.of_nat (List.length ts)))
                       else 0)).
  { destruct (Qlt_bool 0 (py_sum ts / inject_Z (Z.of_nat (List.length ts)))) eqn:E.
    - apply Qlt_bool_iff in E. unfold Qdiv at 1. rewrite Qmult_1_l.
      apply Qlt_le_weak, Qinv_lt_0_compat, E.
    - apply Qle_refl. }
  split; [|split; assumption].
  destruct (Qlt_bool 0 (inject_Z c / d)); assumption.
Qed.

Lemma build_graph_well_formed (fromisoformat : string -> option datetime)
  (records : list LogRecord) (G : DiGraph) (name : string) (field : EdgeAttrs -> Q) :
  GraphBuilder.build_graph fromisoformat records = Ok G ->
  FlowCutSolver.capacity_field name = Some field ->
  FlowCutSolver.well_formed G field = true.
Proof.
  intros HG Hf. unfold FlowCutSolver.well_formed. apply forallb_forall.
  intros [k a] Hin. simpl. apply Qle_bool_iff.
  pose proof (build_graph_keys_NoDup _ _ _ HG) as ND.
  pose proof (In_lookup_edge _ _ _ ND Hin) as Ha.
  destruct (build_graph_edge_In _ _ _ k a HG Ha) as [_ ->].
  destruct (derive_edge_nonneg (span_of (parsed_timestamps fromisoformat records))
              (map latency (calls_of k records))
              (Z.of_nat (List.length (calls_of k records)))
              (span_of_pos _) (Nat2Z.is_nonneg _)) as (H1 & H2 & H3).
  unfold FlowCutSolver.capacity_field in Hf.
  destruct (String.eqb name "capacity"); [injection Hf as <-; exact H1|].
  destruct (String.eqb name "capacity_throughput"); [injection Hf as <-; exact H2|].
  destruct (String.eqb name "capacity_latency"); [injection Hf as <-; exact H3 | discriminate].
Qed.

Lemma capacity_of_nonneg (G : DiGraph) (field : EdgeAttrs -> Q) :
  FlowCutSolver.well_formed G field = true ->
  forall u v, 0 <= FlowCutSolver.capacity_of G field u v.
Proof.
  intros H u v. unfold FlowCutSolver.capacity_of, edge_attrs.
  destruct (lookup_edge (G_adj G) (u, v)) as [a|] eqn:E; [|apply Qle_refl].
  apply lookup_edge_Some_In in E.
  unfold FlowCutSolver.well_formed in H. rewrite forallb_forall in H.
  apply Qle_bool_iff. apply (H _ E).
Qed.

(** C1.  On every graph that [build_graph] returns, for a source and a sink
    that are two different nodes and any of the three capacity fields, the
    solver returns a flow value and a cut value that are equal (so within
    1e-6), the cut value being the capacity of the edges from the side [S]
    of the source to the side [T] of the sink.  When the records of the
    graph are those of a window, the body of the loop of
    [analyze_time_windows] stores this flow, this cut value and, as
    [min_cut], exactly the edges of the graph that go from [S] to [T]; and
    this is the result that [analyze_time_windows] returns for that
    window. *)
Theorem max_flow_min_cut_duality (fromisoformat : string -> option datetime)
  (records : list LogRecord) (G : DiGraph) (source sink capacity_attr : string)
  (field : EdgeAttrs -> Q) :
  GraphBuilder.build_graph fromisoformat records = Ok G ->
  has_node G source = true ->
  has_node G sink = true ->
  source <> sink ->
  FlowCutSolver.capacity_field capacity_attr = Some field ->
  exists flow_value flows cut S_ T_ cut_edges,
    GraphAnalyzer.max_flow FlowCutSolver.maximum_flow G source sink capacity_attr
    = Ok (flow_value, flows)
    /\ GraphAnalyzer.min_cut FlowCutSolver.minimum_cut G source sink capacity_attr
       = Ok (cut, (S_, T_))
    /\ flow_value == cut
    /\ Qabs (flow_value - cut) <= 1 # 1000000
    /\ cut == FlowCutSolver.cut_capacity (FlowCutSolver.capacity_of G field) S_ T_
    /\ In source S_
    /\ In sink T_
    /\ (forall n, In n (node_names G) <-> In n S_ \/ In n T_)
    /\ (forall n, In n S_ -> ~ In n T_)
    /\ collect_cut_edges G S_ T_ = Ok cut_edges
    /\ (forall u v, In (u, v) cut_edges <-> In (u, v) (G_edges G) /\ In u S_ /\ In v T_)
    /\ (forall log start end_,
          records_in_window fromisoformat log start end_ = Ok records ->
          analyze_window fromisoformat
            FlowCutSolver.maximum_flow FlowCutSolver.minimum_cut
            log source sink capacity_attr start end_
          = Ok (mkWindowResult start end_ flow_value cut_edges (Some cut)))
    /\ (forall log w s i win,
          all_parse fromisoformat log ->
          uniform (parsed_timestamps fromisoformat log) ->
          (0 < s)%Z ->
          within_calendar (parsed_timestamps fromisoformat log) w s ->
          nth_error (expected_windows fromisoformat log w s) i = Some win ->
          records_in_window fromisoformat log (fst win) (snd win) = Ok records ->
          exists results,
            (forall fuel,
               (List.length (expected_windows fromisoformat log w s) < fuel)%nat ->
               analyze_time_windows fromisoformat
                 FlowCutSolver.maximum_flow FlowCutSolver.minimum_cut
                 fuel log source sink w s capacity_attr
               = Some (Ok results))
            /\ nth_error results i
               = Some (mkWindowResult (fst win) (snd win) flow_value cut_edges
                         (Some cut))).
Proof.
  intros HG Hs Ht Hne Hfield.
  pose proof (build_graph_well_formed _ _ _ _ _ HG Hfield) as Hwf.
  destruct (build_graph_nodes _ _ _ HG) as [ND _].
  pose proof (capacity_of_nonneg _ _ Hwf) as Hcap.
  assert (Hsn : In source (node_names G)) by (apply has_node_In, Hs).
  assert (Htn : In sink (node_names G)) by (apply has_node_In, Ht).
  destruct (converge_ok (node_names G) (FlowCutSolver.capacity_of G field) source sink
              ND Hcap Hsn Hne) as (f & Ef & V & Hnone).
  pose proof (flow_is_cut (node_names G) (FlowCutSolver.capacity_of G field) source sink
                ND Hsn Htn f V Hnone) as Hdual.
  destruct (cut_sides (node_names G) (FlowCutSolver.capacity_of G field) source sink
              ND Hsn Htn f Hnone) as (HS & HT & Hpart & Hdisj & _ & _).
  assert (Hprep : FlowCutSolver.prepare G source sink capacity_attr = Ok field).
  { unfold FlowCutSolver.prepare. rewrite Hs, Ht, Hfield, Hwf. simpl.
    destruct (String.eqb_spec source sink); [contradiction | reflexivity]. }
  set (S_ := FlowCutSolver.reachable_set (node_names G)
               (FlowCutSolver.capacity_of G field) source f) in *.
  set (T_ := FlowCutSolver.other_set (node_names G)
               (FlowCutSolver.capacity_of G field) source f) in *.
  destruct (collect_cut_edges_spec G S_ T_) as (cut_edges & Ecut & Hcut).
  { intros u Hu. apply has_node_In. apply Hpart. left; exact Hu. }
  set (fv := FlowCutSolver.flow_value (node_names G) source f) in *.
  set (cv := FlowCutSolver.cut_capacity (FlowCutSolver.capacity_of G field) S_ T_) in *.
  assert (Emf : FlowCutSolver.maximum_flow G source sink capacity_attr
                = Ok (fv, FlowCutSolver.flow_dict_of G f)).
  { unfold FlowCutSolver.maximum_flow. rewrite Hprep. cbn [bind]. rewrite Ef. reflexivity. }
  assert (Emc : FlowCutSolver.minimum_cut G source sink capacity_attr
                = Ok (cv, (S_, T_))).
  { unfold FlowCutSolver.minimum_cut. rewrite Hprep. cbn [bind]. rewrite Ef. reflexivity. }
  assert (Hrec : records <> []).
  { apply (build_graph_has_node _ _ _ source HG) in Hs.
    destruct Hs as (r & Hr & _). intros E. rewrite E in Hr. destruct Hr. }
  exists fv, (FlowCutSolver.flow_dict_of G f), cv, S_, T_, cut_edges.
  split; [exact Emf|]. split; [exact Emc|].
  split; [exact Hdual|].
  split.
  { rewrite Hdual. setoid_replace (cv - cv) with 0 by ring. discriminate. }
  split; [reflexivity|].
  do 6 (split; [assumption|]).
  split.
  - intros log start end_ Hsel. unfold analyze_window. rewrite Hsel. cbn [bind].
    destruct records as [|r rs] eqn:Er; [congruence|]. rewrite <- Er in *.
    rewrite HG. cbn [bind]. rewrite Hs, Ht. cbn [negb orb].
    unfold GraphAnalyzer.max_flow, GraphAnalyzer.min_cut.
    rewrite Emf, Emc, Ecut. reflexivity.
  - intros log w s i win Hall U Hpos Hcal Hnth Hsel.
    destruct (analysis_runs fromisoformat
                FlowCutSolver.maximum_flow FlowCutSolver.minimum_cut
                log source sink w s capacity_attr Hall U Hpos Hcal
                (cut_within_nodes_local fromisoformat FlowCutSolver.minimum_cut
                   log source sink capacity_attr minimum_cut_within_nodes))
      as (results & Hrun & HF).
    exists results. split; [intros fuel Hf; apply (Hrun fuel Hf)|].
    destruct (Forall2_nth_error _ _ _ HF i win Hnth) as (wr & Ewr & Hws & Hwe & Hout).
    rewrite Ewr. f_equal.
    destruct (expected_windows_tz fromisoformat log w s win U (nth_error_In _ _ Hnth))
      as [Ta Tb].
    rewrite (records_in_window_ok fromisoformat log _ _ Hall Ta Tb) in Hsel.
    injection Hsel as Hsel. rewrite Hsel in Hout.
    destruct records as [|r rs] eqn:Er; [congruence|]. rewrite <- Er in *.
    destruct Hout as (G' & HG' & Hout).
    assert (EG : G' = G) by congruence. subst G'.
    rewrite Hs, Ht in Hout. cbn [negb orb] in Hout.
    rewrite Emf, Emc in Hout. destruct Hout as (Hfl & Hcv & Hcol & _).
    assert (Hmin : min_cut wr = cut_edges) by congruence.
    destruct wr as [ws we fl mc cvo]. cbn [w_start w_end flow min_cut cut_value] in *.
    subst. reflexivity.
Qed.

Lemma max_flow_min_cut_witness :
  exists flow_value flows cut S_ T_ cut_edges results,
    GraphAnalyzer.max_flow FlowCutSolver.maximum_flow
      (graph_of log_chain) "A" "C" "capacity" = Ok (flow_value, flows)
    /\ GraphAnalyzer.min_cut FlowCutSolver.minimum_cut
         (graph_of log_chain) "A" "C" "capacity" = Ok (cut, (S_, T_))
    /\ flow_value == cut
    /\ analyze_time_windows Iso.fromisoformat
         FlowCutSolver.maximum_flow FlowCutSolver.minimum_cut
         2 log_chain "A" "C" 60 30 "capacity" = Some (Ok results)
    /\ nth_error results 0
       = Some (mkWindowResult (mkDatetime true 1704067200000000 0)
                 (mkDatetime true 1704067260000000 0) flow_value cut_edges (Some cut)).
Proof.
  destruct (max_flow_min_cut_duality Iso.fromisoformat log_chain (graph_of log_chain)
              "A"%string "C"%string "capacity"%string capacity)
    as (fv & flows & cut & S_ & T_ & cut_edges & H1 & H2 & H3 & _ & _ & _ & _ & _ & _
        & _ & _ & _ & Hrun).
  - vm_compute; reflexivity.
  - vm_compute; reflexivity.
  - vm_compute; reflexivity.
  - discriminate.
  - reflexivity.
  - destruct (Hrun log_chain 60%Z 30%Z 0%nat
                (mkDatetime true 1704067200000000 0, mkDatetime true 1704067260000000 0))
      as (results & Hres & Hnth).
    + exact log_chain_parses.
    + exact log_chain_uniform.
    + reflexivity.
    + repeat split; vm_compute; congruence.
    + vm_compute; reflexivity.
    + vm_compute; reflexivity.
    + exists fv, flows, cut, S_, T_, cut_edges, results.
      split; [exact H1|]. split; [exact H2|]. split; [exact H3|].
      split; [|exact Hnth]. apply Hres. vm_compute. lia.
Defined.

(** The scenario of the chain: the flow from "A" to "C" is the capacity of
    the edge that limits it, the source stands alone on its side of the
    cut, and the one cut edge is the edge out of the source. *)
Example chain_scenario :
  exists flow_value flows cut,
    FlowCutSolver.maximum_flow (graph_of log_chain)
      "A"%string "C"%string "capacity"%string
    = Ok (flow_value, flows)
    /\ FlowCutSolver.minimum_cut (graph_of log_chain)
         "A"%string "C"%string "capacity"%string
       = Ok (cut, (["A"%string], ["B"%string; "C"%string]))
    /\ flow_value == 1 /\ cut == 1
    /\ collect_cut_edges (graph_of log_chain) ["A"%string] ["B"%string; "C"%string]
       = Ok [("A"%string, "B"%string)].
Proof.
  do 3 eexists. split; [vm_compute; reflexivity|].
  split; [vm_compute; reflexivity|].
  split; [vm_compute; reflexivity|].
  split; vm_compute; reflexivity.
Qed.

(** A source or a sink that is no node is refused by the solver: this is
    the failure that the guard of [analyze_time_windows] avoids. *)
Lemma solver_rejects_missing_node (G : DiGraph) (source sink capacity_attr : string) :
  has_node G source = false \/ has_node G sink = false ->
  FlowCutSolver.maximum_flow G source sink capacity_attr = Raise NodeNotFound
  /\ FlowCutSolver.minimum_cut G source sink capacity_attr = Raise NodeNotFound.
Proof.
  intros H.
  assert (E : FlowCutSolver.prepare G source sink capacity_attr = Raise NodeNotFound).
  { unfold FlowCutSolver.prepare. destruct H as [-> | ->]; simpl.
    - reflexivity.
    - rewrite orb_true_r. reflexivity. }
  unfold FlowCutSolver.maximum_flow, FlowCutSolver.minimum_cut. rewrite E.
  split; reflexivity.
Qed.

(** ** The windows of the analysis list no cut edge twice *)

Lemma successors_NoDup (G : DiGraph) (u : string) :
  NoDup (map fst (G_adj G)) -> NoDup (successors G u).
Proof.
  unfold successors. induction (G_adj G) as [|[[x y] a] adj IH]; intros ND.
  - constructor.
  - simpl in ND. inversion ND as [|? ? Hk ND']; subst. simpl.
    destruct (String.eqb_spec x u) as [->|Hne]; [|apply IH, ND'].
    simpl. constructor; [|apply IH, ND'].
    intros Hin. apply Hk. apply in_map_iff in Hin.
    destruct Hin as ([[x' y'] a'] & E & Hf). simpl in E. subst y'.
    apply filter_In in Hf. destruct Hf as [Hf Ex]. simpl in Ex.
    apply String.eqb_eq in Ex. subst x'.
    change (u, y) with (fst ((u, y), a')). apply in_map, Hf.
Qed.





(** * Further results *)

(** ** The aggregation, for every input *)

Lemma occurrences_pos (e : edge_key) (l : list edge_key) :
  In e l -> (1 <= occurrences e l)%Z.
Proof.
  intros Hin. unfold occurrences.
  assert (Hf : In e (filter (key_eqb e) l)).
  { apply filter_In. split; [exact Hin | apply key_eqb_refl]. }
  destruct (filter (key_eqb e) l); [destruct Hf | simpl; lia].
Qed.

Lemma slice_to_incl {A : Type} (k : Z) (l : list A) (x : A) :
  In x (slice_to k l) -> In x l.
Proof.
  unfold slice_to. destruct (k <? 0)%Z; intros H.
  - rewrite <- (firstn_skipn (Z.to_nat (Z.of_nat (List.length l) + k)) l).
    apply in_or_app. left. exact H.
  - rewrite <- (firstn_skipn (Z.to_nat k) l). apply in_or_app. left. exact H.
Qed.

Lemma aggregate_unfold (window_results : list WindowResult) (top_k : Z) :
  aggregate_bottlenecks window_results top_k
  = slice_to top_k
      (sorted_desc (map (fun e => (e, occurrences e (edge_stream window_results)))
                        (first_seen (edge_stream window_results)))).
Proof.
  unfold aggregate_bottlenecks. rewrite count_edges_stream, counter_spec. reflexivity.
Qed.

(** X1.  Whatever the windows and whatever [top_k], negative values
    included: an entry that [aggregate_bottlenecks] returns carries the
    number of times its edge occurs in the [min_cut] lists, all windows
    together, and that number is at least one. *)
Theorem aggregate_counts_occurrences
  (window_results : list WindowResult) (top_k : Z) (e : edge_key) (c : Z) :
  In (e, c) (aggregate_bottlenecks window_results top_k) ->
  c = occurrences e (edge_stream window_results) /\ (1 <= c)%Z.
Proof.
  rewrite aggregate_unfold. intros Hin.
  apply slice_to_incl in Hin.
  apply (Permutation_in _ (sorted_desc_perm _)) in Hin.
  apply in_map_iff in Hin. destruct Hin as [e' [E He']].
  injection E as <- <-.
  split; [reflexivity|].
  apply occurrences_pos. apply (proj2 (first_seen_spec _)). exact He'.
Qed.

Lemma aggregate_counts_occurrences_witness :
  2%Z = occurrences ("X", "Y")%string (edge_stream windows_repeated) /\ (1 <= 2)%Z.
Proof.
  apply (aggregate_counts_occurrences windows_repeated 10 ("X", "Y")%string 2).
  simpl. left. reflexivity.
Defined.

(** X2.  A window without cut edges, such as the sentinel of an empty or
    failed window, adds nothing: with or without it, anywhere in the list,
    the aggregation is the same. *)
Theorem aggregate_ignores_empty_windows
  (before after : list WindowResult) (w : WindowResult) (top_k : Z) :
  min_cut w = [] ->
  aggregate_bottlenecks (before ++ w :: after) top_k
  = aggregate_bottlenecks (before ++ after) top_k.
Proof.
  intros Hw. rewrite !aggregate_unfold.
  assert (E : edge_stream (before ++ w :: after) = edge_stream (before ++ after)).
  { unfold edge_stream. rewrite !flat_map_app. simpl. rewrite Hw. reflexivity. }
  rewrite E. reflexivity.
Qed.

Lemma aggregate_ignores_empty_windows_witness :
  aggregate_bottlenecks
    ([window_with 0 1 [("X", "Y")%string]]
       ++ sentinel (mkDatetime true 60000000 0) (mkDatetime true 120000000 0)
       :: [window_with 2 1 [("X", "Y")%string]]) 10
  = aggregate_bottlenecks
      ([window_with 0 1 [("X", "Y")%string]] ++ [window_with 2 1 [("X", "Y")%string]]) 10.
Proof.
  apply (aggregate_ignores_empty_windows
           [window_with 0 1 [("X", "Y")%string]]
           [window_with 2 1 [("X", "Y")%string]]
           (sentinel (mkDatetime true 60000000 0) (mkDatetime true 120000000 0)) 10).
  reflexivity.
Defined.

(** X3.  Asking for fewer entries gives the beginning of what asking for
    more gives: for [0 <= k <= k'] the result for [k] is the first [k]
    entries of the result for [k']. *)
Theorem aggregate_top_k_prefix (window_results : list WindowResult) (k k' : Z) :
  (0 <= k <= k')%Z ->
  aggregate_bottlenecks window_results k
  = firstn (Z.to_nat k) (aggregate_bottlenecks window_results k').
Proof.
  intros Hk. unfold aggregate_bottlenecks.
  rewrite !slice_to_nonneg by lia.
  rewrite firstn_firstn. f_equal. lia.
Qed.

Lemma aggregate_top_k_prefix_witness :
  aggregate_bottlenecks windows_two_edges 1
  = firstn (Z.to_nat 1) (aggregate_bottlenecks windows_two_edges 2).
Proof.
  apply (aggregate_top_k_prefix windows_two_edges 1 2). lia.
Defined.

Lemma total_count_perm (l l' : list (edge_key * Z)) :
  Permutation l l' -> total_count l = total_count l'.
Proof.
  induction 1; simpl; lia.
Qed.

Lemma total_count_app (l l' : list (edge_key * Z)) :
  total_count (l ++ l') = (total_count l + total_count l')%Z.
Proof.
  induction l as [|x l IH]; simpl; lia.
Qed.

Lemma total_count_nonneg (l : list (edge_key * Z)) :
  (forall x, In x l -> 0 <= snd x)%Z -> (0 <= total_count l)%Z.
Proof.
  induction l as [|x l IH]; simpl; intros H; [lia|].
  pose proof (H x (or_introl eq_refl)).
  assert (0 <= total_count l)%Z by (apply IH; intros y Hy; apply H; right; exact Hy).
  lia.
Qed.

Lemma total_count_bump (f : edge_key -> Z) (x : edge_key) (keys : list edge_key) :
  NoDup keys ->
  total_count (map (fun e => (e, (f e + if key_eqb e x then 1 else 0)%Z)) keys)
  = (total_count (map (fun e => (e, f e)) keys)
     + if existsb (key_eqb x) keys then 1 else 0)%Z.
Proof.
  induction 1 as [|k keys Hk ND IH]; simpl; [reflexivity|].
  rewrite IH. rewrite (key_eqb_sym x k).
  destruct (key_eqb k x) eqn:E; simpl; [|lia].
  apply key_eqb_eq in E. subst k.
  destruct (existsb (key_eqb x) keys) eqn:Ex; [|lia].
  apply existsb_key_In in Ex. contradiction.
Qed.

Lemma total_count_stream (l : list edge_key) :
  total_count (map (fun e => (e, occurrences e l)) (first_seen l))
  = Z.of_nat (List.length l).
Proof.
  induction l as [|x l IH] using rev_ind; [reflexivity|].
  destruct (first_seen_spec l) as [ND Hin].
  rewrite first_seen_snoc, length_app. simpl List.length.
  assert (E : forall keys,
             map (fun e => (e, occurrences e (l ++ [x]))) keys
             = map (fun e => (e, (occurrences e l + if key_eqb e x then 1 else 0)%Z)) keys).
  { intros keys. apply map_ext. intros e. rewrite occurrences_snoc. reflexivity. }
  destruct (existsb (key_eqb x) (first_seen l)) eqn:Ex.
  - rewrite E, (total_count_bump _ _ _ ND), Ex, IH. lia.
  - rewrite map_app, total_count_app, E, (total_count_bump _ _ _ ND), Ex, IH.
    simpl. rewrite occurrences_snoc, key_eqb_refl.
    rewrite occurrences_absent; [lia|].
    intros Hx. apply Hin in Hx. apply existsb_key_In in Hx. congruence.
Qed.

(** X4.  The counts of the entries add up to at most the number of cut-edge
    occurrences in the windows, and to exactly that number once [top_k]
    reaches the number of distinct edges: nothing is counted twice or
    lost. *)
Theorem aggregate_total_count (window_results : list WindowResult) (top_k : Z) :
  (0 <= top_k)%Z ->
  let out := aggregate_bottlenecks window_results top_k in
  let stream := edge_stream window_results in
  (total_count out <= Z.of_nat (List.length stream))%Z
  /\ ((Z.of_nat (List.length (first_seen stream)) <= top_k)%Z ->
      total_count out = Z.of_nat (List.length stream)).
Proof.
  intros Hk out stream. unfold out. rewrite aggregate_unfold. fold stream.
  rewrite slice_to_nonneg by exact Hk.
  set (counter := map (fun e => (e, occurrences e stream)) (first_seen stream)).
  assert (Htot : total_count (sorted_desc counter) = Z.of_nat (List.length stream)).
  { rewrite (total_count_perm _ _ (sorted_desc_perm counter)). apply total_count_stream. }
  assert (Hlen : List.length (sorted_desc counter) = List.length (first_seen stream)).
  { rewrite (Permutation_length (sorted_desc_perm counter)). apply length_map. }
  split.
  - rewrite <- Htot.
    rewrite <- (firstn_skipn (Z.to_nat top_k) (sorted_desc counter)) at 2.
    rewrite total_count_app.
    assert (0 <= total_count (skipn (Z.to_nat top_k) (sorted_desc counter)))%Z; [|lia].
    apply total_count_nonneg. intros y Hy.
    assert (Hy' : In y (sorted_desc counter)).
    { rewrite <- (firstn_skipn (Z.to_nat top_k) (sorted_desc counter)).
      apply in_or_app. right. exact Hy. }
    apply (Permutation_in _ (sorted_desc_perm _)) in Hy'.
    apply in_map_iff in Hy'. destruct Hy' as [e [<- _]]. simpl.
    unfold occurrences. lia.
  - intros Hbig. rewrite firstn_all2 by lia. exact Htot.
Qed.

Lemma aggregate_total_count_witness :
  (total_count (aggregate_bottlenecks windows_xy 10)
   <= Z.of_nat (List.length (edge_stream windows_xy)))%Z
  /\ total_count (aggregate_bottlenecks windows_xy 10)
     = Z.of_nat (List.length (edge_stream windows_xy)).
Proof.
  assert (Hk : (0 <= 10)%Z) by lia.
  destruct (aggregate_total_count windows_xy 10 Hk) as [Hle Heq].
  split; [exact Hle | apply Heq; simpl; lia].
Defined.

(** ** The builder: what a log turns into *)

Lemma py_max_from_raises (l : list datetime) :
  forall m e, py_max_from m l = Raise e -> e = TypeError.
Proof.
  induction l as [|x l IH]; intros m e; simpl; [discriminate|].
  unfold dt_lt. destruct (Bool.eqb (tz_aware m) (tz_aware x)); cbn [bind].
  - apply IH.
  - intros E. injection E as <-. reflexivity.
Qed.

Lemma py_min_from_raises (l : list datetime) :
  forall m e, py_min_from m l = Raise e -> e = TypeError.
Proof.
  induction l as [|x l IH]; intros m e; simpl; [discriminate|].
  unfold dt_lt. destruct (Bool.eqb (tz_aware x) (tz_aware m)); cbn [bind].
  - apply IH.
  - intros E. injection E as <-. reflexivity.
Qed.

Lemma duration_of_raises (tss : list datetime) (e : exn) :
  GraphBuilder.duration_of tss = Raise e -> e = TypeError.
Proof.
  destruct tss as [|t tss]; [discriminate|].
  unfold GraphBuilder.duration_of.
  destruct (py_max (t :: tss)) as [mx|e1] eqn:Emx; cbn [bind].
  - destruct (py_min (t :: tss)) as [mn|e2] eqn:Emn; cbn [bind].
    + unfold dt_sub. destruct (Bool.eqb (tz_aware mx) (tz_aware mn)); cbn [bind].
      * discriminate.
      * intros E. injection E as <-. reflexivity.
    + intros E. injection E as <-. apply (py_min_from_raises _ _ _ Emn).
  - intros E. injection E as <-. apply (py_max_from_raises _ _ _ Emx).
Qed.

Lemma filter_perm {A : Type} (f : A -> bool) (l l' : list A) :
  Permutation l l' -> Permutation (filter f l) (filter f l').
Proof.
  induction 1 as [|x l l' H IH|x y l|l l' l'' H1 IH1 H2 IH2]; simpl.
  - constructor.
  - destruct (f x); [constructor|]; exact IH.
  - destruct (f x), (f y); try apply Permutation_refl. apply perm_swap.
  - apply (Permutation_trans IH1 IH2).
Qed.

Lemma sumQ_perm (l l' : list Q) : Permutation l l' -> sumQ l == sumQ l'.
Proof.
  induction 1 as [|x l l' H IH|x y l|l l' l'' H1 IH1 H2 IH2]; simpl.
  - reflexivity.
  - rewrite IH. reflexivity.
  - ring.
  - rewrite IH1. exact IH2.
Qed.

Lemma latest_perm (l l' : list datetime) :
  Permutation l l' -> latest l = latest l'.
Proof.
  intros P.
  assert (Hin : forall a b : list datetime, a <> [] -> exists x, In x a /\ micros x = latest a).
  { intros a _ Ha. destruct a as [|y a]; [congruence|].
    unfold latest. destruct (fold_max_in (map micros a) (micros y)) as [E|H].
    - exists y. split; [left; reflexivity | exact E].
    - apply in_map_iff in H. destruct H as [x [E Hx]].
      exists x. split; [right; exact Hx | exact E]. }
  destruct l as [|y l].
  - apply Permutation_nil in P. subst. reflexivity.
  - assert (Hl' : l' <> []).
    { intros ->. apply Permutation_sym, Permutation_nil in P. discriminate. }
    destruct (Hin (y :: l) [] ltac:(discriminate)) as [x [Hx Ex]].
    destruct (Hin l' [] Hl') as [x' [Hx' Ex']].
    pose proof (latest_ge l' x (Permutation_in _ P Hx)).
    pose proof (latest_ge (y :: l) x' (Permutation_in _ (Permutation_sym P) Hx')).
    lia.
Qed.

Lemma earliest_perm (l l' : list datetime) :
  Permutation l l' -> earliest l = earliest l'.
Proof.
  intros P.
  assert (Hin : forall a b : list datetime, a <> [] -> exists x, In x a /\ micros x = earliest a).
  { intros a _ Ha. destruct a as [|y a]; [congruence|].
    unfold earliest. destruct (fold_min_in (map micros a) (micros y)) as [E|H].
    - exists y. split; [left; reflexivity | exact E].
    - apply in_map_iff in H. destruct H as [x [E Hx]].
      exists x. split; [right; exact Hx | exact E]. }
  destruct l as [|y l].
  - apply Permutation_nil in P. subst. reflexivity.
  - assert (Hl' : l' <> []).
    { intros ->. apply Permutation_sym, Permutation_nil in P. discriminate. }
    destruct (Hin (y :: l) [] ltac:(discriminate)) as [x [Hx Ex]].
    destruct (Hin l' [] Hl') as [x' [Hx' Ex']].
    pose proof (earliest_le l' x (Permutation_in _ P Hx)).
    pose proof (earliest_le (y :: l) x' (Permutation_in _ (Permutation_sym P) Hx')).
    lia.
Qed.

Lemma span_of_perm (l l' : list datetime) :
  Permutation l l' -> span_of l = span_of l'.
Proof.
  intros P. unfold span_of, span_seconds.
  rewrite (latest_perm _ _ P), (earliest_perm _ _ P).
  destruct l as [|y l], l' as [|y' l']; try reflexivity; exfalso.
  all: first [ apply Permutation_nil in P; discriminate
             | apply Permutation_sym, Permutation_nil in P; discriminate ].
Qed.

Lemma uniform_perm (l l' : list datetime) :
  Permutation l l' -> uniform l -> uniform l'.
Proof.
  intros P U a b Ha Hb.
  apply U; apply (Permutation_in _ (Permutation_sym P)); assumption.
Qed.

Lemma NoDup_edge_list (ns : list string) (succ : string -> list string) :
  NoDup ns -> (forall u, NoDup (succ u)) ->
  NoDup (flat_map (fun u => map (fun v => (u, v)) (succ u)) ns).
Proof.
  intros ND Hs. induction ND as [|n ns Hn ND IH]; simpl; [constructor|].
  apply NoDup_app.
  - clear - Hs. induction (Hs n) as [|v vs Hv NDv IHv]; simpl; constructor; [|exact IHv].
    intros H. apply in_map_iff in H. destruct H as [v' [E Hv']].
    injection E as <-. contradiction.
  - exact IH.
  - intros [u v] H1 H2.
    apply in_map_iff in H1. destruct H1 as [v' [E _]]. injection E as <- <-.
    apply in_flat_map in H2. destruct H2 as [u' [Hu' H2]].
    apply in_map_iff in H2. destruct H2 as [v'' [E _]]. injection E as -> _.
    contradiction.
Qed.

Section BuilderMore.

Variable fromisoformat : string -> option datetime.

Local Abbreviation build_graph := (GraphBuilder.build_graph fromisoformat).
Local Abbreviation parsed := (parsed_timestamps fromisoformat).

Lemma build_graph_raises (records : list LogRecord) (e : exn) :
  build_graph records = Raise e -> e = TypeError.
Proof.
  unfold GraphBuilder.build_graph.
  destruct (GraphBuilder.pass1 fromisoformat records) as [[ns es] tss].
  destruct (GraphBuilder.duration_of tss) as [d|e'] eqn:E; cbn [bind]; [discriminate|].
  intros H. injection H as <-. apply (duration_of_raises _ _ E).
Qed.

(** X5.  [build_graph] returns a graph or raises [TypeError], nothing
    else; it raises exactly when the timestamps it could parse mix values
    with and without a UTC offset ([max] cannot compare them).  Timestamps
    that do not parse and an empty log never make it raise. *)
Theorem build_graph_outcome (records : list LogRecord) :
  (uniform (parsed records) /\ exists g, build_graph records = Ok g)
  \/ (~ uniform (parsed records) /\ build_graph records = Raise TypeError).
Proof.
  destruct (build_graph records) as [g|e] eqn:E.
  - left. split; [apply (build_graph_uniform fromisoformat _ _ E) | exists g; reflexivity].
  - right. pose proof (build_graph_raises _ _ E) as ->. split; [|reflexivity].
    intros U. destruct (build_graph_ok fromisoformat _ U) as [g Hg]. congruence.
Qed.

Lemma calls_of_nonempty (k : edge_key) (records : list LogRecord) :
  calls_of k records <> [] <-> exists r, In r records /\ record_key r = k.
Proof.
  unfold calls_of. split.
  - intros H. destruct (filter (fun r => key_eqb k (record_key r)) records) as [|r l] eqn:E;
      [congruence|].
    assert (Hr : In r (filter (fun r => key_eqb k (record_key r)) records))
      by (rewrite E; left; reflexivity).
    apply filter_In in Hr. destruct Hr as [Hr Hk]. apply key_eqb_eq in Hk.
    exists r. split; [exact Hr | symmetry; exact Hk].
  - intros [r [Hr Hk]] E.
    assert (Hin : In r (filter (fun r => key_eqb k (record_key r)) records)).
    { apply filter_In. split; [exact Hr | apply key_eqb_eq; symmetry; exact Hk]. }
    rewrite E in Hin. destruct Hin.
Qed.

Lemma build_graph_edge_iff (records : list LogRecord) (g : DiGraph) (k : edge_key) :
  build_graph records = Ok g ->
  (In k (G_edges g) <-> exists r, In r records /\ record_key r = k).
Proof.
  intros H. rewrite (build_graph_edges fromisoformat _ _ k H).
  rewrite <- calls_of_nonempty.
  pose proof (build_graph_edge_attrs fromisoformat _ _ k H) as Ea.
  pose proof (lookup_edge_None (G_adj g) k) as Hn. fold (edge_attrs g k) in Hn.
  destruct (calls_of k records) as [|c cs] eqn:Ec.
  - simpl in Ea. split; [|congruence]. intros Hin. apply Hn in Ea. contradiction.
  - split; [discriminate|]. intros _.
    destruct (edge_attrs g k) as [a|] eqn:Eg; [|discriminate].
    apply lookup_edge_Some_In in Eg. apply (in_map fst) in Eg. exact Eg.
Qed.

(** X6.  The graph of a log has the services that the records name as its
    nodes and the service pairs of the records as its edges, each once;
    an edge carries the latencies of its calls in log order, and its count
    is their number. *)
Theorem graph_mirrors_log (records : list LogRecord) (g : DiGraph) :
  build_graph records = Ok g ->
  (forall n, In n (node_names g) <->
             exists r, In r records /\ (src_service r = n \/ dst_service r = n))
  /\ (forall k, In k (G_edges g) <-> exists r, In r records /\ record_key r = k)
  /\ NoDup (node_names g)
  /\ NoDup (G_edges g)
  /\ (forall k a, edge_attrs g k = Some a ->
        times a = map latency (calls_of k records)
        /\ count a = Z.of_nat (List.length (calls_of k records))
        /\ (1 <= count a)%Z).
Proof.
  intros H. split; [|split; [|split; [|split]]].
  - intros n. rewrite <- has_node_In. apply (build_graph_has_node fromisoformat _ _ n H).
  - intros k. apply build_graph_edge_iff, H.
  - apply (build_graph_nodes fromisoformat _ _ H).
  - unfold G_edges. apply NoDup_edge_list.
    + apply (build_graph_nodes fromisoformat _ _ H).
    + intros u. apply successors_NoDup, (build_graph_keys_NoDup fromisoformat _ _ H).
  - intros k a Ha.
    destruct (build_graph_edge_In fromisoformat _ _ k a H Ha) as [Hne ->].
    destruct (derive_edge_fields (span_of (parsed records))
                (map latency (calls_of k records))
                (Z.of_nat (List.length (calls_of k records)))) as [Ht [Hc _]].
    rewrite Ht, Hc. split; [reflexivity|]. split; [reflexivity|].
    destruct (calls_of k records); [congruence | simpl List.length; lia].
Qed.

(** X7.  Every edge of a built graph has a positive throughput, so its
    default capacity is always the throughput: the fallback to the
    latency-based capacity is never taken. *)
Theorem default_capacity_is_throughput
  (records : list LogRecord) (g : DiGraph) (k : edge_key) (a : EdgeAttrs) :
  build_graph records = Ok g ->
  edge_attrs g k = Some a ->
  0 < throughput a /\ capacity a = throughput a /\ capacity_throughput a = throughput a.
Proof.
  intros H Ha.
  destruct (build_graph_edge_In fromisoformat _ _ k a H Ha) as [Hne ->].
  destruct (derive_edge_fields (span_of (parsed records))
              (map latency (calls_of k records))
              (Z.of_nat (List.length (calls_of k records)))) as [_ [_ [_ [Ht [Hct Hcap]]]]].
  assert (Hpos : 0 < inject_Z (Z.of_nat (List.length (calls_of k records)))
                     / span_of (parsed records)).
  { destruct (calls_of k records) as [|c cs]; [congruence|].
    apply throughput_pos, span_of_pos. }
  rewrite Ht, Hct, (Hcap Hpos). split; [exact Hpos|]. split; reflexivity.
Qed.

End BuilderMore.

Lemma graph_mirrors_log_witness :
  (forall n, In n (node_names (graph_of log_chain)) <->
             exists r, In r log_chain /\ (src_service r = n \/ dst_service r = n))
  /\ (forall k, In k (G_edges (graph_of log_chain)) <->
                exists r, In r log_chain /\ record_key r = k)
  /\ NoDup (node_names (graph_of log_chain))
  /\ NoDup (G_edges (graph_of log_chain))
  /\ (forall k a, edge_attrs (graph_of log_chain) k = Some a ->
        times a = map latency (calls_of k log_chain)
        /\ count a = Z.of_nat (List.length (calls_of k log_chain))
        /\ (1 <= count a)%Z).
Proof.
  apply (graph_mirrors_log Iso.fromisoformat log_chain (graph_of log_chain)).
  vm_compute. reflexivity.
Defined.

Lemma default_capacity_witness :
  exists a, edge_attrs (graph_of log_chain) ("A", "B")%string = Some a
            /\ 0 < throughput a /\ capacity a = throughput a
            /\ capacity_throughput a = throughput a.
Proof.
  eexists. split; [vm_compute; reflexivity|].
  apply (default_capacity_is_throughput Iso.fromisoformat log_chain
           (graph_of log_chain) ("A", "B")%string); vm_compute; reflexivity.
Defined.

(** ** The order of the records *)

Section Reordering.

Variable fromisoformat : string -> option datetime.

Local Abbreviation build_graph := (GraphBuilder.build_graph fromisoformat).
Local Abbreviation parsed := (parsed_timestamps fromisoformat).

Lemma parsed_perm (records records' : list LogRecord) :
  Permutation records records' -> Permutation (parsed records) (parsed records').
Proof.
  intros P. unfold parsed_timestamps. apply Permutation_flat_map, P.
Qed.

Lemma reorder_ok (records records' : list LogRecord) (g : DiGraph) :
  Permutation records records' ->
  build_graph records = Ok g ->
  exists g', build_graph records' = Ok g'.
Proof.
  intros P H. apply build_graph_ok.
  apply (uniform_perm _ _ (parsed_perm _ _ P)).
  apply (build_graph_uniform fromisoformat _ _ H).
Qed.

Lemma reorder_edge (records records' : list LogRecord) (g g' : DiGraph)
  (k : edge_key) (a : EdgeAttrs) :
  Permutation records records' ->
  build_graph records = Ok g ->
  build_graph records' = Ok g' ->
  edge_attrs g k = Some a ->
  exists a', edge_attrs g' k = Some a' /\ same_edge a a'.
Proof.
  intros P H H' Ha.
  destruct (build_graph_edge_In fromisoformat _ _ k a H Ha) as [Hne ->].
  pose proof (filter_perm (fun r => key_eqb k (record_key r)) _ _ P) as Pc.
  fold (calls_of k records) in Pc. fold (calls_of k records') in Pc.
  assert (Hne' : calls_of k records' <> []).
  { intros E. rewrite E in Pc. apply Permutation_sym, Permutation_nil in Pc. contradiction. }
  pose proof (build_graph_edge_attrs fromisoformat _ _ k H') as Ea'.
  rewrite (raw_of_nonempty _ Hne') in Ea'. cbn [option_map] in Ea'.
  eexists. split; [exact Ea'|].
  rewrite <- (span_of_perm _ _ (parsed_perm _ _ P)).
  rewrite <- (Permutation_length Pc).
  set (d := span_of (parsed records)).
  set (c := Z.of_nat (List.length (calls_of k records))).
  pose proof (Permutation_map latency Pc) as Pt.
  set (ts := map latency (calls_of k records)) in *.
  set (ts' := map latency (calls_of k records')) in *.
  destruct (derive_edge_fields d ts c) as [Ht [Hc [Havg [Hthr [Hct _]]]]].
  destruct (derive_edge_fields d ts' c) as [Ht' [Hc' [Havg' [Hthr' [Hct' _]]]]].
  destruct (derive_edge_capacities d (ts, c)) as [_ [_ [_ [C1 _]]]].
  destruct (derive_edge_capacities d (ts', c)) as [_ [_ [_ [C1' _]]]].
  assert (Ecap : capacity (GraphBuilder.derive_edge d (ts', c))
                 = capacity (GraphBuilder.derive_edge d (ts, c))).
  { assert (Hpos : 0 < inject_Z c / d).
    { unfold c. destruct (calls_of k records) as [|r rs]; [congruence|].
      apply throughput_pos, span_of_pos. }
    rewrite C1, C1'; [congruence| |]; [rewrite Hthr' | rewrite Hthr]; exact Hpos. }
  unfold same_edge. rewrite Ht, Ht', Hc, Hc', Hthr, Hthr', Hct, Hct'.
  split; [apply Permutation_sym, Pt|].
  repeat split; try reflexivity; assumption.
Qed.

Lemma reorder_nodes (records records' : list LogRecord) (g g' : DiGraph) (n : string) :
  Permutation records records' ->
  build_graph records = Ok g ->
  build_graph records' = Ok g' ->
  In n (node_names g) -> In n (node_names g').
Proof.
  intros P H H' Hn. apply has_node_In. apply has_node_In in Hn.
  apply (build_graph_has_node fromisoformat _ _ n H') .
  apply (build_graph_has_node fromisoformat _ _ n H) in Hn.
  destruct Hn as [r [Hr Hn]]. exists r. split; [apply (Permutation_in _ P Hr) | exact Hn].
Qed.

(** The edges of a graph with their throughputs. *)
Local Abbreviation weighted g := (map (fun e => (fst e, throughput (snd e))) (G_adj g)).

Lemma reorder_weighted_incl (records records' : list LogRecord) (g g' : DiGraph)
  (x : edge_key * Q) :
  Permutation records records' ->
  build_graph records = Ok g ->
  build_graph records' = Ok g' ->
  In x (weighted g) -> In x (weighted g').
Proof.
  intros P H H' Hx. apply in_map_iff in Hx. destruct Hx as [[k a] [<- Hin]]. simpl.
  pose proof (In_lookup_edge _ _ _ (build_graph_keys_NoDup fromisoformat _ _ H) Hin) as Ha.
  destruct (reorder_edge _ _ _ _ k a P H H' Ha) as [a' [Ha' [_ [_ [Et _]]]]].
  apply lookup_edge_Some_In in Ha'.
  apply in_map_iff. exists (k, a'). simpl. split; [rewrite Et; reflexivity | exact Ha'].
Qed.

Lemma reorder_weighted (records records' : list LogRecord) (g g' : DiGraph) :
  Permutation records records' ->
  build_graph records = Ok g ->
  build_graph records' = Ok g' ->
  Permutation (weighted g) (weighted g').
Proof.
  intros P H H'.
  assert (ND : forall rs h, build_graph rs = Ok h -> NoDup (weighted h)).
  { intros rs h Hh. apply (NoDup_map_inv fst). rewrite map_map. simpl.
    apply (build_graph_keys_NoDup fromisoformat _ _ Hh). }
  apply NoDup_Permutation; [apply (ND _ _ H) | apply (ND _ _ H') |].
  intros x. split.
  - apply (reorder_weighted_incl _ _ _ _ x P H H').
  - apply (reorder_weighted_incl _ _ _ _ x (Permutation_sym P) H' H).
Qed.

Lemma in_throughputs_weighted (g : DiGraph) (n : string) :
  in_throughputs g n
  = map snd (filter (fun x => String.eqb (snd (fst x)) n) (weighted g)).
Proof.
  unfold in_throughputs, GraphBuilder.in_edges.
  induction (G_adj g) as [|[[u v] a] es IH]; simpl; [reflexivity|].
  destruct (String.eqb v n); simpl; rewrite IH; reflexivity.
Qed.

Lemma out_throughputs_weighted (g : DiGraph) (n : string) :
  out_throughputs g n
  = map snd (filter (fun x => String.eqb (fst (fst x)) n) (weighted g)).
Proof.
  unfold out_throughputs, GraphBuilder.out_edges.
  induction (G_adj g) as [|[[u v] a] es IH]; simpl; [reflexivity|].
  destruct (String.eqb u n); simpl; rewrite IH; reflexivity.
Qed.

(** X8.  The graph does not depend on the order of the records, except for
    the order in which it lists and adds things: a log with the same
    records in another order gives the same nodes and edges, on every edge
    the same latencies up to their order and the same count, throughput,
    throughput-based capacity and default capacity, and for every node the
    same throughputs to add up for its load, in another order. *)
Theorem build_graph_order_independent
  (records records' : list LogRecord) (g : DiGraph) :
  Permutation records records' ->
  build_graph records = Ok g ->
  exists g',
    build_graph records' = Ok g'
    /\ (forall n, In n (node_names g') <-> In n (node_names g))
    /\ (forall k, In k (G_edges g') <-> In k (G_edges g))
    /\ (forall k a, edge_attrs g k = Some a ->
          exists a', edge_attrs g' k = Some a' /\ same_edge a a')
    /\ (forall n, Permutation (in_throughputs g' n) (in_throughputs g n)
                  /\ Permutation (out_throughputs g' n) (out_throughputs g n)).
Proof.
  intros P H. destruct (reorder_ok _ _ _ P H) as [g' H']. exists g'.
  split; [exact H'|]. split; [|split; [|split]].
  - intros n. split.
    + apply (reorder_nodes _ _ _ _ n (Permutation_sym P) H' H).
    + apply (reorder_nodes _ _ _ _ n P H H').
  - intros k. rewrite (build_graph_edge_iff fromisoformat _ _ k H).
    rewrite (build_graph_edge_iff fromisoformat _ _ k H').
    split; intros [r [Hr Hk]]; exists r; (split; [|exact Hk]).
    + apply (Permutation_in _ (Permutation_sym P) Hr).
    + apply (Permutation_in _ P Hr).
  - intros k a Ha. apply (reorder_edge _ _ _ _ k a P H H' Ha).
  - intros n.
    pose proof (reorder_weighted _ _ _ _ (Permutation_sym P) H' H) as Pw.
    rewrite !in_throughputs_weighted, !out_throughputs_weighted.
    split; apply Permutation_map, filter_perm, Pw.
Qed.

End Reordering.

Lemma build_graph_order_independent_witness :
  exists g',
    GraphBuilder.build_graph Iso.fromisoformat (rev log_chain) = Ok g'
    /\ (forall n, In n (node_names g') <-> In n (node_names (graph_of log_chain)))
    /\ (forall k, In k (G_edges g') <-> In k (G_edges (graph_of log_chain)))
    /\ (forall k a, edge_attrs (graph_of log_chain) k = Some a ->
          exists a', edge_attrs g' k = Some a' /\ same_edge a a')
    /\ (forall n, Permutation (in_throughputs g' n) (in_throughputs (graph_of log_chain) n)
                  /\ Permutation (out_throughputs g' n)
                       (out_throughputs (graph_of log_chain) n)).
Proof.
  apply (build_graph_order_independent Iso.fromisoformat log_chain (rev log_chain)
           (graph_of log_chain)).
  - apply Permutation_rev.
  - vm_compute. reflexivity.
Defined.

(** ** The windows of a log *)

Section WindowsMore.

Variable fromisoformat : string -> option datetime.

Local Abbreviation parsed := (parsed_timestamps fromisoformat).




(** X10.  One timestamp that does not parse makes the whole analysis raise
    [ValueError], whatever the endpoints, the window, the step and the
    solver: [sliding_windows] parses every timestamp before the first
    window is looked at. *)
Theorem analysis_rejects_unparsable
  (mf : max_flow_fn) (mc : min_cut_fn) (fuel : nat) (records : list LogRecord)
  (source sink : string) (w s : Z) (capacity_attr : string) :
  ~ all_parse fromisoformat records ->
  sliding_windows fromisoformat fuel records w s = Some (Raise ValueError)
  /\ analyze_time_windows fromisoformat mf mc fuel records source sink w s capacity_attr
     = Some (Raise ValueError).
Proof.
  intros Hbad.
  pose proof (sliding_windows_start_raises fromisoformat records Hbad) as E.
  unfold sliding_windows, analyze_time_windows. rewrite E.
  split; reflexivity.
Qed.

Lemma py_min_mixed (tss : list datetime) :
  ~ uniform tss -> py_min tss = Raise TypeError.
Proof.
  intros Hu. destruct tss as [|t l].
  - exfalso. apply Hu. intros a b [].
  - simpl. destruct (py_min_from t l) as [m|e] eqn:E.
    + exfalso. apply Hu. destruct (py_min_from_inv _ _ _ E) as [Htz _].
      assert (H : forall x, In x (t :: l) -> tz_aware x = tz_aware t).
      { intros x [<-|Hx]; [reflexivity | apply Htz, Hx]. }
      intros a b Ha Hb. rewrite (H a Ha), (H b Hb). reflexivity.
    + rewrite (py_min_from_raises _ _ _ E). reflexivity.
Qed.

(** X11.  A log whose timestamps all parse but mix values with and without
    a UTC offset makes the analysis raise [TypeError] before any window is
    looked at. *)
Theorem analysis_rejects_mixed_timestamps
  (mf : max_flow_fn) (mc : min_cut_fn) (fuel : nat) (records : list LogRecord)
  (source sink : string) (w s : Z) (capacity_attr : string) :
  all_parse fromisoformat records ->
  ~ uniform (parsed records) ->
  sliding_windows fromisoformat fuel records w s = Some (Raise TypeError)
  /\ analyze_time_windows fromisoformat mf mc fuel records source sink w s capacity_attr
     = Some (Raise TypeError).
Proof.
  intros Hall Hu.
  assert (E : sliding_windows_start fromisoformat records = Raise TypeError).
  { unfold sliding_windows_start. destruct records as [|r rs].
    - exfalso. apply Hu. intros a b [].
    - rewrite (mapM_parse_ok fromisoformat _ Hall). cbn [bind].
      rewrite (py_min_mixed _ Hu). reflexivity. }
  unfold sliding_windows, analyze_time_windows. rewrite E.
  split; reflexivity.
Qed.

(** X12.  With a step of zero or less, on a log that is not empty and
    whose timestamps parse, neither the generator nor
    [analyze_time_windows] ever returns a list, however long they run: the
    loop goes on, or an addition raises [OverflowError] (as it does in the
    end with a negative step, when the start of the next window falls
    before the year 1).  With a step of exactly zero and a window within
    the calendar the loop yields the same window for ever. *)
Theorem nonpositive_step_never_returns
  (mf : max_flow_fn) (mc : min_cut_fn) (fuel : nat) (records : list LogRecord)
  (source sink : string) (w s : Z) (capacity_attr : string) :
  records <> [] ->
  all_parse fromisoformat records ->
  uniform (parsed records) ->
  (s <= 0)%Z ->
  (forall windows, sliding_windows fromisoformat fuel records w s <> Some (Ok windows))
  /\ (forall results,
        analyze_time_windows fromisoformat mf mc fuel records source sink w s
          capacity_attr <> Some (Ok results))
  /\ (s = 0%Z ->
      within_calendar (parsed records) w s ->
      cut_within_nodes mc ->
      sliding_windows fromisoformat fuel records w s = None
      /\ analyze_time_windows fromisoformat mf mc fuel records source sink w s
           capacity_attr = None).
Proof.
  intros Hne Hall Hu Hs.
  destruct (sliding_windows_start_ok fromisoformat records Hne Hall Hu)
    as [start [end_ [E [Hstart [Hend [Htz Htzs]]]]]].
  assert (Hle : (micros start <= micros end_)%Z).
  { rewrite Hstart, Hend. apply earliest_le_latest. }
  unfold sliding_windows, analyze_time_windows. rewrite E.
  split; [|split].
  - intros windows. apply sliding_windows_drain_no_result; assumption.
  - intros results. apply analyze_loop_no_result; assumption.
  - intros Hz Hcal Hcut.
    assert (Hloop : loop_in_calendar start end_ w s).
    { destruct Hcal as (Hw & Hs' & Hlo & Hhi).
      rewrite <- (sliding_windows_start_first fromisoformat records start end_ Hall Hu E)
        in Hlo, Hhi.
      unfold loop_in_calendar, wall_clock. rewrite Hstart, Hend.
      repeat split; assumption. }
    split.
    + subst s. apply sliding_windows_drain_diverges; assumption.
    + apply analyze_loop_diverges; try assumption.
      apply cut_within_nodes_local, Hcut.
Qed.

End WindowsMore.


Lemma log_bad_stamp_unparsable : ~ all_parse Iso.fromisoformat log_bad_stamp.
Proof.
  intros H. apply (H (call "yesterday" "A" "B" 30)).
  - right. left. reflexivity.
  - vm_compute. reflexivity.
Qed.

Lemma analysis_rejects_unparsable_witness :
  sliding_windows Iso.fromisoformat 0 log_bad_stamp 60 30 = Some (Raise ValueError)
  /\ analyze_time_windows Iso.fromisoformat
       FlowCutSolver.maximum_flow FlowCutSolver.minimum_cut
       0 log_bad_stamp "A" "C" 60 30 "capacity" = Some (Raise ValueError).
Proof.
  apply (analysis_rejects_unparsable Iso.fromisoformat
           FlowCutSolver.maximum_flow FlowCutSolver.minimum_cut
           0 log_bad_stamp "A" "C" 60 30 "capacity").
  exact log_bad_stamp_unparsable.
Defined.

Lemma log_mixed_parses : all_parse Iso.fromisoformat log_mixed.
Proof. apply all_parseb_spec. vm_compute; reflexivity. Qed.

Lemma log_mixed_not_uniform : ~ uniform (parsed_timestamps Iso.fromisoformat log_mixed).
Proof.
  intros U.
  specialize (U (mkDatetime true 1704067200000000 0) (mkDatetime false 1704067201000000 0)).
  assert (E : true = false); [|discriminate E].
  apply U; vm_compute; auto.
Qed.

Lemma analysis_rejects_mixed_witness :
  sliding_windows Iso.fromisoformat 0 log_mixed 60 30 = Some (Raise TypeError)
  /\ analyze_time_windows Iso.fromisoformat
       FlowCutSolver.maximum_flow FlowCutSolver.minimum_cut
       0 log_mixed "A" "C" 60 30 "capacity" = Some (Raise TypeError).
Proof.
  apply (analysis_rejects_mixed_timestamps Iso.fromisoformat
           FlowCutSolver.maximum_flow FlowCutSolver.minimum_cut
           0 log_mixed "A" "C" 60 30 "capacity").
  - exact log_mixed_parses.
  - exact log_mixed_not_uniform.
Defined.

Lemma nonpositive_step_witness :
  (forall windows,
     sliding_windows Iso.fromisoformat 1000 log_chain 60 (-1) <> Some (Ok windows))
  /\ (forall results,
        analyze_time_windows Iso.fromisoformat
          FlowCutSolver.maximum_flow FlowCutSolver.minimum_cut
          1000 log_chain "A" "C" 60 (-1) "capacity" <> Some (Ok results)).
Proof.
  destruct (nonpositive_step_never_returns Iso.fromisoformat
              FlowCutSolver.maximum_flow FlowCutSolver.minimum_cut
              1000 log_chain "A" "C" 60 (-1) "capacity") as (H1 & H2 & _).
  - discriminate.
  - exact log_chain_parses.
  - exact log_chain_uniform.
  - lia.
  - split; [exact H1 | exact H2].
Defined.

(** A negative step ends in [OverflowError]: with a step of a thousand
    years of 365 days backwards the windows of a log of the year 2024 start
    in the years 2024, 1024 and 25, and the step after the third window
    leaves the calendar. *)
Example negative_step_overflows :
  sliding_windows Iso.fromisoformat 5 log_chain 60 (-31536000000)
  = Some (Raise OverflowError)
  /\ sliding_windows Iso.fromisoformat 2 log_chain 60 (-31536000000) = None.
Proof. split; vm_compute; reflexivity. Qed.

(** ** The views of a graph *)

Lemma Qmin_list_le (l : list Q) :
  forall x, Qmin_list x l <= x /\ forall y, In y l -> Qmin_list x l <= y.
Proof.
  induction l as [|z l IH]; intros x; simpl.
  - split; [apply Qle_refl | intros y []].
  - unfold Qmin_list in *. simpl.
    destruct (IH (if Qlt_bool z x then z else x)) as [H1 H2].
    destruct (Qlt_bool z x) eqn:E.
    + apply Qlt_bool_iff in E. split; [lra|].
      intros y [<-|Hy]; [exact H1 | apply H2, Hy].
    + apply Qlt_bool_false in E. split; [exact H1|].
      intros y [<-|Hy]; [lra | apply H2, Hy].
Qed.

Lemma Qmax_list_ge (l : list Q) :
  forall x, x <= Qmax_list x l /\ forall y, In y l -> y <= Qmax_list x l.
Proof.
  induction l as [|z l IH]; intros x; simpl.
  - split; [apply Qle_refl | intros y []].
  - unfold Qmax_list in *. simpl.
    destruct (IH (if Qlt_bool x z then z else x)) as [H1 H2].
    destruct (Qlt_bool x z) eqn:E.
    + apply Qlt_bool_iff in E. split; [lra|].
      intros y [<-|Hy]; [exact H1 | apply H2, Hy].
    + apply Qlt_bool_false in E. split; [exact H1|].
      intros y [<-|Hy]; [lra | apply H2, Hy].
Qed.

Lemma Qmin_list_In (l : list Q) : forall x, In (Qmin_list x l) (x :: l).
Proof.
  induction l as [|z l IH]; intros x; [left; reflexivity|].
  unfold Qmin_list in *. simpl fold_left.
  destruct (IH (if Qlt_bool z x then z else x)) as [E|H].
  - rewrite <- E. destruct (Qlt_bool z x); [right; left | left]; reflexivity.
  - right. right. exact H.
Qed.

Lemma Qmax_list_In (l : list Q) : forall x, In (Qmax_list x l) (x :: l).
Proof.
  induction l as [|z l IH]; intros x; [left; reflexivity|].
  unfold Qmax_list in *. simpl fold_left.
  destruct (IH (if Qlt_bool x z then z else x)) as [E|H].
  - rewrite <- E. destruct (Qlt_bool x z); [right; left | left]; reflexivity.
  - right. right. exact H.
Qed.

Lemma fraction_bounds (ld lo hi : Q) :
  lo < hi -> lo <= ld <= hi ->
  0 <= (ld - lo) / (hi - lo) <= 1.
Proof.
  intros Hlt [H1 H2]. split.
  - apply Qle_shift_div_l; lra.
  - apply Qle_shift_div_r; lra.
Qed.

(** The smallest and the largest load, as [graph_view] and [render_pyvis]
    compute them, bound the load of every node. *)
Lemma load_range (G : DiGraph) (n : string * NodeAttrs) :
  In n (G_nodes G) ->
  let loads := map (fun n => load (snd n)) (G_nodes G) in
  let min_load := match loads with [] => 0 | x :: l => Qmin_list x l end in
  let max_load := match loads with [] => 0 | x :: l => Qmax_list x l end in
  min_load <= load (snd n) <= max_load
  /\ (exists lo, In lo (G_nodes G) /\ load (snd lo) = min_load)
  /\ (exists hi, In hi (G_nodes G) /\ load (snd hi) = max_load).
Proof.
  intros Hn loads min_load max_load.
  assert (Hl : In (load (snd n)) loads) by (apply in_map_iff; exists n; auto).
  assert (Hback : forall q, In q loads -> exists m, In m (G_nodes G) /\ load (snd m) = q).
  { intros q Hq. apply in_map_iff in Hq. destruct Hq as [m [E Hm]]. exists m. auto. }
  unfold min_load, max_load. clearbody loads.
  destruct loads as [|x l]; [destruct Hl|].
  destruct (Qmin_list_le l x) as [A1 A2]. destruct (Qmax_list_ge l x) as [B1 B2].
  split; [|split].
  - destruct Hl as [<-|Hl]; split; auto.
  - apply Hback, Qmin_list_In.
  - apply Hback, Qmax_list_In.
Qed.

(** X13.  In the graph that the live server publishes every node has a
    size from 10 to 60, a node with a larger load is not smaller, and as
    soon as two loads differ a most loaded node has size 60 and a least
    loaded one size 10. *)
Theorem view_node_sizes (G : DiGraph) (highlighted : list edge_key) :
  let nodes := v_nodes (graph_view G highlighted) in
  (forall vn, In vn nodes -> 10 <= vn_size vn <= 60)
  /\ (forall a b, In a nodes -> In b nodes ->
        vn_load a <= vn_load b -> vn_size a <= vn_size b)
  /\ (forall a b, In a nodes -> In b nodes -> vn_load a < vn_load b ->
        exists lo hi, In lo nodes /\ In hi nodes
                      /\ vn_size lo == 10 /\ vn_size hi == 60
                      /\ forall x, In x nodes -> vn_load lo <= vn_load x <= vn_load hi).
Proof.
  unfold graph_view. cbn [v_nodes].
  set (loads := map (fun n => load (snd n)) (G_nodes G)).
  set (min_load := match loads with [] => 0 | x :: l => Qmin_list x l end).
  set (max_load := match loads with [] => 0 | x :: l => Qmax_list x l end).
  assert (Hr : forall n, In n (G_nodes G) -> min_load <= load (snd n) <= max_load).
  { intros n Hn. apply (load_range G n Hn). }
  assert (Hv : forall vn, In vn (map (view_node min_load max_load) (G_nodes G)) ->
                 exists n, In n (G_nodes G) /\ vn = view_node min_load max_load n).
  { intros vn H. apply in_map_iff in H. destruct H as [n [E Hn]]. exists n. auto. }
  split; [|split].
  - intros vn H. destruct (Hv vn H) as [n [Hn ->]]. unfold view_node. cbn [vn_size].
    destruct (Qlt_bool min_load max_load) eqn:E; [|lra].
    apply Qlt_bool_iff in E.
    pose proof (fraction_bounds _ _ _ E (Hr n Hn)) as Hf.
    set (frac := (load (snd n) - min_load) / (max_load - min_load)) in *. lra.
  - intros a b Ha Hb. destruct (Hv a Ha) as [n [Hn ->]]. destruct (Hv b Hb) as [m [Hm ->]].
    unfold view_node. cbn [vn_size vn_load]. intros Hle.
    destruct (Qlt_bool min_load max_load) eqn:E; [|lra].
    apply Qlt_bool_iff in E.
    assert (Hd : (load (snd n) - min_load) / (max_load - min_load)
                 <= (load (snd m) - min_load) / (max_load - min_load)).
    { unfold Qdiv. apply Qmult_le_compat_r; [lra|].
      apply Qlt_le_weak, Qinv_lt_0_compat. lra. }
    lra.
  - intros a b Ha Hb. destruct (Hv a Ha) as [n [Hn ->]]. destruct (Hv b Hb) as [m [Hm ->]].
    unfold view_node at 1 2. cbn [vn_load]. intros Hlt.
    assert (E : min_load < max_load).
    { pose proof (Hr n Hn). pose proof (Hr m Hm). lra. }
    destruct (load_range G n Hn) as [_ [[lo [Hlo Elo]] [hi [Hhi Ehi]]]].
    fold loads in Elo, Ehi. fold min_load in Elo. fold max_load in Ehi.
    exists (view_node min_load max_load lo), (view_node min_load max_load hi).
    split; [apply in_map, Hlo|]. split; [apply in_map, Hhi|].
    split; [|split].
    + unfold view_node. cbn [vn_size].
      rewrite (proj2 (Qlt_bool_iff _ _) E), Elo. field. lra.
    + unfold view_node. cbn [vn_size].
      rewrite (proj2 (Qlt_bool_iff _ _) E), Ehi. field. lra.
    + intros x Hx. destruct (Hv x Hx) as [k [Hk ->]].
      unfold view_node. cbn [vn_load]. rewrite Elo, Ehi. apply Hr, Hk.
Qed.

Lemma intensity_bounds (ld lo hi : Q) :
  lo < hi -> lo <= ld <= hi ->
  (0 <= Qfloor (255 * ((ld - lo) / (hi - lo))) <= 255)%Z.
Proof.
  intros Hlt Hin. pose proof (fraction_bounds _ _ _ Hlt Hin) as Hf.
  set (frac := (ld - lo) / (hi - lo)) in *.
  assert (H0 : (Qfloor 0 <= Qfloor (255 * frac))%Z) by (apply Qfloor_resp_le; lra).
  assert (H1 : (Qfloor (255 * frac) <= Qfloor 255)%Z) by (apply Qfloor_resp_le; lra).
  change (Qfloor 0) with 0%Z in H0. change (Qfloor 255) with 255%Z in H1.
  split; assumption.
Qed.

(** X14.  A colour that the live server computes for a node is a proper
    RGB value: red from 100 to 255, green from 50 to 200, blue from 73 to
    200, with no more green than blue.  A node gets such a colour exactly
    when the loads differ and the largest one is positive; otherwise it
    keeps the default colour. *)
Theorem view_node_colours (G : DiGraph) (highlighted : list edge_key) :
  let nodes := v_nodes (graph_view G highlighted) in
  (forall vn r g b, In vn nodes -> vn_color vn = Some (r, g, b) ->
     (100 <= r <= 255)%Z /\ (50 <= g <= 200)%Z /\ (73 <= b <= 200)%Z /\ (g <= b)%Z)
  /\ (forall vn, In vn nodes ->
        (vn_color vn <> None <->
         (exists a b, In a nodes /\ In b nodes /\ vn_load a < vn_load b)
         /\ exists c, In c nodes /\ 0 < vn_load c)).
Proof.
  unfold graph_view. cbn [v_nodes].
  set (loads := map (fun n => load (snd n)) (G_nodes G)).
  set (min_load := match loads with [] => 0 | x :: l => Qmin_list x l end).
  set (max_load := match loads with [] => 0 | x :: l => Qmax_list x l end).
  assert (Hr : forall n, In n (G_nodes G) -> min_load <= load (snd n) <= max_load).
  { intros n Hn. apply (load_range G n Hn). }
  assert (Hv : forall vn, In vn (map (view_node min_load max_load) (G_nodes G)) ->
                 exists n, In n (G_nodes G) /\ vn = view_node min_load max_load n).
  { intros vn H. apply in_map_iff in H. destruct H as [n [E Hn]]. exists n. auto. }
  split.
  - intros vn r g b H. destruct (Hv vn H) as [n [Hn ->]]. unfold view_node. cbn [vn_color].
    destruct (Qlt_bool 0 max_load && Qlt_bool min_load max_load) eqn:E; [|discriminate].
    apply andb_prop in E. destruct E as [_ E]. apply Qlt_bool_iff in E.
    pose proof (intensity_bounds _ _ _ E (Hr n Hn)) as Hi.
    set (i := Qfloor (255 * ((load (snd n) - min_load) / (max_load - min_load)))) in *.
    intros Ec.
    assert (Er : r = Z.min 255 (100 + i)) by congruence.
    assert (Eg : g = Z.max 50 (200 - i)) by congruence.
    assert (Eb : b = Z.max 50 (200 - i / 2)) by congruence.
    clear Ec. subst r g b.
    pose proof (Z.div_pos i 2 ltac:(lia) ltac:(lia)).
    pose proof (Z.div_le_mono i 255 2 ltac:(lia) ltac:(lia)) as Hhalf.
    change (255 / 2)%Z with 127%Z in Hhalf.
    pose proof (Z.div_le_upper_bound i 2 i ltac:(lia) ltac:(lia)).
    lia.
  - intros vn H. destruct (Hv vn H) as [n [Hn ->]]. unfold view_node at 1. cbn [vn_color].
    destruct (load_range G n Hn) as [_ [[lo [Hlo Elo]] [hi [Hhi Ehi]]]].
    fold loads in Elo, Ehi. fold min_load in Elo. fold max_load in Ehi.
    destruct (Qlt_bool 0 max_load && Qlt_bool min_load max_load) eqn:E.
    + apply andb_prop in E. destruct E as [E0 E1].
      apply Qlt_bool_iff in E0. apply Qlt_bool_iff in E1.
      split; [intros _ | discriminate]. split.
      * exists (view_node min_load max_load lo), (view_node min_load max_load hi).
        split; [apply in_map, Hlo|]. split; [apply in_map, Hhi|].
        unfold view_node. cbn [vn_load]. rewrite Elo, Ehi. exact E1.
      * exists (view_node min_load max_load hi). split; [apply in_map, Hhi|].
        unfold view_node. cbn [vn_load]. rewrite Ehi. exact E0.
    + split; [congruence|]. intros [[a [b [Ha [Hb Hab]]]] [c [Hc Hpos]]]. exfalso.
      destruct (Hv a Ha) as [na [Hna ->]]. destruct (Hv b Hb) as [nb [Hnb ->]].
      destruct (Hv c Hc) as [nc [Hnc ->]].
      unfold view_node in Hab, Hpos. cbn [vn_load] in Hab, Hpos.
      pose proof (Hr na Hna). pose proof (Hr nb Hnb). pose proof (Hr nc Hnc).
      apply andb_false_iff in E. destruct E as [E|E]; apply Qlt_bool_false in E; lra.
Qed.

(** X15.  [render_pyvis] and the live view draw the same graph: the same
    edges, and nodes of the same name, load and size.  They colour the
    nodes alike too, with one exception: when all loads are equal and
    positive the live view leaves every node in the default colour, while
    [render_pyvis] paints every node rgb(100,200,200). *)
Theorem render_pyvis_matches_live_view (G : DiGraph) (highlighted : list edge_key) :
  let live := graph_view G highlighted in
  let html := GraphVisualizer.render_pyvis G (Some highlighted) in
  v_edges html = v_edges live
  /\ map vn_id (v_nodes html) = map vn_id (v_nodes live)
  /\ map vn_load (v_nodes html) = map vn_load (v_nodes live)
  /\ map vn_size (v_nodes html) = map vn_size (v_nodes live)
  /\ (v_nodes html = v_nodes live
      \/ (Forall (fun v => vn_color v = None /\ vn_size v = 10 /\ 0 < vn_load v)
                 (v_nodes live)
          /\ Forall (fun p => vn_color p = Some (100, 200, 200)%Z) (v_nodes html)
          /\ forall a b, In a (v_nodes live) -> In b (v_nodes live) ->
                         vn_load a == vn_load b)).
Proof.
  unfold graph_view, GraphVisualizer.render_pyvis. cbn [v_nodes v_edges].
  set (loads := map (fun n => load (snd n)) (G_nodes G)).
  set (min_load := match loads with [] => 0 | x :: l => Qmin_list x l end).
  set (max_load := match loads with [] => 0 | x :: l => Qmax_list x l end).
  split; [reflexivity|].
  rewrite !map_map. cbn [vn_id vn_load vn_size GraphVisualizer.pyvis_node view_node].
  split; [reflexivity|]. split; [reflexivity|]. split; [reflexivity|].
  assert (Hr : forall n, In n (G_nodes G) -> min_load <= load (snd n) <= max_load).
  { intros n Hn. apply (load_range G n Hn). }
  destruct (Qlt_bool min_load max_load) eqn:E1.
  - left. apply map_ext. intros n.
    unfold GraphVisualizer.pyvis_node, view_node. rewrite E1, andb_true_r. reflexivity.
  - destruct (Qlt_bool 0 max_load) eqn:E0.
    + right. apply Qlt_bool_false in E1. apply Qlt_bool_iff in E0.
      split; [|split].
      * apply Forall_forall. intros v Hv. apply in_map_iff in Hv.
        destruct Hv as [n [<- Hn]]. unfold view_node. cbn [vn_color vn_size vn_load].
        rewrite (proj2 (Qlt_bool_false _ _) E1), andb_false_r.
        split; [reflexivity|]. split; [reflexivity|].
        pose proof (Hr n Hn). lra.
      * apply Forall_forall. intros p Hp. apply in_map_iff in Hp.
        destruct Hp as [n [<- Hn]]. unfold GraphVisualizer.pyvis_node. cbn [vn_color].
        rewrite (proj2 (Qlt_bool_false _ _) E1), (proj2 (Qlt_bool_iff _ _) E0).
        reflexivity.
      * intros a b Ha Hb. apply in_map_iff in Ha. apply in_map_iff in Hb.
        destruct Ha as [n [<- Hn]]. destruct Hb as [m [<- Hm]].
        unfold view_node. cbn [vn_load].
        pose proof (Hr n Hn). pose proof (Hr m Hm). lra.
    + left. apply map_ext. intros n.
      unfold GraphVisualizer.pyvis_node, view_node. rewrite E1, E0. reflexivity.
Qed.

(** The exception occurs: a log of one call gives two nodes of one load. *)
Example render_pyvis_recolours :
  let G := graph_of [call "2024-01-01T00:00:00Z" "A" "B" 10] in
  map vn_color (v_nodes (graph_view G [])) = [None; None]
  /\ map vn_color (v_nodes (GraphVisualizer.render_pyvis G (Some [])))
     = [Some (100, 200, 200)%Z; Some (100, 200, 200)%Z].
Proof.
  split; vm_compute; reflexivity.
Qed.

(** ** The threads of the live server *)

Section LiveMore.

Variable fromisoformat : string -> option datetime.
Variable nx_maximum_flow : max_flow_fn.
Variable nx_minimum_cut : min_cut_fn.
Variables (source sink : string) (window step : Z) (capacity : string).

Local Abbreviation reachable :=
  (RuntimeAnalyzer.reachable fromisoformat nx_maximum_flow nx_minimum_cut
     source sink window step capacity).
Local Abbreviation thread_step :=
  (RuntimeAnalyzer.thread_step fromisoformat nx_maximum_flow nx_minimum_cut
     source sink window step capacity).
Local Abbreviation runs :=
  (runs fromisoformat nx_maximum_flow nx_minimum_cut source sink window step capacity).

Lemma prefix_of_refl {A : Type} (l : list A) : prefix_of l l.
Proof. exists []. symmetry. apply app_nil_r. Qed.

Lemma prefix_of_trans {A : Type} (l1 l2 l3 : list A) :
  prefix_of l1 l2 -> prefix_of l2 l3 -> prefix_of l1 l3.
Proof.
  intros [r1 ->] [r2 ->]. exists (r1 ++ r2). symmetry. apply app_assoc.
Qed.

Lemma prefix_of_snoc {A : Type} (l1 l2 : list A) (x : A) :
  prefix_of l1 l2 -> prefix_of l1 (l2 ++ [x]).
Proof.
  intros [r ->]. exists (r ++ [x]). symmetry. apply app_assoc.
Qed.

Lemma step_records (s s' : RuntimeAnalyzer.state) :
  thread_step s s' ->
  prefix_of (RuntimeAnalyzer.records (RuntimeAnalyzer.mem s))
            (RuntimeAnalyzer.records (RuntimeAnalyzer.mem s')).
Proof.
  intros H. destruct H; cbn [RuntimeAnalyzer.mem RuntimeAnalyzer.records];
    try apply prefix_of_refl.
  apply prefix_of_snoc, prefix_of_refl.
Qed.

Lemma snapshot_prefix (t : RuntimeAnalyzer.state) :
  reachable t ->
  prefix_of (snapshot_of t) (RuntimeAnalyzer.records (RuntimeAnalyzer.mem t)).
Proof.
  induction 1 as [|t t' Ht IH Hstep].
  - apply prefix_of_refl.
  - assert (Hnil : forall l : list LogRecord, prefix_of [] l)
      by (intros l; exists l; reflexivity).
    destruct Hstep as [m p rec|m|m|m rc fuel windows Hne Hr|m rc fuel e Hne Hr|m rc windows top];
      unfold snapshot_of in *;
      cbn [RuntimeAnalyzer.pc RuntimeAnalyzer.mem RuntimeAnalyzer.records] in *.
    + apply prefix_of_snoc, IH.
    + apply prefix_of_refl.
    + apply Hnil.
    + exact IH.
    + exact IH.
    + apply Hnil.
Qed.

Lemma runs_reachable (s s' : RuntimeAnalyzer.state) :
  reachable s -> runs s s' -> reachable s'.
Proof.
  intros Hs Hrun. induction Hrun as [|s s' s'' Hrun IH Hstep]; [exact Hs|].
  apply (RuntimeAnalyzer.reach_step _ _ _ _ _ _ _ _ _ _ (IH Hs) Hstep).
Qed.

(** X16.  The shared list of records only grows by appending: what a state
    holds is the beginning of what every later state holds.  And the copy
    that the analysis thread works on outside the lock is always a
    beginning of the shared list, so an analysis never sees a record that
    is not in the log, or the log in another order. *)
Theorem records_only_grow (s s' : RuntimeAnalyzer.state) :
  reachable s -> runs s s' ->
  prefix_of (RuntimeAnalyzer.records (RuntimeAnalyzer.mem s))
            (RuntimeAnalyzer.records (RuntimeAnalyzer.mem s'))
  /\ prefix_of (snapshot_of s') (RuntimeAnalyzer.records (RuntimeAnalyzer.mem s')).
Proof.
  intros Hs Hrun.
  split; [|apply snapshot_prefix, (runs_reachable _ _ Hs Hrun)].
  clear Hs. induction Hrun as [|s s' s'' Hrun IH Hstep]; [apply prefix_of_refl|].
  apply (prefix_of_trans _ _ _ IH), step_records, Hstep.
Qed.

(** X17.  The windows that the server publishes are never made up: in every
    state they are either empty or the result of [analyze_time_windows] on
    a beginning of the records read so far, with the endpoints, the window
    and the step of the server. *)
Theorem published_windows_come_from_log (s : RuntimeAnalyzer.state) :
  reachable s ->
  RuntimeAnalyzer.latest_windows (RuntimeAnalyzer.mem s) = []
  \/ exists rc fuel,
       rc <> []
       /\ prefix_of rc (RuntimeAnalyzer.records (RuntimeAnalyzer.mem s))
       /\ analyze_time_windows fromisoformat nx_maximum_flow nx_minimum_cut
            fuel rc source sink window step capacity
          = Some (Ok (RuntimeAnalyzer.latest_windows (RuntimeAnalyzer.mem s))).
Proof.
  induction 1 as [|t t' Ht IH Hstep].
  - left. reflexivity.
  - pose proof (snapshot_prefix t Ht) as Hsnap.
    destruct Hstep as [m p rec|m|m|m rc fuel windows Hne Hrun|m rc fuel e Hne Hrun|m rc windows top];
      unfold snapshot_of in Hsnap;
      cbn [RuntimeAnalyzer.pc RuntimeAnalyzer.mem RuntimeAnalyzer.records
           RuntimeAnalyzer.latest_windows] in *.
    + destruct IH as [IH|[rc [fuel [Hne [Hpre Hrun]]]]]; [left; exact IH|].
      right. exists rc, fuel. split; [exact Hne|]. split; [|exact Hrun].
      apply prefix_of_snoc, Hpre.
    + exact IH.
    + exact IH.
    + right. exists rc, fuel. split; [exact Hne|]. split; [exact Hsnap | exact Hrun].
    + left. reflexivity.
    + exact IH.
Qed.

(** X18.  Once [/graph-data] has answered with a graph (status 200) it
    never goes back to "no content" (204): later cycles replace the graph
    or, when they fail or find no window, leave the last one in place. *)
Theorem graph_data_stays_ready (s s' : RuntimeAnalyzer.state) :
  runs s s' ->
  fst (graph_data (RuntimeAnalyzer.mem s)) = 200%Z ->
  fst (graph_data (RuntimeAnalyzer.mem s')) = 200%Z.
Proof.
  intros Hrun H200. induction Hrun as [|s s' s'' Hrun IH Hstep]; [exact H200|].
  specialize (IH H200). unfold graph_data in *.
  destruct Hstep as [m p rec|m|m|m rc fuel windows Hne Hr|m rc fuel e Hne Hr|m rc windows top];
    cbn [RuntimeAnalyzer.mem RuntimeAnalyzer.latest_graph] in *; try exact IH.
  destruct (RuntimeAnalyzer.cycle_graph fromisoformat rc windows top); [reflexivity | exact IH].
Qed.

End LiveMore.

Lemma records_only_grow_witness :
  prefix_of (RuntimeAnalyzer.records (RuntimeAnalyzer.mem state_snapshot))
            (RuntimeAnalyzer.records (RuntimeAnalyzer.mem state_between))
  /\ prefix_of (snapshot_of state_between)
               (RuntimeAnalyzer.records (RuntimeAnalyzer.mem state_between)).
Proof.
  apply (records_only_grow Iso.fromisoformat
           FlowCutSolver.maximum_flow FlowCutSolver.minimum_cut
           "A" "C" 60 30 "capacity" state_snapshot state_between).
  - exact state_snapshot_reachable.
  - eapply runs_step; [apply runs_refl | exact state_between_step].
Defined.

Lemma published_windows_witness :
  RuntimeAnalyzer.latest_windows (RuntimeAnalyzer.mem state_between) = []
  \/ exists rc fuel,
       rc <> []
       /\ prefix_of rc (RuntimeAnalyzer.records (RuntimeAnalyzer.mem state_between))
       /\ analyze_time_windows Iso.fromisoformat
            FlowCutSolver.maximum_flow FlowCutSolver.minimum_cut
            fuel rc "A" "C" 60 30 "capacity"
          = Some (Ok (RuntimeAnalyzer.latest_windows (RuntimeAnalyzer.mem state_between))).
Proof.
  apply (published_windows_come_from_log Iso.fromisoformat
           FlowCutSolver.maximum_flow FlowCutSolver.minimum_cut
           "A" "C" 60 30 "capacity" state_between).
  exact state_between_reachable.
Defined.

Lemma graph_data_stays_ready_witness :
  fst (graph_data (RuntimeAnalyzer.mem state_later)) = 200%Z.
Proof.
  apply (graph_data_stays_ready Iso.fromisoformat
           FlowCutSolver.maximum_flow FlowCutSolver.minimum_cut
           "A" "C" 60 30 "capacity" state_done state_later).
  - eapply runs_step; [apply runs_refl|].
    apply (RuntimeAnalyzer.step_tail Iso.fromisoformat
             FlowCutSolver.maximum_flow FlowCutSolver.minimum_cut
             "A" "C" 60 30 "capacity"
             (RuntimeAnalyzer.mem state_done) RuntimeAnalyzer.Sleeping
             (call "2024-01-01T00:00:02Z" "C" "D" 5)).
  - vm_compute. reflexivity.
Defined.

(** ** Reading the log: the batch parser and the live one *)

Section ParserFacts.

Variable py_float : string -> option Q.

Lemma parse_loop_cons (row : list string) (rows : list (list string))
  (records : list LogRecord) :
  LogParser.parse_loop py_float (row :: rows) records
  = if is_data row then
      match row_record py_float row with
      | Some r => LogParser.parse_loop py_float rows (records ++ [r])
      | None => Raise ValueError
      end
    else LogParser.parse_loop py_float rows records.
Proof.
  destruct row as [|c0 [|c1 [|c2 [|c3 [|c4 [|c5 [|c6 row]]]]]]]; simpl;
    try reflexivity; destruct (starts_with_hash c0); simpl; try reflexivity.
  destruct (py_float c5); reflexivity.
Qed.

Lemma records_of_rows_cons (row : list string) (rows : list (list string)) :
  records_of_rows py_float (row :: rows)
  = (if is_data row then
       match row_record py_float row with Some r => [r] | None => [] end
     else []) ++ records_of_rows py_float rows.
Proof.
  unfold records_of_rows. simpl. destruct (is_data row); reflexivity.
Qed.

Lemma parse_loop_spec (rows : list (list string)) :
  forall records,
    LogParser.parse_loop py_float rows records
    = if forallb (well_formed_row py_float) rows
      then Ok (records ++ records_of_rows py_float rows)
      else Raise ValueError.
Proof.
  induction rows as [|row rows IH]; intros records.
  - simpl. rewrite app_nil_r. reflexivity.
  - rewrite parse_loop_cons, records_of_rows_cons.
    cbn [forallb]. unfold well_formed_row at 1.
    destruct (is_data row); cbn [negb orb].
    + destruct (row_record py_float row) as [r|]; cbn [andb]; [|reflexivity].
      rewrite IH. rewrite <- app_assoc. reflexivity.
    + rewrite IH. reflexivity.
Qed.

(** X19.  [parse_csv] reads a file whole or not at all: when every row is a
    comment, a blank row or a data row of six cells with a number in the
    last one, it returns one record per data row, in file order; one data
    row that is not so makes it raise [ValueError], and no record of the
    file is returned. *)
Theorem parse_csv_all_or_nothing (rows : list (list string)) :
  LogParser.parse_csv py_float rows
  = (if forallb (well_formed_row py_float) rows
     then Ok (records_of_rows py_float rows)
     else Raise ValueError)
  /\ (forallb (well_formed_row py_float) rows = true ->
      List.length (records_of_rows py_float rows) = List.length (filter is_data rows)).
Proof.
  split.
  - unfold LogParser.parse_csv. rewrite parse_loop_spec. reflexivity.
  - induction rows as [|row rows IH]; [reflexivity|].
    cbn [forallb]. intros H. apply andb_prop in H. destruct H as [Hrow Hrows].
    rewrite records_of_rows_cons, length_app, (IH Hrows).
    unfold well_formed_row in Hrow. cbn [filter].
    destruct (is_data row); cbn [negb orb] in Hrow; [|reflexivity].
    destruct (row_record py_float row); [reflexivity | discriminate].
Qed.

Variable csv_row : string -> result (list string).
Variable py_strip : string -> string.

Lemma tail_line_row (records : list LogRecord) (line : string) (row : list string) :
  line <> EmptyString ->
  csv_row (py_strip line) = Ok row ->
  tail_line py_float csv_row py_strip records line
  = records ++ (if is_data row then
                  match row_record py_float row with Some r => [r] | None => [] end
                else []).
Proof.
  intros Hline Hrow. unfold tail_line, parse_csv_line.
  destruct line as [|c line]; [congruence|].
  rewrite Hrow. cbn [bind].
  destruct row as [|c0 [|c1 [|c2 [|c3 [|c4 [|c5 [|c6 row]]]]]]]; simpl;
    try (rewrite app_nil_r; reflexivity);
    destruct (starts_with_hash c0); simpl; try (rewrite app_nil_r; reflexivity).
  destruct (py_float c5); simpl; [reflexivity | rewrite app_nil_r; reflexivity].
Qed.

(** X20.  The live server reads a file as the batch parser does, line by
    line: fed the lines whose cells are the rows of the file, [tail_loop]
    appends the records of exactly the data rows that have one, in file
    order, and passes over the others.  So whenever [parse_csv] accepts
    the file, the two end up with the same records. *)
Theorem tail_matches_batch
  (records : list LogRecord) (lines : list string) (rows : list (list string)) :
  Forall2 (fun line row => line <> EmptyString /\ csv_row (py_strip line) = Ok row)
          lines rows ->
  tail_lines py_float csv_row py_strip records lines
  = records ++ records_of_rows py_float rows
  /\ forall recs, LogParser.parse_csv py_float rows = Ok recs ->
                  tail_lines py_float csv_row py_strip [] lines = recs.
Proof.
  intros HF.
  assert (H : forall acc, tail_lines py_float csv_row py_strip acc lines
                          = acc ++ records_of_rows py_float rows).
  { induction HF as [|line row lines rows [Hline Hrow] HF IH]; intros acc.
    - simpl. rewrite app_nil_r. reflexivity.
    - unfold tail_lines in *. cbn [fold_left].
      rewrite (tail_line_row acc line row Hline Hrow), IH, records_of_rows_cons.
      rewrite <- app_assoc. reflexivity. }
  split; [apply H|].
  intros recs. unfold LogParser.parse_csv. rewrite parse_loop_spec, H.
  destruct (forallb (well_formed_row py_float) rows); [|discriminate].
  intros E. injection E as <-. reflexivity.
Qed.

End ParserFacts.

(** A file with two bad lines: the batch parser raises, the live one keeps
    the two good records. *)
Example bad_lines_batch_and_live :
  LogParser.parse_csv ex_float ex_rows = Raise ValueError
  /\ List.length (tail_lines ex_float ex_csv_row ex_strip [] ex_lines) = 2%nat.
Proof.
  split; vm_compute; reflexivity.
Qed.

Lemma tail_matches_batch_witness :
  tail_lines ex_float ex_csv_row ex_strip [] ex_lines
  = [] ++ records_of_rows ex_float ex_rows
  /\ forall recs, LogParser.parse_csv ex_float ex_rows = Ok recs ->
                  tail_lines ex_float ex_csv_row ex_strip [] ex_lines = recs.
Proof.
  apply (tail_matches_batch ex_float ex_csv_row ex_strip [] ex_lines ex_rows).
  unfold ex_rows, ex_lines. cbn [map].
  repeat (constructor; [split; [discriminate | reflexivity]|]).
  constructor.
Defined.

(** ** Highlighting the bottlenecks *)

Lemma annotate_edge_highlighted (highlighted : list edge_key)
  (e : edge_key * GraphVisualizer.EdgeStyle) :
  In (fst e) highlighted ->
  GraphVisualizer.annotate_edge highlighted e = (fst e, highlight_style).
Proof.
  intros H. unfold GraphVisualizer.annotate_edge.
  rewrite (proj2 (existsb_key_In (fst e) highlighted) H). reflexivity.
Qed.

Lemma annotate_edge_other (highlighted : list edge_key)
  (e : edge_key * GraphVisualizer.EdgeStyle) :
  ~ In (fst e) highlighted ->
  GraphVisualizer.annotate_edge highlighted e
  = (fst e,
     GraphVisualizer.mkEdgeStyle
       (GraphVisualizer.setdefault (GraphVisualizer.color (snd e)) "black")
       (GraphVisualizer.setdefault (GraphVisualizer.penwidth (snd e)) "1")).
Proof.
  intros H. unfold GraphVisualizer.annotate_edge.
  destruct (existsb (key_eqb (fst e)) highlighted) eqn:E; [|reflexivity].
  apply existsb_key_In in E. contradiction.
Qed.

Lemma annotate_nonempty (highlighted : list edge_key)
  (styles : list (edge_key * GraphVisualizer.EdgeStyle)) :
  highlighted <> [] ->
  GraphVisualizer.annotate (Some highlighted) styles
  = map (GraphVisualizer.annotate_edge highlighted) styles.
Proof.
  intros H. destruct highlighted; [congruence | reflexivity].
Qed.

(** X21.  When [render_service_graph] is given bottlenecks, it leaves every
    edge of the graph with a colour and a pen width: red and 3 on the
    bottlenecks; on the other edges the values they had, and black and 1
    where they had none.  The edges themselves stay as they are. *)
Theorem annotate_styles_every_edge (bottlenecks : list edge_key)
  (styles : list (edge_key * GraphVisualizer.EdgeStyle)) :
  bottlenecks <> [] ->
  let out := GraphVisualizer.annotate (Some bottlenecks) styles in
  map fst out = map fst styles
  /\ forall k st, In (k, st) out ->
       GraphVisualizer.color st <> None /\ GraphVisualizer.penwidth st <> None
       /\ (In k bottlenecks -> st = highlight_style)
       /\ (~ In k bottlenecks ->
           exists st0, In (k, st0) styles
             /\ GraphVisualizer.color st
                = Some (match GraphVisualizer.color st0 with
                        | Some c => c | None => "black"%string end)
             /\ GraphVisualizer.penwidth st
                = Some (match GraphVisualizer.penwidth st0 with
                        | Some p => p | None => "1"%string end)).
Proof.
  intros Hne out. unfold out. rewrite (annotate_nonempty _ _ Hne). split.
  - rewrite map_map. apply map_ext. intros e.
    unfold GraphVisualizer.annotate_edge.
    destruct (existsb (key_eqb (fst e)) bottlenecks); reflexivity.
  - intros k st Hin. apply in_map_iff in Hin. destruct Hin as [[k0 st0] [E Hin]].
    destruct (existsb (key_eqb k0) bottlenecks) eqn:Eb.
    + apply existsb_key_In in Eb.
      rewrite (annotate_edge_highlighted bottlenecks (k0, st0) Eb) in E.
      cbn [fst] in E. injection E as <- <-.
      split; [discriminate|]. split; [discriminate|].
      split; [reflexivity | contradiction].
    + assert (Hk : ~ In k0 bottlenecks).
      { intros H. apply existsb_key_In in H. congruence. }
      rewrite (annotate_edge_other bottlenecks (k0, st0) Hk) in E.
      cbn [fst snd] in E. injection E as <- <-.
      cbn [GraphVisualizer.color GraphVisualizer.penwidth].
      split; [destruct (GraphVisualizer.color st0); discriminate|].
      split; [destruct (GraphVisualizer.penwidth st0); discriminate|].
      split; [contradiction|]. intros _. exists st0. split; [exact Hin|].
      split; [destruct (GraphVisualizer.color st0) | destruct (GraphVisualizer.penwidth st0)];
        reflexivity.
Qed.

(** X22.  A highlight is never taken back.  The styles are written into the
    graph object, and an edge that was a bottleneck in one rendering is
    still red, with pen width 3, after any later rendering of the same
    graph, also when it is no longer among the bottlenecks. *)
Theorem highlight_sticks (first : list edge_key) (later : option (list edge_key))
  (styles : list (edge_key * GraphVisualizer.EdgeStyle))
  (k : edge_key) (st : GraphVisualizer.EdgeStyle) :
  In k first ->
  In (k, st)
     (GraphVisualizer.annotate later (GraphVisualizer.annotate (Some first) styles)) ->
  st = highlight_style.
Proof.
  intros Hk Hin.
  assert (Hne : first <> []) by (intros ->; destruct Hk).
  rewrite (annotate_nonempty _ _ Hne) in Hin.
  assert (Hfirst : forall st', In (k, st') (map (GraphVisualizer.annotate_edge first) styles) ->
                               st' = highlight_style).
  { intros st' H. apply in_map_iff in H. destruct H as [[k0 st0] [E H]].
    assert (Ek : k0 = k).
    { unfold GraphVisualizer.annotate_edge in E. cbn [fst] in E.
      destruct (existsb (key_eqb k0) first); congruence. }
    subst k0. rewrite (annotate_edge_highlighted first (k, st0) Hk) in E. congruence. }
  destruct later as [[|e later]|]; try (apply Hfirst, Hin).
  unfold GraphVisualizer.annotate in Hin.
  apply in_map_iff in Hin. destruct Hin as [[k1 st1] [E H]].
  assert (Ek : k1 = k).
  { unfold GraphVisualizer.annotate_edge in E. cbn [fst] in E.
    destruct (existsb (key_eqb k1) (e :: later)); congruence. }
  subst k1. rewrite (Hfirst st1 H) in E.
  unfold GraphVisualizer.annotate_edge in E. cbn [fst snd] in E.
  destruct (existsb (key_eqb k) (e :: later)); injection E as <-; reflexivity.
Qed.

Lemma annotate_styles_witness :
  map fst (GraphVisualizer.annotate (Some [("X", "Y")%string]) ex_styles)
  = map fst ex_styles
  /\ forall k st,
       In (k, st) (GraphVisualizer.annotate (Some [("X", "Y")%string]) ex_styles) ->
       GraphVisualizer.color st <> None /\ GraphVisualizer.penwidth st <> None
       /\ (In k [("X", "Y")%string] -> st = highlight_style)
       /\ (~ In k [("X", "Y")%string] ->
           exists st0, In (k, st0) ex_styles
             /\ GraphVisualizer.color st
                = Some (match GraphVisualizer.color st0 with
                        | Some c => c | None => "black"%string end)
             /\ GraphVisualizer.penwidth st
                = Some (match GraphVisualizer.penwidth st0 with
                        | Some p => p | None => "1"%string end)).
Proof.
  apply (annotate_styles_every_edge [("X", "Y")%string] ex_styles).
  discriminate.
Defined.

Lemma highlight_sticks_witness :
  highlight_style = highlight_style
  /\ In (("X", "Y")%string, highlight_style)
        (GraphVisualizer.annotate (Some [("Y", "Z")%string])
           (GraphVisualizer.annotate (Some [("X", "Y")%string]) ex_styles)).
Proof.
  split.
  - apply (highlight_sticks [("X", "Y")%string] (Some [("Y", "Z")%string]) ex_styles
             ("X", "Y")%string highlight_style).
    + left. reflexivity.
    + vm_compute. left. reflexivity.
  - vm_compute. left. reflexivity.
Defined.

(** ** The one-shot program *)

Lemma collect_cut_edges_nodes (G : DiGraph) (S_ T_ : list string) :
  forall l, collect_cut_edges G S_ T_ = Ok l ->
            forall u, In u S_ -> has_node G u = true.
Proof.
  induction S_ as [|x S' IH]; intros l E u Hu; [destruct Hu|].
  cbn [collect_cut_edges] in E. unfold successors_of in E.
  destruct (has_node G x) eqn:Hx; cbn [bind] in E; [|discriminate].
  destruct (collect_cut_edges G S' T_) as [rest|e] eqn:Er; cbn [bind] in E; [|discriminate].
  destruct Hu as [<-|Hu]; [exact Hx | apply (IH rest eq_refl u Hu)].
Qed.

Lemma collect_cut_edges_inv (G : DiGraph) (S_ T_ : list string) (l : list edge_key) :
  collect_cut_edges G S_ T_ = Ok l ->
  forall u v, In (u, v) l <-> In (u, v) (G_edges G) /\ In u S_ /\ In v T_.
Proof.
  intros E.
  destruct (collect_cut_edges_spec G S_ T_ (collect_cut_edges_nodes G S_ T_ l E))
    as [l' [E' H]].
  rewrite E in E'. injection E' as <-. exact H.
Qed.

(** X23.  When the one-shot program gets through, the edges it highlights
    are exactly the edges of the graph of the file that lead from the
    source side of the minimum cut to the sink side.  If there are any,
    these are red with pen width 3 and every other edge is black with pen
    width 1; if there are none, no edge is given a style at all. *)
Theorem mbd_main_paints_the_cut (py_float : string -> option Q)
  (fromisoformat : string -> option datetime)
  (mf : max_flow_fn) (mc : min_cut_fn) (rows : list (list string))
  (bottlenecks : list edge_key)
  (styles : list (edge_key * GraphVisualizer.EdgeStyle)) :
  mbd_main py_float fromisoformat mf mc rows = Ok (bottlenecks, styles) ->
  exists records G cut S_ T_,
    LogParser.parse_csv py_float rows = Ok records
    /\ GraphBuilder.build_graph fromisoformat records = Ok G
    /\ mc G "api-gateway"%string "db-user"%string "capacity"%string = Ok (cut, (S_, T_))
    /\ (forall u v, In (u, v) bottlenecks <->
                    In (u, v) (G_edges G) /\ In u S_ /\ In v T_)
    /\ map fst styles = G_edges G
    /\ (bottlenecks <> [] ->
        forall k st, In (k, st) styles ->
          st = if existsb (key_eqb k) bottlenecks then highlight_style else plain_style)
    /\ (bottlenecks = [] ->
        forall k st, In (k, st) styles -> st = GraphVisualizer.no_style).
Proof.
  unfold mbd_main, GraphAnalyzer.max_flow, GraphAnalyzer.min_cut. intros H.
  destruct (LogParser.parse_csv py_float rows) as [records|] eqn:Ep;
    cbn [bind] in H; [|discriminate].
  destruct (GraphBuilder.build_graph fromisoformat records) as [G|] eqn:Eg;
    cbn [bind] in H; [|discriminate].
  destruct (mf G "api-gateway"%string "db-user"%string "capacity"%string) as [fl|];
    cbn [bind] in H; [|discriminate].
  destruct (mc G "api-gateway"%string "db-user"%string "capacity"%string)
    as [[cut [S_ T_]]|] eqn:Ec; cbn [bind fst snd] in H; [|discriminate].
  destruct (collect_cut_edges G S_ T_) as [l|] eqn:El; cbn [bind] in H; [|discriminate].
  injection H as <- <-.
  exists records, G, cut, S_, T_.
  split; [reflexivity|]. split; [exact Eg|]. split; [exact Ec|].
  split; [apply collect_cut_edges_inv, El|].
  split; [|split].
  - destruct l as [|e l]; cbn [GraphVisualizer.annotate]; rewrite ?map_map;
      (etransitivity; [|apply map_id]); apply map_ext; intros k.
    + reflexivity.
    + unfold GraphVisualizer.annotate_edge. cbn [fst].
      destruct (existsb (key_eqb k) (e :: l)); reflexivity.
  - intros Hne k st Hin. destruct l as [|e l]; [congruence|].
    rewrite map_map in Hin. apply in_map_iff in Hin. destruct Hin as [k0 [E _]].
    unfold GraphVisualizer.annotate_edge in E. cbn [fst snd] in E.
    destruct (existsb (key_eqb k0) (e :: l)) eqn:Eb; injection E as <- <-;
      rewrite Eb; reflexivity.
  - intros Hl k st Hin. subst l.
    apply in_map_iff in Hin. destruct Hin as [k0 [E _]]. congruence.
Qed.

Lemma mbd_main_witness :
  exists records G cut S_ T_,
    LogParser.parse_csv ex_float ex_main_rows = Ok records
    /\ GraphBuilder.build_graph Iso.fromisoformat records = Ok G
    /\ FlowCutSolver.minimum_cut G "api-gateway"%string "db-user"%string "capacity"%string
       = Ok (cut, (S_, T_))
    /\ (forall u v, In (u, v) (fst ex_main_result) <->
                    In (u, v) (G_edges G) /\ In u S_ /\ In v T_)
    /\ map fst (snd ex_main_result) = G_edges G
    /\ (fst ex_main_result <> [] ->
        forall k st, In (k, st) (snd ex_main_result) ->
          st = if existsb (key_eqb k) (fst ex_main_result)
               then highlight_style else plain_style)
    /\ (fst ex_main_result = [] ->
        forall k st, In (k, st) (snd ex_main_result) -> st = GraphVisualizer.no_style).
Proof.
  apply (mbd_main_paints_the_cut ex_float Iso.fromisoformat
           FlowCutSolver.maximum_flow FlowCutSolver.minimum_cut ex_main_rows
           (fst ex_main_result) (snd ex_main_result)).
  vm_compute. reflexivity.
Defined.

(** ** The whole-log graph of the server *)

(** X24.  [/graph-agg] answers 204 with an empty graph as long as no record
    has been read.  After that it answers 200 with one node for every
    service that the records read so far name and one edge for every
    service pair among them, each once and none highlighted; unless the
    timestamps mix values with and without a UTC offset, in which case the
    handler fails with [TypeError]. *)
Theorem graph_agg_serves_the_log (fromisoformat : string -> option datetime)
  (m : RuntimeAnalyzer.shared) :
  let records := RuntimeAnalyzer.records m in
  match graph_agg fromisoformat m with
  | Ok (status, v) =>
      (records = [] /\ status = 204%Z /\ v = empty_view)
      \/ (records <> [] /\ status = 200%Z
          /\ NoDup (map vn_id (v_nodes v))
          /\ (forall n, In n (map vn_id (v_nodes v)) <->
                exists r, In r records /\ (src_service r = n \/ dst_service r = n))
          /\ NoDup (map (fun e => (ve_from e, ve_to e)) (v_edges v))
          /\ (forall k, In k (map (fun e => (ve_from e, ve_to e)) (v_edges v)) <->
                exists r, In r records /\ record_key r = k)
          /\ Forall (fun e => ve_red e = false) (v_edges v))
  | Raise e =>
      e = TypeError /\ ~ uniform (parsed_timestamps fromisoformat records)
  end.
Proof.
  intros records. unfold graph_agg. fold records.
  destruct records as [|r0 rs] eqn:Er; [left; auto|].
  rewrite <- Er.
  destruct (GraphBuilder.build_graph fromisoformat records) as [G|e] eqn:Eg; cbn [bind].
  - right. split; [rewrite Er; discriminate|]. split; [reflexivity|].
    unfold graph_view. cbn [v_nodes v_edges]. rewrite !map_map.
    cbn [vn_id view_node ve_from ve_to view_edge].
    assert (En : map (fun x : string * NodeAttrs => fst x) (G_nodes G) = node_names G)
      by reflexivity.
    assert (Ee : map (fun x : edge_key => (fst x, snd x)) (G_edges G) = G_edges G).
    { rewrite <- (map_id (G_edges G)) at 2. apply map_ext. intros [u v]. reflexivity. }
    rewrite En, Ee.
    split; [apply (build_graph_nodes fromisoformat _ _ Eg)|].
    split; [intros n; rewrite <- has_node_In;
            apply (build_graph_has_node fromisoformat _ _ n Eg)|].
    split; [unfold G_edges; apply NoDup_edge_list;
            [apply (build_graph_nodes fromisoformat _ _ Eg)
            |intros u; apply successors_NoDup,
                         (build_graph_keys_NoDup fromisoformat _ _ Eg)]|].
    split; [intros k; apply (build_graph_edge_iff fromisoformat _ _ k Eg)|].
    apply Forall_forall. intros e He. apply in_map_iff in He.
    destruct He as [k [<- _]]. reflexivity.
  - pose proof (build_graph_raises fromisoformat _ _ Eg) as ->.
    split; [reflexivity|]. intros U.
    destruct (build_graph_ok fromisoformat _ U) as [G HG]. congruence.
Qed.

(** ** From the log to the ranking *)



Section Ranking.

Variable fromisoformat : string -> option datetime.
Variable mf : max_flow_fn.
Variable mc : min_cut_fn.



End Ranking.


(** ** The dependency graph of a list of lines *)

Lemma lookup_set_latency (k k' : edge_key) (v : Z) (es : list (edge_key * Z)) :
  lookup_edge (DependencyGraph.set_latency k' v es) k
  = if key_eqb k k' then Some v else lookup_edge es k.
Proof.
  induction es as [|[k0 l0] es IH]; cbn [DependencyGraph.set_latency].
  - rewrite lookup_edge_cons, lookup_edge_nil. reflexivity.
  - destruct (key_eqb k' k0) eqn:E.
    + rewrite !lookup_edge_cons. apply key_eqb_eq in E. subst k0.
      destruct (key_eqb k k'); reflexivity.
    + rewrite !lookup_edge_cons, IH. destruct (key_eqb k k0) eqn:E0; [|reflexivity].
      apply key_eqb_eq in E0. subst k0. rewrite key_eqb_sym, E. reflexivity.
Qed.

Lemma keys_set_latency (k : edge_key) (v : Z) (es : list (edge_key * Z)) :
  map fst (DependencyGraph.set_latency k v es)
  = if existsb (key_eqb k) (map fst es) then map fst es else map fst es ++ [k].
Proof.
  induction es as [|[k0 l0] es IH]; cbn [DependencyGraph.set_latency map fst existsb];
    [reflexivity|].
  destruct (key_eqb k k0); cbn [map fst orb]; [reflexivity|].
  rewrite IH. destruct (existsb (key_eqb k) (map fst es)); reflexivity.
Qed.

Lemma add_node_distinct (n : string) (ns : list string) :
  NoDup ns -> NoDup (GraphBuilder.add_node n ns).
Proof.
  intros ND. unfold GraphBuilder.add_node.
  destruct (existsb (String.eqb n) ns) eqn:E; [exact ND|].
  apply NoDup_app; [exact ND | constructor; [intros [] | constructor] |].
  intros a Ha [Hn|[]]. subst a.
  assert (Ht : existsb (String.eqb n) ns = true).
  { apply existsb_exists. exists n. split; [exact Ha | apply String.eqb_refl]. }
  congruence.
Qed.

Lemma first_appearance_In (l : list string) (n : string) :
  In n (DependencyGraph.first_appearance l) <-> In n l.
Proof.
  unfold DependencyGraph.first_appearance.
  rewrite <- in_rev, nodup_In, <- in_rev. reflexivity.
Qed.

Lemma first_appearance_NoDup (l : list string) :
  NoDup (DependencyGraph.first_appearance l).
Proof.
  unfold DependencyGraph.first_appearance. apply NoDup_rev, NoDup_nodup.
Qed.

(** [add_node] is one more item for the list of first appearances. *)
Lemma add_node_first_appearance (l : list string) (n : string) :
  GraphBuilder.add_node n (DependencyGraph.first_appearance l)
  = DependencyGraph.first_appearance (l ++ [n]).
Proof.
  unfold GraphBuilder.add_node.
  destruct (existsb (String.eqb n) (DependencyGraph.first_appearance l)) eqn:E.
  - apply existsb_exists in E. destruct E as [x [Hx E]].
    apply String.eqb_eq in E. subst x. apply (proj1 (first_appearance_In l n)) in Hx.
    unfold DependencyGraph.first_appearance. rewrite rev_app_distr. cbn [rev app nodup].
    destruct (in_dec string_dec n (rev l)) as [_|Hn]; [reflexivity|].
    exfalso. apply Hn. rewrite <- in_rev. exact Hx.
  - assert (Hn : ~ In n l).
    { intros H. apply (proj2 (first_appearance_In l n)) in H.
      assert (Ht : existsb (String.eqb n) (DependencyGraph.first_appearance l) = true).
      { apply existsb_exists. exists n. split; [exact H | apply String.eqb_refl]. }
      congruence. }
    unfold DependencyGraph.first_appearance. rewrite rev_app_distr. cbn [rev app nodup].
    destruct (in_dec string_dec n (rev l)) as [Hin|_].
    + exfalso. apply Hn. rewrite in_rev. exact Hin.
    + reflexivity.
Qed.

Lemma grouped_keys (ns : list string) (adj : list (edge_key * Z)) :
  map fst (flat_map (fun u => DependencyGraph.out_of u adj) ns)
  = flat_map (fun u => DependencyGraph.pairs_from u (map fst adj)) ns.
Proof.
  induction ns as [|u us IHu]; [reflexivity|].
  cbn [flat_map]. rewrite map_app, IHu. f_equal. clear IHu.
  unfold DependencyGraph.out_of, DependencyGraph.pairs_from.
  induction adj as [|[k l] es IHe]; [reflexivity|].
  cbn [filter map fst]. destruct (String.eqb (fst k) u); cbn [map fst]; rewrite IHe;
    reflexivity.
Qed.

(** Listing an adjacency node by node repeats no pair. *)
Lemma grouped_keys_NoDup (ns : list string) (adj : list (edge_key * Z)) :
  NoDup ns -> NoDup (map fst adj) ->
  NoDup (map fst (flat_map (fun u => DependencyGraph.out_of u adj) ns)).
Proof.
  intros ND NDk. induction ND as [|n ns Hn ND IH]; [constructor|].
  cbn [flat_map]. rewrite map_app. apply NoDup_app.
  - unfold DependencyGraph.out_of. clear - NDk.
    induction adj as [|[k l] es IHe]; [constructor|].
    cbn [map fst] in NDk. inversion NDk as [|? ? Hk NDk']; subst.
    cbn [filter fst]. destruct (String.eqb (fst k) n); [|apply IHe, NDk'].
    cbn [map fst]. constructor; [|apply IHe, NDk'].
    intros H. apply Hk. apply in_map_iff in H. destruct H as [[k' l'] [E H]].
    apply filter_In in H. apply in_map_iff. exists (k', l'). split; [exact E | apply H].
  - exact IH.
  - intros k H1 H2.
    apply in_map_iff in H1. destruct H1 as [[k1 l1] [E1 H1]]. simpl in E1. subst k1.
    apply filter_In in H1. destruct H1 as [_ H1]. apply String.eqb_eq in H1.
    apply in_map_iff in H2. destruct H2 as [[k2 l2] [E2 H2]]. simpl in E2. subst k2.
    apply in_flat_map in H2. destruct H2 as [u [Hu H2]].
    apply filter_In in H2. destruct H2 as [_ H2]. apply String.eqb_eq in H2.
    simpl in H1, H2. apply Hn. rewrite <- H1, H2. exact Hu.
Qed.

Section DependencyFacts.

Variable py_split : string -> string -> list string.
Variable py_strip : string -> string.
Variable py_replace : string -> string -> string -> string.
Variable py_int : string -> option Z.

Local Abbreviation load :=
  (DependencyGraph.load_from_log_lines py_split py_strip py_replace py_int).
Local Abbreviation calls :=
  (DependencyGraph.calls_of_lines py_split py_strip py_replace py_int).

Lemma load_calls (lines : list string) :
  forall g,
    load g lines
    = fold_left (fun g c => DependencyGraph.add_edge (fst c) (snd c) g) (calls lines) g.
Proof.
  induction lines as [|line lines IH]; intros g; [reflexivity|].
  unfold DependencyGraph.load_from_log_lines, DependencyGraph.calls_of_lines in *.
  cbn [fold_left flat_map]. rewrite fold_left_app, IH.
  unfold DependencyGraph.load_line.
  destruct (DependencyGraph.parse_line py_split py_strip py_replace py_int line)
    as [[k l]|]; reflexivity.
Qed.

(** The adjacency after the lines: the last latency of every pair, the
    pairs in the order of their first appearance. *)
Lemma load_adjacency (cs : list (edge_key * Z)) :
  let g := fold_left (fun g c => DependencyGraph.add_edge (fst c) (snd c) g) cs
             DependencyGraph.empty in
  (forall k, lookup_edge (DependencyGraph.dg_adj g) k
             = option_map snd (find (fun c => key_eqb k (fst c)) (rev cs)))
  /\ map fst (DependencyGraph.dg_adj g) = first_seen (map fst cs)
  /\ DependencyGraph.dg_nodes g
     = DependencyGraph.first_appearance (DependencyGraph.services cs).
Proof.
  cbv zeta. induction cs as [|c cs IH] using rev_ind.
  - split; [intros k; apply lookup_edge_nil|]. split; reflexivity.
  - rewrite fold_left_app. cbn [fold_left].
    set (g := fold_left (fun g c => DependencyGraph.add_edge (fst c) (snd c) g) cs
                DependencyGraph.empty) in *.
    destruct IH as [IH1 [IH2 IH3]].
    unfold DependencyGraph.add_edge.
    cbn [DependencyGraph.dg_adj DependencyGraph.dg_nodes].
    split; [|split].
    + intros k. rewrite lookup_set_latency, rev_app_distr. cbn [rev app find].
      destruct (key_eqb k (fst c)); [reflexivity | apply IH1].
    + rewrite keys_set_latency, map_app. cbn [map].
      rewrite first_seen_snoc, IH2. reflexivity.
    + rewrite IH3. unfold DependencyGraph.services. rewrite flat_map_app.
      cbn [flat_map app].
      change [fst (fst c); snd (fst c)] with ([fst (fst c)] ++ [snd (fst c)]).
      rewrite app_assoc, <- !add_node_first_appearance. reflexivity.
Qed.

(** X26.  [load_from_log_lines] never fails, and a line it cannot read
    changes nothing.  Of the lines it can read, the graph keeps for every
    pair of services the latency of the last line that names the pair.
    The nodes are the services of those lines, each once, in the order of
    their first appearance; the edges are listed node by node, in the
    order of the nodes, and the edges out of a node in the order in which
    their pairs first appear. *)
Theorem dependency_graph_last_line_wins (lines : list string) :
  let g := load DependencyGraph.empty lines in
  let cs := calls lines in
  (forall k, lookup_edge (DependencyGraph.dg_adj g) k
             = option_map snd (find (fun c => key_eqb k (fst c)) (rev cs)))
  /\ (forall k l, In (k, l) (DependencyGraph.edges g)
                  <-> lookup_edge (DependencyGraph.dg_adj g) k = Some l)
  /\ DependencyGraph.dg_nodes g
     = DependencyGraph.first_appearance (DependencyGraph.services cs)
  /\ map fst (DependencyGraph.edges g)
     = flat_map (fun u => DependencyGraph.pairs_from u (first_seen (map fst cs)))
         (DependencyGraph.dg_nodes g)
  /\ NoDup (map fst (DependencyGraph.edges g))
  /\ NoDup (DependencyGraph.dg_nodes g)
  /\ (forall n, In n (DependencyGraph.dg_nodes g) <->
        exists c, In c cs /\ (fst (fst c) = n \/ snd (fst c) = n)).
Proof.
  cbv zeta. rewrite load_calls. generalize (calls lines) as cs. clear lines. intros cs.
  destruct (load_adjacency cs) as [H1 [H2 H3]]. cbv zeta in H1, H2, H3.
  set (g := fold_left (fun g c => DependencyGraph.add_edge (fst c) (snd c) g) cs
              DependencyGraph.empty) in *.
  assert (NDn : NoDup (DependencyGraph.dg_nodes g)).
  { rewrite H3. apply first_appearance_NoDup. }
  assert (Hn : forall n, In n (DependencyGraph.dg_nodes g) <->
                 exists c, In c cs /\ (fst (fst c) = n \/ snd (fst c) = n)).
  { intros n. rewrite H3, first_appearance_In. unfold DependencyGraph.services.
    rewrite in_flat_map. split.
    - intros [c [Hc [E|[E|[]]]]]; exists c; auto.
    - intros [c [Hc [E|E]]]; exists c; (split; [exact Hc|]); simpl; auto. }
  assert (NDk : NoDup (map fst (DependencyGraph.dg_adj g))).
  { rewrite H2. apply first_seen_spec. }
  assert (Hsrc : forall k l, In (k, l) (DependencyGraph.dg_adj g) ->
                   In (fst k) (DependencyGraph.dg_nodes g)).
  { intros k l Hin.
    assert (Hk : In k (map fst cs)).
    { apply (proj2 (first_seen_spec (map fst cs))). rewrite <- H2.
      apply in_map_iff. exists (k, l). split; [reflexivity | exact Hin]. }
    apply in_map_iff in Hk. destruct Hk as [c [E Hc]].
    apply Hn. exists c. split; [exact Hc | left; rewrite E; reflexivity]. }
  split; [exact H1|]. split; [|split; [exact H3|split; [|split; [|split]]]].
  - intros k l. unfold DependencyGraph.edges. rewrite in_flat_map. split.
    + intros [u [_ Hin]]. apply filter_In in Hin.
      apply In_lookup_edge; [exact NDk | apply Hin].
    + intros Hl. apply lookup_edge_Some_In in Hl.
      exists (fst k). split; [apply (Hsrc k l Hl)|].
      apply filter_In. split; [exact Hl | apply String.eqb_refl].
  - unfold DependencyGraph.edges. rewrite grouped_keys, H2. reflexivity.
  - unfold DependencyGraph.edges.
    apply grouped_keys_NoDup; assumption.
  - exact NDn.
  - exact Hn.
Qed.

End DependencyFacts.

(** The edges of three calls: the second edge out of "A" is listed with
    the first, before the edge out of "C". *)
Example dependency_edges_node_by_node :
  DependencyGraph.edges
    (fold_left (fun g c => DependencyGraph.add_edge (fst c) (snd c) g) ex_calls
       DependencyGraph.empty)
  = [ (("A", "B")%string, 1%Z); (("A", "E")%string, 3%Z); (("C", "D")%string, 2%Z) ].
Proof. vm_compute. reflexivity. Qed.

(** ** Windows that overlap, and the graph of the last window *)

Section OverlapFacts.

Variable fromisoformat : string -> option datetime.

Local Abbreviation parsed := (parsed_timestamps fromisoformat).

Lemma expected_window_nth (records : list LogRecord) (w s : Z) (i : nat)
  (win : datetime * datetime) :
  nth_error (expected_windows fromisoformat records w s) i = Some win ->
  let start := first_window_start (parsed records) in
  win = (shift start (Z.of_nat i * s), shift start (Z.of_nat i * s + w)).
Proof.
  intros Hnth start.
  assert (Hlt : (i < List.length (expected_windows fromisoformat records w s))%nat).
  { apply nth_error_Some. congruence. }
  unfold start. clear start.
  unfold expected_windows in *. destruct records as [|r0 rs] eqn:Er; [simpl in Hlt; lia|].
  rewrite <- Er in *.
  rewrite windows_from_length in Hlt.
  rewrite (windows_from_nth _ i _ w s Hlt) in Hnth. congruence.
Qed.

(** X27.  The windows are closed intervals, and consecutive windows share
    what lies between the start of the later one and the end of the
    earlier one: a record stamped there is selected for both.  With a
    window as long as the step this is the record stamped exactly on the
    boundary, which is counted twice. *)
Theorem consecutive_windows_share_records
  (records : list LogRecord) (w s : Z) (i : nat) (w1 w2 : datetime * datetime)
  (r : LogRecord) (ts : datetime) :
  all_parse fromisoformat records ->
  uniform (parsed records) ->
  (0 < s)%Z ->
  nth_error (expected_windows fromisoformat records w s) i = Some w1 ->
  nth_error (expected_windows fromisoformat records w s) (S i) = Some w2 ->
  In r records ->
  fromisoformat (replace_Z (timestamp r)) = Some ts ->
  (micros (fst w2) <= micros ts <= micros (snd w1))%Z ->
  exists sel1 sel2,
    records_in_window fromisoformat records (fst w1) (snd w1) = Ok sel1
    /\ records_in_window fromisoformat records (fst w2) (snd w2) = Ok sel2
    /\ In r sel1 /\ In r sel2.
Proof.
  intros Hall Hu Hs H1 H2 Hr Hts Hin.
  destruct (expected_windows_tz fromisoformat records w s w1 Hu (nth_error_In _ _ H1))
    as [Ta1 Tb1].
  destruct (expected_windows_tz fromisoformat records w s w2 Hu (nth_error_In _ _ H2))
    as [Ta2 Tb2].
  exists (filter (in_window fromisoformat (fst w1) (snd w1)) records),
         (filter (in_window fromisoformat (fst w2) (snd w2)) records).
  split; [apply records_in_window_ok; assumption|].
  split; [apply records_in_window_ok; assumption|].
  pose proof (expected_window_nth records w s i w1 H1) as E1.
  pose proof (expected_window_nth records w s (S i) w2 H2) as E2.
  cbv zeta in E1, E2. subst w1 w2. cbn [fst snd shift micros] in Hin.
  split; apply filter_In; (split; [exact Hr|]); unfold in_window; rewrite Hts;
    cbn [fst snd shift micros];
    apply andb_true_intro; split; apply Z.leb_le; nia.
Qed.

(** X29.  For every window of the analysis, the filter that the live
    server applies to its records when it draws the graph of the last
    window selects exactly the records that [records_in_window] selected
    for the analysis: on a log whose timestamps parse, the graph that is
    drawn is the graph that was analysed. *)
Theorem live_filter_matches_analysis
  (records : list LogRecord) (w s : Z) (win : datetime * datetime) :
  all_parse fromisoformat records ->
  uniform (parsed records) ->
  In win (expected_windows fromisoformat records w s) ->
  records_in_window fromisoformat records (fst win) (snd win)
  = Ok (filter (RuntimeAnalyzer.in_range fromisoformat (fst win) (snd win)) records).
Proof.
  intros Hall Hu Hin.
  destruct (expected_windows_tz fromisoformat records w s win Hu Hin) as [Ta Tb].
  rewrite (records_in_window_ok fromisoformat records _ _ Hall Ta Tb).
  f_equal. apply filter_ext_in. intros r Hr.
  unfold in_window, RuntimeAnalyzer.in_range, parse_iso_z.
  destruct (fromisoformat (replace_Z (timestamp r))) as [ts|] eqn:Ets;
    [|exfalso; apply (Hall r Hr Ets)].
  pose proof (Ta ts (parsed_In fromisoformat records r ts Hr Ets)) as Tts.
  cbn [bind]. unfold dt_le. rewrite <- Tts, Tb, <- Tts, !Bool.eqb_reflx. cbn [bind].
  destruct (micros (fst win) <=? micros ts)%Z; reflexivity.
Qed.

End OverlapFacts.

Lemma filter_map_length {A B : Type} (f : A -> B) (p : B -> bool) (l : list A) :
  List.length (filter p (map f l)) = List.length (filter (fun x => p (f x)) l).
Proof.
  induction l as [|x l IH]; simpl; [reflexivity|].
  destruct (p (f x)); simpl; rewrite IH; reflexivity.
Qed.

(** X28.  The graph that a cycle of the live server publishes has at most
    five red edges, and a red edge is always one of the first five entries
    of the ranking of that cycle. *)
Theorem live_graph_highlights (fromisoformat : string -> option datetime)
  (records_copy : list LogRecord) (windows : list WindowResult)
  (top : list (edge_key * Z)) (v : GraphView) :
  RuntimeAnalyzer.cycle_graph fromisoformat records_copy windows top = Some v ->
  (List.length (filter ve_red (v_edges v)) <= 5)%nat
  /\ forall e, In e (v_edges v) -> ve_red e = true ->
               In (ve_from e, ve_to e) (map fst (firstn 5 top)).
Proof.
  unfold RuntimeAnalyzer.cycle_graph. intros H.
  destruct (rev windows) as [|last_window ws]; [discriminate|].
  destruct (GraphBuilder.build_graph fromisoformat _) as [G|] eqn:EG; [|discriminate].
  injection H as <-. unfold graph_view. cbn [v_edges].
  assert (Eh : slice_to 5 top = firstn 5 top) by (apply (slice_to_nonneg 5 top); lia).
  rewrite Eh. set (h := map fst (firstn 5 top)).
  split.
  - rewrite filter_map_length. cbn [ve_red view_edge].
    transitivity (List.length h).
    + apply NoDup_incl_length.
      * apply NoDup_filter. unfold G_edges. apply NoDup_edge_list.
        -- apply (build_graph_nodes fromisoformat _ _ EG).
        -- intros u. apply successors_NoDup, (build_graph_keys_NoDup fromisoformat _ _ EG).
      * intros k Hk. apply filter_In in Hk. apply existsb_key_In, Hk.
    + unfold h. rewrite length_map. apply firstn_le_length.
  - intros e He Hred. apply in_map_iff in He. destruct He as [k [<- _]].
    cbn [ve_red ve_from ve_to view_edge] in *.
    apply existsb_key_In in Hred. destruct k as [a b]. exact Hred.
Qed.

Lemma consecutive_windows_witness :
  exists sel1 sel2,
    records_in_window Iso.fromisoformat log_chain
      (mkDatetime true 1704067200000000 0) (mkDatetime true 1704067201000000 0) = Ok sel1
    /\ records_in_window Iso.fromisoformat log_chain
         (mkDatetime true 1704067201000000 0) (mkDatetime true 1704067202000000 0) = Ok sel2
    /\ In (call "2024-01-01T00:00:01Z" "B" "C" 20) sel1
    /\ In (call "2024-01-01T00:00:01Z" "B" "C" 20) sel2.
Proof.
  apply (consecutive_windows_share_records Iso.fromisoformat log_chain 1 1 0
           (mkDatetime true 1704067200000000 0, mkDatetime true 1704067201000000 0)
           (mkDatetime true 1704067201000000 0, mkDatetime true 1704067202000000 0)
           (call "2024-01-01T00:00:01Z" "B" "C" 20)
           (mkDatetime true 1704067201000000 0)).
  - exact log_chain_parses.
  - exact log_chain_uniform.
  - lia.
  - vm_compute. reflexivity.
  - vm_compute. reflexivity.
  - right. left. reflexivity.
  - vm_compute. reflexivity.
  - simpl. lia.
Defined.

Lemma live_filter_witness :
  records_in_window Iso.fromisoformat log_chain
    (mkDatetime true 1704067200000000 0) (mkDatetime true 1704067260000000 0)
  = Ok (filter (RuntimeAnalyzer.in_range Iso.fromisoformat
                  (mkDatetime true 1704067200000000 0) (mkDatetime true 1704067260000000 0))
               log_chain).
Proof.
  apply (live_filter_matches_analysis Iso.fromisoformat log_chain 60 30
           (mkDatetime true 1704067200000000 0, mkDatetime true 1704067260000000 0)).
  - exact log_chain_parses.
  - exact log_chain_uniform.
  - vm_compute. left. reflexivity.
Defined.

Lemma live_graph_highlights_witness :
  (List.length (filter ve_red (v_edges ex_live_view)) <= 5)%nat
  /\ forall e, In e (v_edges ex_live_view) -> ve_red e = true ->
               In (ve_from e, ve_to e) (map fst (firstn 5 live_top)).
Proof.
  apply (live_graph_highlights Iso.fromisoformat log_chain live_windows live_top
           ex_live_view).
  vm_compute. reflexivity.
Defined.
